(** * CanvasTable: the virtualized canvas grid component

    A shallow embedding of the script of the CanvasTable Vue component
    (the variant with measured column widths and a horizontal scrollbar):
    text truncation and wrapping, the column width resolver, the scroll
    handlers, hit-testing and the pointer handlers.

    Conventions.
    - A JavaScript number is a rational ([Q]).  IEEE rounding and signed
      zeros are abstracted away.  In the scroll handlers, where a divisor
      can be zero, the quotient is computed by [js_div], which makes the
      non-finite results explicit.  The divisions by [props.rowHeight] are
      divisions of rationals: the row height is not zero.
    - A JavaScript string is the list of its UTF-16 code units.
    - A reactive [ref] / [computed] is a field of the component state,
      respectively a function of the props, the container geometry and the
      state.
    - The 2D context is a text-width function.  The handlers are modelled
      for the mounted component, where [initCanvas] has acquired it. *)

From Stdlib Require Import QArith Qround Qminmax Qabs ZArith Lia Lqa Bool.
From Equations Require Import Equations.
From stdpp Require Import base option list gmap strings.

Local Open Scope Q_scope.

(** ** Numbers *)

Module Num.

Definition ltb (x y : Q) : bool := negb (Qle_bool y x).
Definition gtb (x y : Q) : bool := ltb y x.
Definition leb (x y : Q) : bool := Qle_bool x y.
(** Truthiness of a number: [if (n)] holds unless [n] is zero. *)
Definition truthy (x : Q) : bool := negb (Qeq_bool x 0).
(** [Math.floor] as a number. *)
Definition floor (x : Q) : Q := inject_Z (Qfloor x).
Definition of_nat (n : nat) : Q := inject_Z (Z.of_nat n).

(** A quotient or product that may leave the rationals. *)
Inductive jsnum : Type :=
| Fin (q : Q)
| PosInf
| NegInf
| NaN.

(** [a / b] on finite operands. *)
Definition js_div (a b : Q) : jsnum :=
  if Qeq_bool b 0 then
    (if Qeq_bool a 0 then NaN else if ltb 0 a then PosInf else NegInf)
  else Fin (a / b).

(** [n * c] with [c] finite. *)
Definition js_mul (n : jsnum) (c : Q) : jsnum :=
  match n with
  | Fin q => Fin (q * c)
  | NaN => NaN
  | PosInf => if Qeq_bool c 0 then NaN else if ltb 0 c then PosInf else NegInf
  | NegInf => if Qeq_bool c 0 then NaN else if ltb 0 c then NegInf else PosInf
  end.

(** [c + n] with [c] finite. *)
Definition js_add (c : Q) (n : jsnum) : jsnum :=
  match n with
  | Fin q => Fin (c + q)
  | other => other
  end.

(** [c - n] with [c] finite. *)
Definition js_sub (c : Q) (n : jsnum) : jsnum :=
  match n with
  | Fin q => Fin (c - q)
  | PosInf => NegInf
  | NegInf => PosInf
  | NaN => NaN
  end.

(** [Math.max(c, n)] with [c] finite. *)
Definition js_max (c : Q) (n : jsnum) : jsnum :=
  match n with
  | Fin q => Fin (Qmax c q)
  | PosInf => PosInf
  | NegInf => Fin c
  | NaN => NaN
  end.

(** [n <= c]; every comparison with NaN is false. *)
Definition js_leb (n : jsnum) (c : Q) : bool :=
  match n with
  | Fin q => Qle_bool q c
  | NegInf => true
  | PosInf | NaN => false
  end.

(** [Math.max(0, Math.min(n, maxScroll))], the clamp of every scroll
    mutation.  [None] is NaN. *)
Definition clamp (n : jsnum) (maxScroll : Q) : option Q :=
  match n with
  | Fin q => Some (Qmax 0 (Qmin q maxScroll))
  | PosInf => Some (Qmax 0 maxScroll)
  | NegInf => Some 0
  | NaN => None
  end.

End Num.

(** ** Strings *)

Definition jschar : Type := N.
Definition jsstring : Type := list N.

(** An ASCII literal as a JavaScript string. *)
Fixpoint js (s : string) : jsstring :=
  match s with
  | EmptyString => []
  | String c rest => Ascii.N_of_ascii c :: js rest
  end.

Definition ellipsis : jsstring := Eval cbv in js "...".

(** [text.substring(0, n)]. *)
Definition substring0 (n : nat) (text : jsstring) : jsstring := take n text.
(** [line.slice(0, -1)]. *)
Definition slice_init (line : jsstring) : jsstring :=
  take (length line - 1) line.
(** Truthiness of a string. *)
Definition nonempty (s : jsstring) : bool :=
  match s with [] => false | _ :: _ => true end.

(** [context.measureText(s).width] for the one font the component sets. *)
Definition Context : Type := jsstring -> Q.

(** Longer prefix, at least as wide: the width of a prefix of a text
    followed by the ellipsis, which is what the truncation compares with
    [maxWidth], does not decrease when the prefix grows. *)
Definition monotonic (measure : Context) : Prop :=
  forall (text : jsstring) (j k : nat),
    (j <= k)%nat ->
    measure (substring0 j text ++ ellipsis)
    <= measure (substring0 k text ++ ellipsis).

(** ** Text metrics and layout *)

Module Text.

(** *** Ellipsis truncation: [getEllipsisText] *)

(** The [while (left < right)] search loop; returns the final [left].
    ([lft] and [rgt] stand for the source's [left] and [right].) *)
Equations? search (measure : Context) (text : jsstring) (maxWidth : Q)
    (lft rgt : nat) : nat by wf (rgt - lft)%nat lt :=
  search measure text maxWidth lft rgt with lt_dec lft rgt := {
    | right _ => lft
    | left Hlt =>
        let mid := ((lft + rgt + 1) / 2)%nat in
        let truncated := substring0 mid text ++ ellipsis in
        let width := measure truncated in
        if Qle_bool width maxWidth
        then search measure text maxWidth mid rgt
        else search measure text maxWidth lft (mid - 1)%nat }.
Proof.
  - assert (lft < (lft + rgt + 1) / 2)%nat
      by (apply Nat.div_le_lower_bound; lia).
    lia.
  - assert ((lft + rgt + 1) / 2 <= rgt)%nat
      by (apply Nat.Div0.div_le_upper_bound; lia).
    assert (lft < (lft + rgt + 1) / 2)%nat
      by (apply Nat.div_le_lower_bound; lia).
    lia.
Qed.

Definition getEllipsisText (context : Context) (text : jsstring)
    (maxWidth : Q) : jsstring :=
  if Qle_bool (context text) maxWidth then text
  else
    let lft := search context text maxWidth 0 (length text) in
    substring0 lft text ++ ellipsis.

(** The prefix of length [k] fits [maxWidth] once the ellipsis is
    appended. *)
Definition fits (measure : Context) (text : jsstring) (maxWidth : Q)
    (k : nat) : Prop :=
  measure (substring0 k text ++ ellipsis) <= maxWidth.

(** *** Multi-line wrapping: the [else] branch of [drawRows] *)

(** [[\u4e00-\u9fa5]]. *)
Definition isCJK (c : jschar) : bool :=
  (19968 <=? c)%N && (c <=? 40869)%N.

(** [\s]: the white space and line terminator code units. *)
Definition isSpace (c : jschar) : bool :=
  ((9 <=? c)%N && (c <=? 13)%N) || (c =? 32)%N || (c =? 160)%N
  || (c =? 5760)%N || ((8192 <=? c)%N && (c <=? 8202)%N)
  || (c =? 8232)%N || (c =? 8233)%N || (c =? 8239)%N || (c =? 8287)%N
  || (c =? 12288)%N || (c =? 65279)%N.

(** The four zero-width alternatives of the split pattern match between
    two code units exactly when one of them is an ideograph or a space. *)
Definition boundary (before after : jschar) : bool :=
  isCJK before || isCJK after || isSpace before || isSpace after.

(** [text.split(/(?<=[\u4e00-\u9fa5])|(?=[\u4e00-\u9fa5])|(?<=\s)|(?=\s)/)]:
    the pieces between the boundaries; [word] is the piece being
    collected.  The empty text gives the single empty piece. *)
Fixpoint split_from (word : jsstring) (text : jsstring) : list jsstring :=
  match text with
  | [] => [word]
  | c :: rest =>
      match rest with
      | [] => [word ++ [c]]
      | d :: _ =>
          if boundary c d then (word ++ [c]) :: split_from [] rest
          else split_from (word ++ [c]) rest
      end
  end.

Definition split (text : jsstring) : list jsstring := split_from [] text.

Definition jsstring_eqb (a b : jsstring) : bool := bool_decide (a = b).

(** [words.indexOf(word)]: the index of the first piece equal to [word];
    [words.length] stands for the source's [-1], which the callers below
    never meet. *)
Fixpoint indexOf (word : jsstring) (words : list jsstring) : nat :=
  match words with
  | [] => 0%nat
  | w :: rest => if jsstring_eqb w word then 0%nat else S (indexOf word rest)
  end.

(** The trim loop
    [while (measureText(currentLine + '...').width > maxWidth)
       currentLine = currentLine.slice(0, -1)].
    [fuel] bounds the number of tests of the condition; [None] means the
    loop is still running when the fuel is spent. *)
Fixpoint trim (fuel : nat) (context : Context) (maxWidth : Q)
    (currentLine : jsstring) : option jsstring :=
  match fuel with
  | O => None
  | S fuel' =>
      if Num.gtb (context (currentLine ++ ellipsis)) maxWidth
      then trim fuel' context maxWidth (slice_init currentLine)
      else Some currentLine
  end.

(** The [for (let word of words)] loop over the pieces still to visit;
    the result is [(lines, currentLine)] at the exit of the loop. *)
Fixpoint wrapLoop (fuel : nat) (context : Context) (maxWidth : Q)
    (maxLines : Q) (words : list jsstring) (todo : list jsstring)
    (lines : list jsstring) (currentLine : jsstring)
    : option (list jsstring * jsstring) :=
  match todo with
  | [] => Some (lines, currentLine)
  | word :: todo' =>
      let testLine := currentLine ++ word in
      let testWidth := context testLine in
      if Num.gtb testWidth maxWidth && nonempty currentLine then
        let lines := lines ++ [currentLine] in
        let currentLine := word in
        if Num.leb maxLines (Num.of_nat (length lines)) then
          if (indexOf word words + 1 <? length words)%nat then
            match trim fuel context maxWidth currentLine with
            | Some currentLine => Some (lines, currentLine ++ ellipsis)
            | None => None
            end
          else Some (lines, currentLine)
        else wrapLoop fuel context maxWidth maxLines words todo'
               lines currentLine
      else wrapLoop fuel context maxWidth maxLines words todo'
             lines (currentLine ++ word)
  end.

Definition padding : Q := 10.
Definition lineHeight : Q := 20.

(** [maxLines] of a cell. *)
Definition maxLines (rowHeight : Q) : Q :=
  Num.floor ((rowHeight - padding * 2) / lineHeight).

(** The lines [drawRows] draws for one cell of resolved width [width] in
    wrap mode. *)
Definition wrapCell (fuel : nat) (context : Context) (rowHeight : Q)
    (width : Q) (text : jsstring) : option (list jsstring) :=
  let maxWidth := width - padding * 2 in
  let maxLines := maxLines rowHeight in
  let words := split text in
  match wrapLoop fuel context maxWidth maxLines words words [] [] with
  | None => None
  | Some (lines, currentLine) =>
      if nonempty currentLine
         && Num.ltb (Num.of_nat (length lines)) maxLines
      then Some (lines ++ [currentLine])
      else Some lines
  end.

(** [line.endsWith('...')]. *)
Definition endsWithEllipsis (line : jsstring) : bool :=
  bool_decide (drop (length line - 3) line = ellipsis).

End Text.

(** ** The data model *)

(** A cell value: [Null], or any other value, given by its [String(...)]
    image.  A row is the map of its own properties, and a key that it lacks
    reads as [undefined]: the keys of the columns are not names that a row
    inherits from [Object.prototype]. *)
Inductive Value : Type :=
| Null
| Str (s : jsstring).

Definition Row : Type := gmap string Value.

(** [String(row[key])]. *)
Definition String_of (v : option Value) : jsstring :=
  match v with
  | None => js "undefined"
  | Some Null => js "null"
  | Some (Str s) => s
  end.

(** [String(row[key] ?? '')]. *)
Definition String_or_empty (v : option Value) : jsstring :=
  match v with
  | None | Some Null => []
  | Some (Str s) => s
  end.

(** A column descriptor [{ key, title, width? }]. *)
Record Column : Type := mkColumn {
  key : string;
  title : jsstring;
  width : option Q
}.

(** [if (column.width)]: the declared width when it is truthy. *)
Definition fixedWidth (column : Column) : option Q :=
  match width column with
  | Some w => if Num.truthy w then Some w else None
  | None => None
  end.

Record Props : Type := mkProps {
  data : list Row;
  columns : list Column;
  headerHeight : Q;
  rowHeight : Q;
  showEllipsis : bool
}.

(** What the script reads from the mounted elements:
    [tableContainer.value.clientHeight] and [tableCanvas.value.height]. *)
Record Dom : Type := mkDom {
  clientHeight : Q;
  canvasHeight : Q
}.

(** The [tooltip] ref: [{ show, text, x, y }]. *)
Record Tooltip : Type := mkTooltip {
  tip_show : bool;
  tip_text : jsstring;
  tip_x : Q;
  tip_y : Q
}.

(** The refs of the component.  [state_columnWidths], [startX] and
    [isResizing] are the three fields of the [state] ref. *)
Record Comp : Type := mkComp {
  scrollTop : Q;
  scrollLeft : Q;
  containerWidth : Q;
  selectedRow : option Z;
  hoveredRow : option Z;
  resizingColumn : option nat;
  state_columnWidths : gmap nat Q;
  startX : Q;
  isResizing : bool;
  isDraggingScroll : bool;
  startDragY : Q;
  startScrollTop : Q;
  isDraggingHorizontalScroll : bool;
  startDragX : Q;
  startScrollLeft : Q;
  tooltip : Tooltip
}.

(** The refs as the script initialises them, for a container of the given
    width. *)
Definition mounted (width : Q) : Comp :=
  {| scrollTop := 0; scrollLeft := 0; containerWidth := width;
     selectedRow := None; hoveredRow := None; resizingColumn := None;
     state_columnWidths := ∅; startX := 0; isResizing := false;
     isDraggingScroll := false; startDragY := 0; startScrollTop := 0;
     isDraggingHorizontalScroll := false; startDragX := 0;
     startScrollLeft := 0;
     tooltip := {| tip_show := false; tip_text := [];
                  tip_x := 0; tip_y := 0 |} |}.

Definition set_scrollTop (v : Q) (s : Comp) : Comp :=
  mkComp v (scrollLeft s) (containerWidth s) (selectedRow s) (hoveredRow s)
    (resizingColumn s) (state_columnWidths s) (startX s) (isResizing s)
    (isDraggingScroll s) (startDragY s) (startScrollTop s)
    (isDraggingHorizontalScroll s) (startDragX s) (startScrollLeft s)
    (tooltip s).

Definition set_scrollLeft (v : Q) (s : Comp) : Comp :=
  mkComp (scrollTop s) v (containerWidth s) (selectedRow s) (hoveredRow s)
    (resizingColumn s) (state_columnWidths s) (startX s) (isResizing s)
    (isDraggingScroll s) (startDragY s) (startScrollTop s)
    (isDraggingHorizontalScroll s) (startDragX s) (startScrollLeft s)
    (tooltip s).

Definition set_selectedRow (v : option Z) (s : Comp) : Comp :=
  mkComp (scrollTop s) (scrollLeft s) (containerWidth s) v (hoveredRow s)
    (resizingColumn s) (state_columnWidths s) (startX s) (isResizing s)
    (isDraggingScroll s) (startDragY s) (startScrollTop s)
    (isDraggingHorizontalScroll s) (startDragX s) (startScrollLeft s)
    (tooltip s).

Definition set_hover (row : option Z) (tip : Tooltip) (s : Comp) : Comp :=
  mkComp (scrollTop s) (scrollLeft s) (containerWidth s) (selectedRow s) row
    (resizingColumn s) (state_columnWidths s) (startX s) (isResizing s)
    (isDraggingScroll s) (startDragY s) (startScrollTop s)
    (isDraggingHorizontalScroll s) (startDragX s) (startScrollLeft s)
    tip.

(** The resize bookkeeping: [resizingColumn] and the [state] ref. *)
Definition set_resize (column : option nat) (widths : gmap nat Q)
    (x : Q) (resizing : bool) (s : Comp) : Comp :=
  mkComp (scrollTop s) (scrollLeft s) (containerWidth s) (selectedRow s)
    (hoveredRow s) column widths x resizing
    (isDraggingScroll s) (startDragY s) (startScrollTop s)
    (isDraggingHorizontalScroll s) (startDragX s) (startScrollLeft s)
    (tooltip s).

(** The vertical thumb drag: [isDraggingScroll], [startDragY],
    [startScrollTop]. *)
Definition set_drag (dragging : bool) (y top : Q) (s : Comp) : Comp :=
  mkComp (scrollTop s) (scrollLeft s) (containerWidth s) (selectedRow s)
    (hoveredRow s) (resizingColumn s) (state_columnWidths s) (startX s)
    (isResizing s) dragging y top
    (isDraggingHorizontalScroll s) (startDragX s) (startScrollLeft s)
    (tooltip s).

(** The horizontal thumb drag: [isDraggingHorizontalScroll], [startDragX],
    [startScrollLeft]. *)
Definition set_hdrag (dragging : bool) (x offset : Q) (s : Comp) : Comp :=
  mkComp (scrollTop s) (scrollLeft s) (containerWidth s) (selectedRow s)
    (hoveredRow s) (resizingColumn s) (state_columnWidths s) (startX s)
    (isResizing s) (isDraggingScroll s) (startDragY s) (startScrollTop s)
    dragging x offset (tooltip s).

(** [props.data[i]] for a numeric index. *)
Definition rowAt (rows : list Row) (i : Z) : option Row :=
  if (i <? 0)%Z then None else rows !! Z.to_nat i.

(** [props.data.length * props.rowHeight]. *)
Definition contentHeight (p : Props) : Q :=
  Num.of_nat (length (data p)) * rowHeight p.

(** [tableContainer.value.clientHeight - props.headerHeight]; the [|| 0]
    that three of the computeds append replaces a zero by zero. *)
Definition containerHeight (p : Props) (d : Dom) : Q :=
  clientHeight d - headerHeight p.

Definition showScrollbar (p : Props) (d : Dom) : bool :=
  Num.gtb (contentHeight p) (containerHeight p d).

(** [showScrollbar.value ? 12 : 0]. *)
Definition scrollbarReserve (p : Props) (d : Dom) : Q :=
  if showScrollbar p d then 12 else 0.

(** ** The column width resolver *)

Module Widths.

(** The row window of [measureCellWidth]:
    [visibleStartIndex <= i < visibleEndIndex]. *)
Definition visibleStartIndex (p : Props) (s : Comp) : Z :=
  Qfloor (scrollTop s / rowHeight p).

Definition visibleEndIndex (p : Props) (d : Dom) (s : Comp) : Z :=
  Z.min (Z.of_nat (length (data p)))
        (Qceiling ((scrollTop s + clientHeight d) / rowHeight p)).

Definition visibleIndices (p : Props) (d : Dom) (s : Comp) : list Z :=
  seqZ (visibleStartIndex p s) (visibleEndIndex p d s - visibleStartIndex p s).

(** The rows of the window.  An index of the window below zero has no row
    (the source would fail on [props.data[i][column.key]]); the handlers
    keep [scrollTop] at or above zero, so for a positive row height the
    window starts at a row of the data. *)
Definition visibleRows (p : Props) (d : Dom) (s : Comp) : list Row :=
  omap (rowAt (data p)) (visibleIndices p d s).

(** The text [measureCellWidth] measures for a row. *)
Definition content (column : Column) (row : Row) : jsstring :=
  String_of (row !! key column).

(** [measureCellWidth(column, context)]. *)
Definition measureCellWidth (p : Props) (d : Dom) (s : Comp)
    (column : Column) (context : option Context) : Q :=
  match context with
  | None => 150
  | Some context =>
      let headerWidth := context (title column) + 40 in
      let maxContentWidth :=
        foldl (fun maxContentWidth row =>
                 let contentWidth := context (content column row) + 40 in
                 Qmax maxContentWidth contentWidth)
              0 (visibleRows p d s) in
      Qmax (Qmax headerWidth maxContentWidth) 150
  end.

(** The three accumulators of the first [forEach] of [columnWidths]. *)
Record Pass : Type := mkPass {
  widths : gmap nat Q;
  totalFixedWidth : Q;
  flexColumns : list nat
}.

Definition reserve (p : Props) (d : Dom) (s : Comp) (context : Context)
    (acc : Pass) (entry : nat * Column) : Pass :=
  let '(index, column) := entry in
  match fixedWidth column with
  | Some w =>
      {| widths := <[index := w]> (widths acc);
         totalFixedWidth := totalFixedWidth acc + w;
         flexColumns := flexColumns acc |}
  | None =>
      let minWidth := measureCellWidth p d s column (Some context) in
      {| widths := <[index := minWidth]> (widths acc);
         totalFixedWidth := totalFixedWidth acc + minWidth;
         flexColumns := flexColumns acc ++ [index] |}
  end.

Definition firstPass (p : Props) (d : Dom) (s : Comp) (context : Context)
    : Pass :=
  foldl (reserve p d s context)
        {| widths := ∅; totalFixedWidth := 0; flexColumns := [] |}
        (imap pair (columns p)).

(** What the first pass reserves for one column: the declared width of a
    fixed column, the measured minimum of a flexible one. *)
Definition reserved (p : Props) (d : Dom) (s : Comp) (context : Context)
    (column : Column) : Q :=
  match fixedWidth column with
  | Some w => w
  | None => measureCellWidth p d s column (Some context)
  end.

(** The sum of the reserved widths, added left to right as the first pass
    adds them. *)
Definition reservedSum (p : Props) (d : Dom) (s : Comp) (context : Context)
    : Q :=
  foldl (fun sum column => sum + reserved p d s context column)
        0 (columns p).

Definition isFlexible (column : Column) : bool :=
  match fixedWidth column with Some _ => false | None => true end.

(** The number of flexible columns. *)
Definition flexibleCount (p : Props) : nat :=
  length (filter (fun column => isFlexible column = true) (columns p)).

(** The flexible indices among [cols], numbered from [k]: what the first
    pass pushes on [flexColumns]. *)
Fixpoint flexFrom (k : nat) (cols : list Column) : list nat :=
  match cols with
  | [] => []
  | column :: rest =>
      if isFlexible column then k :: flexFrom (S k) rest
      else flexFrom (S k) rest
  end.

(** [containerWidth.value - (showScrollbar.value ? 12 : 0)]. *)
Definition availableWidth (p : Props) (d : Dom) (s : Comp) : Q :=
  containerWidth s - scrollbarReserve p d.

(** [Math.floor(extraSpace / flexColumns.length)] for a non-empty
    [flexColumns]. *)
Definition extraPerColumn (extraSpace : Q) (flexible : nat) : Q :=
  Num.floor (extraSpace / Num.of_nat flexible).

(** The computed [columnWidths]: index to resolved width. *)
Definition columnWidths (context : option Context) (p : Props) (d : Dom)
    (s : Comp) : gmap nat Q :=
  match context with
  | None => ∅
  | Some context =>
      let pass := firstPass p d s context in
      let availableWidth := availableWidth p d s in
      if (0 <? length (flexColumns pass))%nat
         && Num.ltb (totalFixedWidth pass) availableWidth
      then
        let extraSpace := availableWidth - totalFixedWidth pass in
        let extra := extraPerColumn extraSpace (length (flexColumns pass)) in
        foldl (fun widths index => alter (fun w => w + extra) index widths)
              (widths pass) (flexColumns pass)
      else widths pass
  end.

(** [columnWidths.value[index]] at an index the resolver has written,
    which is every index of [props.columns] once the context exists. *)
Definition widthAt (widths : gmap nat Q) (index : nat) : Q :=
  default 0 (widths !! index).

(** The computed [totalWidth]. *)
Definition totalWidth (context : Context) (p : Props) (d : Dom) (s : Comp)
    : Q :=
  let widths := columnWidths (Some context) p d s in
  foldl (fun sum entry => sum + widthAt widths (fst entry))
        0 (imap pair (columns p)).

Definition showHorizontalScrollbar (context : Context) (p : Props)
    (d : Dom) (s : Comp) : bool :=
  Num.gtb (totalWidth context p d s) (containerWidth s).

(** A whole number between 0 and 2^52.  The component computes in binary
    floating point; its sums, differences and floored quotients of such
    numbers are exact as long as the results are such numbers too. *)
Definition whole (x : Q) : bool :=
  Qeq_bool x (Num.floor x) && Qle_bool 0 x
  && Qle_bool x (inject_Z (2 ^ 52)).

(** The container width, the width the first pass reserves for each
    column and the sum of these widths are whole: the resolver then
    computes what it would compute with exact numbers. *)
Definition exact (context : Context) (p : Props) (d : Dom) (s : Comp)
    : bool :=
  whole (containerWidth s)
  && forallb (fun column => whole (reserved p d s context column))
       (columns p)
  && whole (reservedSum p d s context).

End Widths.

(** ** The viewport and scroll model *)

Module Scroll.

(** The computed [thumbHeight]. *)
Definition thumbHeight (p : Props) (d : Dom) : Num.jsnum :=
  let containerHeight := containerHeight p d in
  let contentHeight := contentHeight p in
  let minThumbHeight := 40 in
  let heightRatio := Num.js_div containerHeight contentHeight in
  Num.js_max minThumbHeight (Num.js_mul heightRatio containerHeight).

(** The computed [horizontalThumbWidth]. *)
Definition horizontalThumbWidth (context : Context) (p : Props) (d : Dom)
    (s : Comp) : Q :=
  let totalWidth := Widths.totalWidth context p d s in
  if negb (Num.truthy (containerWidth s)) || negb (Num.truthy totalWidth)
  then 40
  else
    let ratio := containerWidth s / totalWidth in
    Qmax 40 (ratio * (containerWidth s - scrollbarReserve p d)).

Definition handleWheel (context : Context) (p : Props) (d : Dom)
    (deltaX deltaY : Q) (shiftKey : bool) (s : Comp) : Comp :=
  let containerHeight := containerHeight p d in
  let contentHeight := contentHeight p in
  let totalWidth := Widths.totalWidth context p d s in
  if shiftKey
     || (Num.truthy deltaX && Num.gtb totalWidth (containerWidth s))
  then
    let maxScroll := totalWidth - containerWidth s in
    let newScrollLeft :=
      scrollLeft s + (if Num.truthy deltaX then deltaX else deltaY) in
    set_scrollLeft (Qmax 0 (Qmin newScrollLeft maxScroll)) s
  else
    let maxScroll := contentHeight - containerHeight in
    let newScrollTop := scrollTop s + deltaY in
    set_scrollTop (Qmax 0 (Qmin newScrollTop maxScroll)) s.

Definition handleScrollStart (clientY : Q) (s : Comp) : Comp :=
  set_drag true clientY (scrollTop s) s.

(** A thumb move ends in the next state, or stores NaN in the scroll
    offset ([None]); the model does not follow the component further. *)
Definition handleScrollMove (p : Props) (d : Dom) (clientY : Q) (s : Comp)
    : option Comp :=
  if negb (isDraggingScroll s) then Some s
  else
    let deltaY := clientY - startDragY s in
    let containerHeight := containerHeight p d in
    let contentHeight := contentHeight p in
    let scrollableHeight := Num.js_sub containerHeight (thumbHeight p d) in
    if Num.js_leb scrollableHeight 0 then Some s
    else
      let scrollRatio :=
        match scrollableHeight with
        | Num.Fin h => Num.Fin ((contentHeight - containerHeight) / h)
        | Num.NaN => Num.NaN
        | Num.PosInf | Num.NegInf => Num.Fin 0
        end in
      let newScrollTop :=
        Num.js_add (startScrollTop s) (Num.js_mul scrollRatio deltaY) in
      match Num.clamp newScrollTop (contentHeight - containerHeight) with
      | Some offset => Some (set_scrollTop offset s)
      | None => None
      end.

Definition handleScrollEnd (s : Comp) : Comp :=
  set_drag false (startDragY s) (startScrollTop s) s.

Definition handleHorizontalScrollStart (clientX : Q) (s : Comp) : Comp :=
  set_hdrag true clientX (scrollLeft s) s.

Definition handleHorizontalScrollMove (context : Context) (p : Props)
    (d : Dom) (clientX : Q) (s : Comp) : option Comp :=
  if negb (isDraggingHorizontalScroll s) then Some s
  else
    let deltaX := clientX - startDragX s in
    let scrollableWidth :=
      containerWidth s - scrollbarReserve p d
      - horizontalThumbWidth context p d s in
    let maxScroll := Widths.totalWidth context p d s - containerWidth s in
    if Qle_bool maxScroll 0 then Some s
    else
      let scrollRatio := Num.js_div maxScroll scrollableWidth in
      let newScrollLeft :=
        Num.js_add (startScrollLeft s) (Num.js_mul scrollRatio deltaX) in
      match Num.clamp newScrollLeft maxScroll with
      | Some offset => Some (set_scrollLeft offset s)
      | None => None
      end.

Definition handleHorizontalScrollEnd (s : Comp) : Comp :=
  set_hdrag false (startDragX s) (startScrollLeft s) s.

(** The wheel and scrollbar events.  A thumb exists, and so receives a
    [mousedown], only while its scrollbar is shown ([v-if]); the moves and
    releases come from the [window] listeners. *)
Inductive Event : Type :=
| Wheel (deltaX deltaY : Q) (shiftKey : bool)
| ThumbDown (clientY : Q)
| ThumbMove (clientY : Q)
| ThumbUp
| HorizontalThumbDown (clientX : Q)
| HorizontalThumbMove (clientX : Q)
| HorizontalThumbUp.

Definition dispatch (context : Context) (p : Props) (d : Dom)
    (e : Event) (s : Comp) : option Comp :=
  match e with
  | Wheel deltaX deltaY shiftKey =>
      Some (handleWheel context p d deltaX deltaY shiftKey s)
  | ThumbDown clientY =>
      if showScrollbar p d then Some (handleScrollStart clientY s)
      else Some s
  | ThumbMove clientY => handleScrollMove p d clientY s
  | ThumbUp => Some (handleScrollEnd s)
  | HorizontalThumbDown clientX =>
      if Widths.showHorizontalScrollbar context p d s
      then Some (handleHorizontalScrollStart clientX s)
      else Some s
  | HorizontalThumbMove clientX =>
      handleHorizontalScrollMove context p d clientX s
  | HorizontalThumbUp => Some (handleHorizontalScrollEnd s)
  end.

(** The events of a list, one after the other. *)
Fixpoint run (context : Context) (p : Props) (d : Dom) (events : list Event)
    (s : Comp) : option Comp :=
  match events with
  | [] => Some s
  | e :: rest =>
      match dispatch context p d e s with
      | Some s' => run context p d rest s'
      | None => None
      end
  end.

(** Whether an event received in state [s] writes [scrollLeft]. *)
Definition writesScrollLeft (context : Context) (p : Props) (d : Dom)
    (e : Event) (s : Comp) : bool :=
  match e with
  | Wheel deltaX deltaY shiftKey =>
      shiftKey
      || (Num.truthy deltaX
          && Num.gtb (Widths.totalWidth context p d s) (containerWidth s))
  | HorizontalThumbMove _ =>
      isDraggingHorizontalScroll s
      && Num.gtb (Widths.totalWidth context p d s - containerWidth s) 0
  | _ => false
  end.

(** The ranges of the two offsets. *)
Definition topInRange (p : Props) (d : Dom) (s : Comp) : Prop :=
  0 <= scrollTop s <= Qmax 0 (contentHeight p - containerHeight p d).

Definition leftInRange (context : Context) (p : Props) (d : Dom)
    (s : Comp) : Prop :=
  0 <= scrollLeft s
       <= Qmax 0 (Widths.totalWidth context p d s - containerWidth s).

(** What the wheel and scrollbar events preserve: the vertical offset is
    in range, the horizontal one is not negative, and a vertical thumb
    drag is in progress only if the thumb exists. *)
Definition settled (p : Props) (d : Dom) (s : Comp) : Prop :=
  topInRange p d s
  /\ 0 <= scrollLeft s
  /\ (isDraggingScroll s = true -> showScrollbar p d = true).

End Scroll.

(** ** Hit-testing *)

Module Hit.

(** A call returns, or fails with a [TypeError]. *)
Inductive result (A : Type) : Type :=
| Ok (a : A)
| TypeError.
Arguments Ok {A} a.
Arguments TypeError {A}.

(** The object [getCellFromPoint] returns; [None] in a field is
    [undefined]. *)
Record Cell : Type := mkCell {
  rowIndex : Z;
  columnIndex : nat;
  value : option Value;
  row : option Row;
  column : option Column
}.

(** The column loop of [getCellFromPoint], from index [i] with [count]
    columns to go.  [columnIndex] keeps its initial [0] when no column
    takes the point. *)
Fixpoint columnLoop (widths : gmap nat Q) (x : Q) (count i : nat)
    (currentX : Q) : nat :=
  match count with
  | O => 0%nat
  | S count' =>
      let width := Widths.widthAt widths i in
      if Qle_bool currentX x && Num.ltb x (currentX + width) then i
      else columnLoop widths x count' (S i) (currentX + width)
  end.

(** [getCellFromPoint(x, y)]; [Ok None] is the source's [null].  The
    key of the column is read only for a row that exists
    ([props.data[rowIndex]?.[props.columns[columnIndex].key]]), and reading
    it fails when there is no column.  The row index is the floor of a
    quotient of rationals, for a row height that is not zero. *)
Definition getCellFromPoint (context : Context) (p : Props) (d : Dom)
    (s : Comp) (x y : Q) : result (option Cell) :=
  if Num.ltb y (headerHeight p) then Ok None
  else
    let rowIndex := Qfloor ((y - headerHeight p + scrollTop s) / rowHeight p) in
    let widths := Widths.columnWidths (Some context) p d s in
    let columnIndex := columnLoop widths x (length (columns p)) 0 0 in
    let row := rowAt (data p) rowIndex in
    let column := columns p !! columnIndex in
    match column, row with
    | None, Some _ => TypeError
    | _, _ =>
        Ok (Some {| rowIndex := rowIndex;
                    columnIndex := columnIndex;
                    value := r ← row; c ← column; r !! key c;
                    row := row;
                    column := column |})
    end.

(** The loop of [isNearColumnBorder]: the first column whose right edge
    is within 5 of [x]. *)
Fixpoint borderLoop (widths : gmap nat Q) (x : Q) (count i : nat)
    (currentX : Q) : option nat :=
  match count with
  | O => None
  | S count' =>
      let currentX := currentX + Widths.widthAt widths i in
      if Num.ltb (Qabs (x - currentX)) 5 then Some i
      else borderLoop widths x count' (S i) currentX
  end.

(** [isNearColumnBorder(x, y)]: [Some i] when it answers [true], having
    set [resizingColumn] to [i]. *)
Definition isNearColumnBorder (context : Context) (p : Props) (d : Dom)
    (s : Comp) (x y : Q) : option nat :=
  if Num.gtb y (headerHeight p) then None
  else borderLoop (Widths.columnWidths (Some context) p d s) x
         (length (columns p)) 0 0.

(** The widths of [count] columns from index [i], summed: the distance
    from the left edge of column [i] to the left edge of column
    [i + count]. *)
Fixpoint span (widths : gmap nat Q) (i count : nat) : Q :=
  match count with
  | O => 0
  | S count' => Widths.widthAt widths i + span widths (S i) count'
  end.

(** The sum of the resolved widths of the columns before [columnIndex]. *)
Definition leftEdge (widths : gmap nat Q) (columnIndex : nat) : Q :=
  span widths 0 columnIndex.

(** The row window of [drawRows]: [startIndex <= i < endIndex]. *)
Definition startIndex (p : Props) (s : Comp) : Z :=
  Qfloor (scrollTop s / rowHeight p).

Definition endIndex (p : Props) (d : Dom) (s : Comp) : Z :=
  Z.min (startIndex p s + Qceiling (canvasHeight d / rowHeight p))
        (Z.of_nat (length (data p))).

(** Row [i] is one of the rows [drawRows] paints. *)
Definition rendered (p : Props) (d : Dom) (s : Comp) (i : Z) : bool :=
  (startIndex p s <=? i)%Z && (i <? endIndex p d s)%Z.

End Hit.

(** ** The pointer handlers *)

Module Pointer.

Record MouseEvent : Type := mkMouseEvent {
  offsetX : Q;
  offsetY : Q;
  clientX : Q;
  clientY : Q
}.

(** The payload of a [context-menu] notification. *)
Record Notification : Type := mkNotification {
  cell : Hit.Cell;
  event : MouseEvent
}.

Definition handleMouseDown (context : Context) (p : Props) (d : Dom)
    (e : MouseEvent) (s : Comp) : Comp :=
  match Hit.isNearColumnBorder context p d s (offsetX e) (offsetY e) with
  | Some i => set_resize (Some i) (state_columnWidths s) (offsetX e) true s
  | None =>
      if Num.gtb (offsetY e) (headerHeight p) then
        let rowIndex :=
          Qfloor ((offsetY e - headerHeight p + scrollTop s) / rowHeight p) in
        if (rowIndex <? Z.of_nat (length (data p)))%Z
        then set_selectedRow (Some rowIndex) s
        else set_selectedRow None s
      else s
  end.

(** [state.value.columnWidths[i] || 150]. *)
Definition storedWidth (widths : gmap nat Q) (i : nat) : Q :=
  match widths !! i with
  | Some w => if Num.truthy w then w else 150
  | None => 150
  end.

Definition hide (t : Tooltip) : Tooltip :=
  {| tip_show := false; tip_text := tip_text t;
     tip_x := tip_x t; tip_y := tip_y t |}.

Definition handleMouseMove (context : Context) (p : Props) (d : Dom)
    (e : MouseEvent) (s : Comp) : Hit.result Comp :=
  match isResizing s, resizingColumn s with
  | true, Some resizing =>
      let diff := offsetX e - startX s in
      Hit.Ok (set_resize (resizingColumn s)
                (<[resizing := storedWidth (state_columnWidths s) resizing
                               + diff]> (state_columnWidths s))
                (offsetX e) (isResizing s) s)
  | _, _ =>
      match Hit.getCellFromPoint context p d s (offsetX e) (offsetY e) with
      | Hit.TypeError => Hit.TypeError
      | Hit.Ok None => Hit.Ok (set_hover None (hide (tooltip s)) s)
      | Hit.Ok (Some cell) =>
          let hovered :=
            if (Hit.rowIndex cell <? Z.of_nat (length (data p)))%Z
            then Some (Hit.rowIndex cell) else None in
          if showEllipsis p then
            let text := String_or_empty (Hit.value cell) in
            let textWidth := context text in
            match Widths.columnWidths (Some context) p d s
                  !! Hit.columnIndex cell with
            | Some width =>
                if Num.gtb textWidth (width - 20)
                then Hit.Ok (set_hover hovered
                               {| tip_show := true; tip_text := text;
                                  tip_x := clientX e; tip_y := clientY e |} s)
                else Hit.Ok (set_hover hovered (hide (tooltip s)) s)
            | None =>
                (* [textWidth > undefined - 20] is false *)
                Hit.Ok (set_hover hovered (hide (tooltip s)) s)
            end
          else Hit.Ok (set_hover hovered (hide (tooltip s)) s)
      end
  end.

Definition handleMouseUp (s : Comp) : Comp :=
  set_resize None (state_columnWidths s) (startX s) false s.

(** [handleContextMenu(e)]: the notification it emits, if any. *)
Definition handleContextMenu (context : Context) (p : Props) (d : Dom)
    (e : MouseEvent) (s : Comp) : Hit.result (option Notification) :=
  match Hit.getCellFromPoint context p d s (offsetX e) (offsetY e) with
  | Hit.TypeError => Hit.TypeError
  | Hit.Ok None => Hit.Ok None
  | Hit.Ok (Some cell) => Hit.Ok (Some {| cell := cell; event := e |})
  end.

End Pointer.

(** ** The older variant of the component *)

Module Legacy.

(** The older variant has no width resolver: it draws and hit-tests with
    [state.value.columnWidths[index] || 150].  Its resize branch of
    [handleMouseMove] is the one above. *)
Definition renderedWidth (s : Comp) (index : nat) : Q :=
  Pointer.storedWidth (state_columnWidths s) index.

(** The computed [totalWidth] of the older variant. *)
Definition totalWidth (p : Props) (s : Comp) : Q :=
  foldl (fun sum entry => sum + renderedWidth s (fst entry))
        0 (imap pair (columns p)).

(** The column loop of the older [getCellFromPoint], from index [i] with
    [count] columns to go. *)
Fixpoint columnLoop (s : Comp) (x : Q) (count i : nat) (currentX : Q)
    : nat :=
  match count with
  | O => 0%nat
  | S count' =>
      let width := renderedWidth s i in
      if Qle_bool currentX x && Num.ltb x (currentX + width) then i
      else columnLoop s x count' (S i) (currentX + width)
  end.

(** [getCellFromPoint(x, y)] of the older variant: the one of the current
    variant but for the widths it reads. *)
Definition getCellFromPoint (p : Props) (s : Comp) (x y : Q)
    : Hit.result (option Hit.Cell) :=
  if Num.ltb y (headerHeight p) then Hit.Ok None
  else
    let rowIndex := Qfloor ((y - headerHeight p + scrollTop s) / rowHeight p) in
    let columnIndex := columnLoop s x (length (columns p)) 0 0 in
    let row := rowAt (data p) rowIndex in
    let column := columns p !! columnIndex in
    match column, row with
    | None, Some _ => Hit.TypeError
    | _, _ =>
        Hit.Ok (Some {| Hit.rowIndex := rowIndex;
                        Hit.columnIndex := columnIndex;
                        Hit.value := r ← row; c ← column; r !! key c;
                        Hit.row := row;
                        Hit.column := column |})
    end.

(** The rendered widths of [count] columns from index [i], summed. *)
Fixpoint span (s : Comp) (i count : nat) : Q :=
  match count with
  | O => 0
  | S count' => renderedWidth s i + span s (S i) count'
  end.

(** The sum of the rendered widths of the columns before [columnIndex]. *)
Definition leftEdge (s : Comp) (columnIndex : nat) : Q :=
  span s 0 columnIndex.

End Legacy.

(** ** The pieces of a text *)

(** No two neighbours inside [word] are separated by a boundary. *)
Definition unbroken (word : jsstring) : Prop :=
  forall (i : nat) (c d : jschar),
    word !! i = Some c -> word !! S i = Some d -> Text.boundary c d = false.

(** ** Drawing: the layout of [drawRows], [drawHeaders] and
    [drawHighlightRow] *)

Module Draw.

(** [i * props.rowHeight - scrollTop.value + props.headerHeight]: the top
    edge of row [i], for [drawRows] and for [drawHighlightRow]. *)
Definition rowTop (p : Props) (s : Comp) (i : Z) : Q :=
  inject_Z i * rowHeight p - scrollTop s + headerHeight p.

(** The [x] at which [drawHeaders] strokes the separator of column [i],
    and [drawRows] the right edge of its cells: the running [x] plus the
    width of the column. *)
Fixpoint separator (widths : gmap nat Q) (x : Q) (i : nat) : Q :=
  match i with
  | O => x + Widths.widthAt widths 0
  | S i' => separator widths x i' + Widths.widthAt widths i
  end.

(** [String(row[column.key] ?? '')]: the text of a cell. *)
Definition cellText (column : Column) (row : Row) : jsstring :=
  String_or_empty (row !! key column).

(** The text [drawRows] fills a cell with when [props.showEllipsis]. *)
Definition ellipsisCell (context : Context) (width : Q) (text : jsstring)
    : jsstring :=
  let textWidth := context text in
  if Num.gtb textWidth (width - 20)
  then Text.getEllipsisText context text (width - 20)
  else text.

(** The [y] at which line [index] of the [count] lines of a wrapped cell
    is filled, for a row whose top edge is [y] (the baseline is
    [middle]). *)
Definition lineY (p : Props) (y : Q) (count index : nat) : Q :=
  let totalTextHeight := Num.of_nat count * Text.lineHeight in
  let startY := y + (rowHeight p - totalTextHeight) / 2 in
  startY + Num.of_nat index * Text.lineHeight + Text.lineHeight / 2.

End Draw.

(** ** The scrollbar thumbs *)

Module Bars.

(** The computed [thumbPosition]. *)
Definition thumbPosition (p : Props) (d : Dom) (s : Comp) : Num.jsnum :=
  let containerHeight := containerHeight p d in
  let contentHeight := contentHeight p in
  let maxScroll := contentHeight - containerHeight in
  let scrollableHeight :=
    Num.js_sub containerHeight (Scroll.thumbHeight p d) in
  if Qeq_bool maxScroll 0 then Num.Fin (headerHeight p)
  else Num.js_add (headerHeight p)
         (Num.js_mul scrollableHeight (scrollTop s / maxScroll)).

(** The computed [horizontalThumbPosition]. *)
Definition horizontalThumbPosition (context : Context) (p : Props) (d : Dom)
    (s : Comp) : Q :=
  let totalWidth := Widths.totalWidth context p d s in
  if negb (Num.truthy (containerWidth s)) || negb (Num.truthy totalWidth)
  then 0
  else
    let scrollableWidth :=
      containerWidth s - scrollbarReserve p d
      - Scroll.horizontalThumbWidth context p d s in
    let maxScroll := totalWidth - containerWidth s in
    if Qle_bool maxScroll 0 then 0
    else (scrollLeft s / maxScroll) * scrollableWidth.

End Bars.

(** ** The component as a whole *)

Module Grid.

Definition set_containerWidth (v : Q) (s : Comp) : Comp :=
  mkComp (scrollTop s) (scrollLeft s) v (selectedRow s) (hoveredRow s)
    (resizingColumn s) (state_columnWidths s) (startX s) (isResizing s)
    (isDraggingScroll s) (startDragY s) (startScrollTop s)
    (isDraggingHorizontalScroll s) (startDragX s) (startScrollLeft s)
    (tooltip s).

(** [handleMouseOut]. *)
Definition handleMouseOut (s : Comp) : Comp :=
  set_hover None (Pointer.hide (tooltip s)) s.

(** The callback of the [ResizeObserver], for an entry whose content
    rectangle has the given width. *)
Definition handleResize (p : Props) (width : Q) (s : Comp) : Comp :=
  let s := set_containerWidth width s in
  if existsb (fun col => match fixedWidth col with
                         | Some _ => true
                         | None => false
                         end) (columns p)
  then s
  else set_resize (resizingColumn s) ∅ (startX s) (isResizing s) s.

(** The events the component listens to: those of the canvas, those of
    the two thumbs and of the window while a thumb is dragged, and the
    resize of the container. *)
Inductive Event : Type :=
| Bar (e : Scroll.Event)
| MouseDown (e : Pointer.MouseEvent)
| MouseMove (e : Pointer.MouseEvent)
| MouseUp
| MouseOut
| ContextMenu (e : Pointer.MouseEvent)
| Resize (width : Q).

(** One event.  [None]: the handler throws a [TypeError] or stores NaN in
    a scroll offset, and the model does not follow the component
    further. *)
Definition dispatch (context : Context) (p : Props) (d : Dom)
    (e : Event) (s : Comp) : option Comp :=
  match e with
  | Bar e => Scroll.dispatch context p d e s
  | MouseDown e => Some (Pointer.handleMouseDown context p d e s)
  | MouseMove e =>
      match Pointer.handleMouseMove context p d e s with
      | Hit.Ok s' => Some s'
      | Hit.TypeError => None
      end
  | MouseUp => Some (Pointer.handleMouseUp s)
  | MouseOut => Some (handleMouseOut s)
  | ContextMenu e =>
      match Pointer.handleContextMenu context p d e s with
      | Hit.Ok _ => Some s
      | Hit.TypeError => None
      end
  | Resize width => Some (handleResize p width s)
  end.

Fixpoint run (context : Context) (p : Props) (d : Dom) (events : list Event)
    (s : Comp) : option Comp :=
  match events with
  | [] => Some s
  | e :: rest =>
      match dispatch context p d e s with
      | Some s' => run context p d rest s'
      | None => None
      end
  end.

(** What the events preserve besides [Scroll.settled]: the selection and
    the hover are rows of the data, and a tooltip shows in ellipsis mode
    only. *)
Definition sound (p : Props) (d : Dom) (s : Comp) : Prop :=
  Scroll.settled p d s
  /\ (forall i, selectedRow s = Some i ->
                (0 <= i < Z.of_nat (length (data p)))%Z)
  /\ (forall i, hoveredRow s = Some i ->
                (0 <= i < Z.of_nat (length (data p)))%Z)
  /\ (tip_show (tooltip s) = true -> showEllipsis p = true).

(** The resize bookkeeping: a resize is in progress exactly while a column
    is being resized, and that column and every column with a stored width
    are columns of the table. *)
Definition resizing (p : Props) (s : Comp) : Prop :=
  (isResizing s = true <-> is_Some (resizingColumn s))
  /\ (forall c, resizingColumn s = Some c -> (c < length (columns p))%nat)
  /\ (forall c, is_Some (state_columnWidths s !! c) ->
                (c < length (columns p))%nat).

End Grid.

(** ** [debounce] *)

Module Debounce.

Section Debounce.

(** The arguments of a call of the debounced function, and the [delay]
    [debounce] is given. *)
Variable Args : Type.
Variable delay : Q.

(** The [timer] variable of the closure, the timers of the environment
    that are still to fire (handle to due time and arguments of the
    callback), the next handle [setTimeout] returns, and the calls of
    [fn] so far, each with its time.  A handle is a positive integer, so
    [if (timer)] holds exactly when [timer] is not [null]. *)
Record State : Type := mkState {
  timer : option positive;
  pending : gmap positive (Q * Args);
  nextHandle : positive;
  invoked : list (Q * Args)
}.

Definition initial : State :=
  {| timer := None; pending := ∅; nextHandle := 1%positive; invoked := [] |}.

(** A call of the debounced function at time [now]. *)
Definition call (now : Q) (args : Args) (st : State) : State :=
  let cleared :=
    match timer st with
    | Some handle => delete handle (pending st)
    | None => pending st
    end in
  let handle := nextHandle st in
  {| timer := Some handle;
     pending := <[handle := (now + delay, args)]> cleared;
     nextHandle := Pos.succ handle;
     invoked := invoked st |}.

(** The environment runs the callback of the timer [handle] at time
    [now]; nothing happens unless that timer is set and due. *)
Definition fire (now : Q) (handle : positive) (st : State) : State :=
  match pending st !! handle with
  | Some (due, args) =>
      if Qle_bool due now
      then {| timer := timer st;
              pending := delete handle (pending st);
              nextHandle := nextHandle st;
              invoked := invoked st ++ [(now, args)] |}
      else st
  | None => st
  end.

Inductive Event : Type :=
| Call (now : Q) (args : Args)
| Fire (now : Q) (handle : positive).

Definition step (st : State) (e : Event) : State :=
  match e with
  | Call now args => call now args st
  | Fire now handle => fire now handle st
  end.

Definition run (events : list Event) : State := foldl step initial events.

End Debounce.

Arguments timer {Args} _.
Arguments pending {Args} _.
Arguments nextHandle {Args} _.
Arguments invoked {Args} _.
Arguments initial {Args}.
Arguments call {Args} delay now args st.
Arguments fire {Args} now handle st.
Arguments Call {Args} now args.
Arguments Fire {Args} now handle.
Arguments step {Args} delay st e.
Arguments run {Args} delay events.

End Debounce.

(** ** The demonstration view and the context menu *)

Module View.

(** The refs of the view, and the text last handed to
    [navigator.clipboard.writeText]. *)
Record State : Type := mkState {
  contextMenuVisible : bool;
  contextMenuPosition : Q * Q;
  currentCell : option Hit.Cell;
  clipboard : option jsstring
}.

Definition initial : State :=
  {| contextMenuVisible := false; contextMenuPosition := (0, 0);
     currentCell := None; clipboard := None |}.

(** [handleContextMenu({ cell, event })]. *)
Definition handleContextMenu (n : Pointer.Notification) (v : State) : State :=
  {| contextMenuVisible := true;
     contextMenuPosition :=
       (Pointer.clientX (Pointer.event n), Pointer.clientY (Pointer.event n));
     currentCell := Some (Pointer.cell n);
     clipboard := clipboard v |}.

(** [handleMenuSelect(item)] for an item of the given key: ['copy'] hands
    [currentCell.value.value] to the clipboard, which takes its string
    image; the other keys log. *)
Definition handleMenuSelect (itemKey : string) (v : State)
    : Hit.result State :=
  if String.eqb itemKey "copy" then
    match currentCell v with
    | None => Hit.TypeError
    | Some cell =>
        Hit.Ok {| contextMenuVisible := contextMenuVisible v;
                  contextMenuPosition := contextMenuPosition v;
                  currentCell := currentCell v;
                  clipboard := Some (String_of (Hit.value cell)) |}
    end
  else Hit.Ok v.

End View.

Module Menu.


(** A menu item: its key, and whether it has [children]. *)
Record Item : Type := mkItem {
  itemKey : string;
  hasChildren : bool
}.

(** [menuItemStates] is a map from key to [isOpen].
    [getMenuItemState(key)]: the map after the call, in which the key has
    an entry; the state returned is that entry. *)
Definition getMenuItemState (key : string) (states : gmap string bool)
    : gmap string bool :=
  match states !! key with
  | Some _ => states
  | None => <[key := false]> states
  end.

(** [getMenuItemState(key).isOpen], as the template reads it. *)
Definition isOpen (key : string) (states : gmap string bool) : bool :=
  default false (getMenuItemState key states !! key).

(** [closeAllSubMenus]. *)
Definition closeAllSubMenus (states : gmap string bool)
    : gmap string bool := ∅.

(** [handleMouseEnter(item, event)] for the item at [index] of
    [processedMenuItems]: the other items with children are closed, the
    item is opened. *)
Definition handleMouseEnter (items : list Item) (index : nat)
    (states : gmap string bool) : gmap string bool :=
  match items !! index with
  | None => states
  | Some item =>
      if negb (hasChildren item) then closeAllSubMenus states
      else
        let states :=
          foldl (fun states entry =>
                   let '(other, menuItem) := entry in
                   if negb (other =? index)%nat && hasChildren menuItem
                   then <[itemKey menuItem := false]>
                          (getMenuItemState (itemKey menuItem) states)
                   else states)
                states (imap pair items) in
        <[itemKey item := true]> (getMenuItemState (itemKey item) states)
  end.

(** The template reads [getMenuItemState(item.key).isOpen] for every item
    with children whenever it renders. *)
Definition render (items : list Item) (states : gmap string bool)
    : gmap string bool :=
  foldl (fun states item =>
           if hasChildren item then getMenuItemState (itemKey item) states
           else states)
        states items.

(** The submenu of the item at [index] emits [update:visible] with
    [false], which [v-model:visible] assigns to
    [getMenuItemState(item.key).isOpen]. *)
Definition childClosed (items : list Item) (index : nat)
    (states : gmap string bool) : gmap string bool :=
  match items !! index with
  | Some item =>
      if hasChildren item
      then <[itemKey item := false]> (getMenuItemState (itemKey item) states)
      else states
  | None => states
  end.

(** What happens to [menuItemStates]: the pointer enters an item, the
    template renders, the menu closes ([closeMenu], after a click on an
    item without children or outside the menu), a submenu closes. *)
Inductive Event : Type :=
| MouseEnter (index : nat)
| Rendered
| Closed
| ChildClosed (index : nat).

Definition step (items : list Item) (states : gmap string bool)
    (e : Event) : gmap string bool :=
  match e with
  | MouseEnter index => handleMouseEnter items index states
  | Rendered => render items states
  | Closed => closeAllSubMenus states
  | ChildClosed index => childClosed items index states
  end.

Definition run (items : list Item) (events : list Event)
    : gmap string bool :=
  foldl (step items) ∅ events.

End Menu.
(** ** The wrap loop of the older variant *)

Module LegacyText.

(** [remainingText[i] === ' ']. *)
Definition isBlank (remainingText : jsstring) (i : nat) : bool :=
  match remainingText !! i with
  | Some c => (c =? 32)%N
  | None => false
  end.

(** The [for (let i = 0; i < remainingText.length; i++)] loop from index
    [i] on, with [todo] indices left; the result is
    [(lineText, remainingText)] at its exit. *)
Fixpoint scan (context : Context) (maxWidth : Q) (remainingText : jsstring)
    (todo i : nat) (lastSpaceIndex : option nat) : jsstring * jsstring :=
  match todo with
  | O => ([], remainingText)
  | S todo' =>
      let testText := substring0 (i + 1) remainingText in
      let testWidth := context testText in
      let lastSpaceIndex :=
        if isBlank remainingText i then Some i else lastSpaceIndex in
      if Num.gtb testWidth maxWidth then
        match lastSpaceIndex with
        | Some lastSpaceIndex =>
            if (1 <? length testText)%nat
            then (substring0 lastSpaceIndex remainingText,
                  drop (lastSpaceIndex + 1) remainingText)
            else (substring0 i remainingText, drop i remainingText)
        | None => (substring0 i remainingText, drop i remainingText)
        end
      else if (i =? length remainingText - 1)%nat then (remainingText, [])
      else scan context maxWidth remainingText todo' (S i) lastSpaceIndex
  end.

Definition nextLine (context : Context) (maxWidth : Q)
    (remainingText : jsstring) : jsstring * jsstring :=
  scan context maxWidth remainingText (length remainingText) 0 None.

(** The [while (remainingText.length > 0 && currentY < ...)] loop;
    [bottom] is [y + props.rowHeight - padding] and [drawn] the calls of
    [fillText] so far, each with its text and its [y].  [fuel] bounds the
    iterations, [trimFuel] the tests of the trim loop. *)
Fixpoint wrapLoop (fuel trimFuel : nat) (context : Context)
    (maxWidth bottom : Q) (remainingText : jsstring) (currentY : Q)
    (drawn : list (jsstring * Q)) : option (list (jsstring * Q)) :=
  match fuel with
  | O => None
  | S fuel' =>
      if nonempty remainingText && Num.ltb currentY bottom then
        let '(lineText, remainingText) :=
          nextLine context maxWidth remainingText in
        let drawn := drawn ++ [(lineText, currentY)] in
        let currentY := currentY + 20 in
        if nonempty remainingText && Num.leb bottom currentY then
          match Text.trim trimFuel context maxWidth lineText with
          | Some lastLine =>
              Some (drawn ++ [(lastLine ++ ellipsis, currentY - 20)])
          | None => None
          end
        else wrapLoop fuel' trimFuel context maxWidth bottom remainingText
               currentY drawn
      else Some drawn
  end.

(** The calls of [fillText] for one cell of width [width] whose top edge
    is [y], in wrap mode. *)
Definition wrapCell (fuel : nat) (context : Context) (rowHeight y : Q)
    (width : Q) (text : jsstring) : option (list (jsstring * Q)) :=
  let padding := 10 in
  let maxWidth := width - padding * 2 in
  wrapLoop fuel fuel context maxWidth (y + rowHeight - padding) text
    (y + padding) [].

(** [currentY] at the start of iteration [k]. *)
Fixpoint lineY (y : Q) (k : nat) : Q :=
  match k with
  | O => y + 10
  | S k' => lineY y k' + 20
  end.

(** The lines of the loop, each at the [currentY] of its iteration. *)
Definition numbered (y : Q) (lines : list jsstring) : list (jsstring * Q) :=
  imap (fun k line => (line, lineY y k)) lines.

(** [remainingText] at the start of iteration [k], and [lineText] at its
    end, when the loop gets that far. *)
Fixpoint remaining (context : Context) (maxWidth : Q) (text : jsstring)
    (k : nat) : jsstring :=
  match k with
  | O => text
  | S k' => snd (nextLine context maxWidth (remaining context maxWidth text k'))
  end.

Definition lineAt (context : Context) (maxWidth : Q) (text : jsstring)
    (k : nat) : jsstring :=
  fst (nextLine context maxWidth (remaining context maxWidth text k)).

End LegacyText.

(** Every entry is for an item with children, and at most one is open. *)
Definition tidy (items : list Menu.Item) (states : gmap string bool) : Prop :=
  (forall key, is_Some (states !! key) ->
     exists item, item ∈ items /\ Menu.hasChildren item = true
                  /\ Menu.itemKey item = key)
  /\ forall key key', states !! key = Some true ->
       states !! key' = Some true -> key = key'.

(** ** Fixtures *)

(** A monospace font: every code unit is 10 wide. *)
Definition monospace : Context := fun s => 10 * Num.of_nat (length s).

(** The table of the demonstration view: three fixed columns and a
    flexible one, rows of height 80. *)
Definition addressColumn : Column :=
  {| key := "address"; title := [22320; 22336]%N; width := None |}.

Definition demoColumns : list Column :=
  [ {| key := "id"; title := js "ID"; width := Some 100 |};
    {| key := "name"; title := [22995; 21517]%N; width := Some 150 |};
    {| key := "age"; title := [24180; 40836]%N; width := Some 100 |};
    addressColumn ].

Definition demoRow (id name age address : string) : Row :=
  {[ "id" := Str (js id); "name" := Str (js name);
     "age" := Str (js age); "address" := Str (js address) ]}.

Definition demo : Props :=
  {| data := [ demoRow "1" "user 1" "31" "ABCDEFGHIJKLMNOPQRSTUVWXYZ1";
               demoRow "2" "user 2" "47" "ABCDEFGHIJKLMNOPQRSTUVWXYZ2" ];
     columns := demoColumns;
     headerHeight := 40;
     rowHeight := 80;
     showEllipsis := false |}.

Definition demoDom : Dom := {| clientHeight := 600; canvasHeight := 600 |}.

(** One flexible column over three rows of which only the first is wide;
    the container shows one row below the header. *)
Definition narrowColumn : Column :=
  {| key := "a"; title := []; width := None |}.

Definition narrow : Props :=
  {| data := [ {[ "a" := Str (repeat 120%N 100) ]};
               {[ "a" := Str (js "x") ]};
               {[ "a" := Str (js "y") ]} ];
     columns := [narrowColumn];
     headerHeight := 40;
     rowHeight := 30;
     showEllipsis := false |}.

Definition narrowDom : Dom := {| clientHeight := 70; canvasHeight := 70 |}.

Definition gridDom : Dom := {| clientHeight := 400; canvasHeight := 400 |}.

(** Fixed columns only, over two rows. *)
Definition fixedColumn (name : string) (w : Q) : Column :=
  {| key := name; title := js name; width := Some w |}.

Definition fixedGrid (cols : list Column) (height : Q) : Props :=
  {| data := [ {[ "a" := Str (js "x") ]}; {[ "a" := Str (js "y") ]} ];
     columns := cols;
     headerHeight := 40;
     rowHeight := height;
     showEllipsis := false |}.

(** Two fixed columns of width 100 over rows of height 30. *)
Definition twoColumns : Props :=
  fixedGrid [fixedColumn "a" 100; fixedColumn "b" 100] 30.

(** A column declared with the width 0 beside one of width 100. *)
Definition zeroWidth : Props :=
  fixedGrid [fixedColumn "a" 0; fixedColumn "b" 100] 30.

(** A container whose body shows two of the three rows of the narrow
    table. *)
Definition shortDom : Dom := {| clientHeight := 100; canvasHeight := 100 |}.

(** A pointer event at the same offset in the canvas and in the page. *)
Definition pointerAt (x y : Q) : Pointer.MouseEvent :=
  {| Pointer.offsetX := x; Pointer.offsetY := y;
     Pointer.clientX := x; Pointer.clientY := y |}.

(** The two fixed columns in ellipsis mode, the first row with a text of
    twenty code units in the first column. *)
Definition ellipsisGrid : Props :=
  {| data := [ {[ "a" := Str (js "abcdefghijklmnopqrst") ]};
               {[ "a" := Str (js "y") ]} ];
     columns := [fixedColumn "a" 100; fixedColumn "b" 100];
     headerHeight := 40;
     rowHeight := 30;
     showEllipsis := true |}.

(** * Properties *)

(** ** Comparisons, floors and the clamp *)

Lemma gtb_true (x y : Q) : Num.gtb x y = true <-> y < x.
Proof.
  unfold Num.gtb, Num.ltb. rewrite negb_true_iff.
  split.
  - intros H. apply Qnot_le_lt. intros Hle.
    apply Qle_bool_iff in Hle. congruence.
  - intros H. destruct (Qle_bool x y) eqn:E; [|reflexivity].
    apply Qle_bool_iff in E. lra.
Qed.

Lemma gtb_false (x y : Q) : Num.gtb x y = false <-> x <= y.
Proof.
  unfold Num.gtb, Num.ltb. rewrite negb_false_iff. apply Qle_bool_iff.
Qed.

Lemma ltb_true (x y : Q) : Num.ltb x y = true <-> x < y.
Proof. apply (gtb_true y x). Qed.

Lemma ltb_false (x y : Q) : Num.ltb x y = false <-> y <= x.
Proof. apply (gtb_false y x). Qed.

Lemma Qeq_bool_false (x y : Q) : Qeq_bool x y = false <-> ~ x == y.
Proof.
  split.
  - intros H E. apply Qeq_bool_iff in E. congruence.
  - intros H. destruct (Qeq_bool x y) eqn:E; [|reflexivity].
    apply Qeq_bool_iff in E. contradiction.
Qed.

Lemma Qfloor_between (q : Q) (z : Z) :
  inject_Z z <= q -> q < inject_Z (z + 1) -> Qfloor q = z.
Proof.
  intros Hlo Hhi.
  pose proof (Qfloor_le q) as Hfl. pose proof (Qlt_floor q) as Hfu.
  assert (inject_Z z < inject_Z (Qfloor q + 1)) as H1 by lra.
  assert (inject_Z (Qfloor q) < inject_Z (z + 1)) as H2 by lra.
  rewrite <- Zlt_Qlt in H1, H2. lia.
Qed.

Lemma of_nat_lt_succ (n : nat) (m : Z) :
  Num.of_nat n < inject_Z m -> Num.of_nat (S n) <= inject_Z m.
Proof.
  unfold Num.of_nat. rewrite <- Zlt_Qlt, <- Zle_Qle. lia.
Qed.

Lemma clamp_range (x maxScroll : Q) :
  0 <= Qmax 0 (Qmin x maxScroll) <= Qmax 0 maxScroll.
Proof.
  split; [apply Q.le_max_l|].
  apply Q.max_le_compat_l, Q.le_min_r.
Qed.

Lemma js_clamp_range (n : Num.jsnum) (maxScroll v : Q) :
  Num.clamp n maxScroll = Some v -> 0 <= v <= Qmax 0 maxScroll.
Proof.
  destruct n; simpl; intros [= <-].
  - apply clamp_range.
  - split; [apply Q.le_max_l | apply Qle_refl].
  - split; [apply Qle_refl | apply Q.le_max_l].
Qed.

(** ** Ellipsis truncation *)

(** The search keeps a fitting prefix length in [lft] and only discards
    lengths that do not fit; it ends on the longest fitting length. *)
Lemma search_spec (measure : Context) (text : jsstring) (maxWidth : Q)
    (lft rgt : nat) :
  monotonic measure ->
  (lft <= rgt)%nat ->
  Text.fits measure text maxWidth lft ->
  (forall j, (rgt < j)%nat -> (j <= length text)%nat ->
             ~ Text.fits measure text maxWidth j) ->
  let k := Text.search measure text maxWidth lft rgt in
  (lft <= k <= rgt)%nat
  /\ Text.fits measure text maxWidth k
  /\ forall j, Text.fits measure text maxWidth j ->
               (j <= length text)%nat -> (j <= k)%nat.
Proof.
  intros Hmono. funelim (Text.search measure text maxWidth lft rgt).
  - intros Hle Hfit Hout. clear Heqcall Heq.
    set (mid := ((lft + rgt + 1) / 2)%nat) in *.
    assert (Hlo : (lft < mid)%nat)
      by (apply Nat.div_le_lower_bound; lia).
    assert (Hhi : (mid <= rgt)%nat)
      by (apply Nat.Div0.div_le_upper_bound; lia).
    destruct (Qle_bool (measure (substring0 mid text ++ ellipsis)) maxWidth)
      eqn:Htest.
    + apply Qle_bool_iff in Htest.
      destruct (H Hmono Hhi Htest Hout) as (Hk & Hfk & Hmax).
      split; [lia | split; assumption].
    + assert (Hnot : ~ Text.fits measure text maxWidth mid).
      { unfold Text.fits. rewrite <- Qle_bool_iff, Htest. discriminate. }
      assert (Hout' : forall j, (mid - 1 < j)%nat ->
                                (j <= length text)%nat ->
                                ~ Text.fits measure text maxWidth j).
      { intros j Hj _ Hfj. apply Hnot. unfold Text.fits in *.
        eapply Qle_trans; [|exact Hfj].
        apply Hmono. lia. }
      destruct (H0 Hmono ltac:(lia) Hfit Hout') as (Hk & Hfk & Hmax).
      split; [lia | split; assumption].
  - intros Hle Hfit Hout. split; [lia|]. split; [assumption|].
    intros j Hj Hlen. destruct (le_gt_dec j lft) as [|Hgt]; [assumption|].
    exfalso. apply (Hout j); [lia | assumption | assumption].
Qed.

Lemma monospace_monotonic : monotonic monospace.
Proof.
  intros text j k Hjk. unfold monospace, Num.of_nat, substring0.
  rewrite !length_app, !length_take.
  apply Qmult_le_l; [reflexivity|].
  rewrite <- Zle_Qle. lia.
Qed.

(** C3.  For a context with monotonic widths and a [maxWidth] of at least
    the width of ["..."], [getEllipsisText] returns a text that fits
    unchanged; otherwise it returns a prefix of the text followed by
    ["..."] that fits, and no longer prefix of the text fits with the
    ellipsis appended; truncating its result again changes nothing. *)
Theorem getEllipsisText_truncates (measure : Context) (text : jsstring)
    (maxWidth : Q) :
  monotonic measure ->
  measure ellipsis <= maxWidth ->
  let result := Text.getEllipsisText measure text maxWidth in
  (measure text <= maxWidth -> result = text)
  /\ (~ measure text <= maxWidth ->
      exists k : nat,
        (k <= length text)%nat
        /\ result = substring0 k text ++ ellipsis
        /\ measure result <= maxWidth
        /\ forall j : nat,
             (j <= length text)%nat ->
             measure (substring0 j text ++ ellipsis) <= maxWidth ->
             (j <= k)%nat)
  /\ Text.getEllipsisText measure result maxWidth = result.
Proof.
  intros Hmono Hell result.
  assert (Hfit : forall t, measure t <= maxWidth ->
                           Text.getEllipsisText measure t maxWidth = t).
  { intros t H. unfold Text.getEllipsisText.
    apply Qle_bool_iff in H. rewrite H. reflexivity. }
  assert (Hcut : ~ measure text <= maxWidth ->
      exists k : nat,
        (k <= length text)%nat
        /\ result = substring0 k text ++ ellipsis
        /\ measure result <= maxWidth
        /\ forall j : nat,
             (j <= length text)%nat ->
             measure (substring0 j text ++ ellipsis) <= maxWidth ->
             (j <= k)%nat).
  { intros Hwide. unfold result, Text.getEllipsisText.
    destruct (Qle_bool (measure text) maxWidth) eqn:Htest.
    { apply Qle_bool_iff in Htest. contradiction. }
    destruct (search_spec measure text maxWidth 0 (length text) Hmono)
      as (Hk & Hfk & Hmax).
    - lia.
    - exact Hell.
    - intros j Hj Hlen. lia.
    - exists (Text.search measure text maxWidth 0 (length text)).
      split; [lia|]. split; [reflexivity|]. split; [exact Hfk|].
      intros j Hlen Hj. apply Hmax; assumption. }
  split; [apply Hfit|]. split; [exact Hcut|].
  apply Hfit.
  destruct (Qlt_le_dec maxWidth (measure text)) as [Hwide|Hok].
  - destruct Hcut as (k & _ & _ & Hres & _); [lra | exact Hres].
  - unfold result. rewrite (Hfit text Hok). exact Hok.
Qed.

(** Ten code units cut to four and the ellipsis in a width of 70. *)
Lemma getEllipsisText_truncates_witness :
  monotonic monospace
  /\ monospace ellipsis <= 70
  /\ Text.getEllipsisText monospace (js "abcdefghij") 70 = js "abcd..."
  /\ Text.getEllipsisText monospace (js "abcd...") 70 = js "abcd...".
Proof.
  assert (Hell : monospace ellipsis <= 70) by (vm_compute; discriminate).
  pose proof (getEllipsisText_truncates monospace (js "abcdefghij") 70
                monospace_monotonic Hell) as H.
  assert (E : Text.getEllipsisText monospace (js "abcdefghij") 70
              = js "abcd...") by (vm_compute; reflexivity).
  cbv zeta in H. rewrite E in H.
  split; [exact monospace_monotonic|]. split; [exact Hell|].
  split; [exact E|]. apply H.
Defined.

(** ** Wrapping *)

(** The trim loop leaves when some prefix fits with the ellipsis, which the
    empty prefix does as soon as the ellipsis alone fits. *)
Lemma trim_exits (context : Context) (maxWidth : Q) (line : jsstring) :
  context ellipsis <= maxWidth ->
  exists kept : jsstring,
    Text.trim (S (length line)) context maxWidth line = Some kept
    /\ kept `prefix_of` line
    /\ context (kept ++ ellipsis) <= maxWidth.
Proof.
  intros Hell.
  remember (length line) as n eqn:Hn. revert line Hn.
  induction n as [|n IH]; intros line Hn.
  - destruct line; [|discriminate]. simpl.
    change ([] ++ ellipsis) with ellipsis.
    apply gtb_false in Hell. rewrite Hell.
    exists []. split; [reflexivity|]. split; [reflexivity|].
    apply gtb_false. exact Hell.
  - cbn [Text.trim].
    destruct (Num.gtb (context (line ++ ellipsis)) maxWidth) eqn:Htest.
    + destruct (IH (slice_init line)) as (kept & Hk & Hpre & Hfit).
      { unfold slice_init. rewrite length_take. lia. }
      exists kept. split; [exact Hk|]. split; [|exact Hfit].
      etransitivity; [exact Hpre|]. unfold slice_init.
      apply prefix_take.
    + exists line. split; [reflexivity|]. split; [reflexivity|].
      apply gtb_false. exact Htest.
Qed.

(** With a monotonic context the loop never leaves when even the bare
    ellipsis is too wide. *)
Lemma trim_spins (context : Context) (maxWidth : Q) :
  monotonic context ->
  maxWidth < context ellipsis ->
  forall (fuel : nat) (line : jsstring),
    Text.trim fuel context maxWidth line = None.
Proof.
  intros Hmono Hwide fuel.
  induction fuel as [|fuel IH]; intros line; [reflexivity|].
  cbn [Text.trim].
  assert (Htest : Num.gtb (context (line ++ ellipsis)) maxWidth = true).
  { apply gtb_true. eapply Qlt_le_trans; [exact Hwide|].
    pose proof (Hmono line 0%nat (length line) ltac:(lia)) as H.
    unfold substring0 in H. rewrite firstn_all in H. exact H. }
  rewrite Htest. apply IH.
Qed.

(** C10.  The trim loop does not terminate when the ellipsis alone is wider
    than [maxWidth]: in a column of width 20 ([maxWidth] 0) it is still
    running after any number of steps, on the line it is entered with and
    so in the cell ["a b c"] whose second piece reaches it; the empty line
    is sliced to itself for ever and ["..."] is never appended. *)
Theorem trim_loop_hangs :
  forall fuel : nat,
    Text.trim fuel monospace (20 - Text.padding * 2) (js " ") = None
    /\ Text.wrapCell fuel monospace 30 20 (js "a b c") = None.
Proof.
  intros fuel.
  assert (Hspin : forall line,
             Text.trim fuel monospace (20 - Text.padding * 2) line = None).
  { apply trim_spins; [apply monospace_monotonic | reflexivity]. }
  split; [apply Hspin|].
  unfold Text.wrapCell.
  change (Text.split (js "a b c"))
    with [js "a"; js " "; js "b"; js " "; js "c"].
  cbn [Text.wrapLoop].
  change (Num.gtb (monospace ([] ++ js "a")) (20 - Text.padding * 2)
          && nonempty []) with false. cbv iota.
  change (Num.gtb (monospace (([] ++ js "a") ++ js " "))
                  (20 - Text.padding * 2)
          && nonempty ([] ++ js "a")) with true. cbv iota.
  change (Num.leb (Text.maxLines 30)
            (Num.of_nat (length ([] ++ [[] ++ js "a"])))) with true.
  cbv iota.
  change ((Text.indexOf (js " ") [js "a"; js " "; js "b"; js " "; js "c"] + 1
           <? length [js "a"; js " "; js "b"; js " "; js "c"])%nat) with true.
  cbv iota. rewrite Hspin. reflexivity.
Qed.

(** The loop never collects more than [maxLines] lines, one line when
    [maxLines] is below one. *)
Lemma wrapLoop_line_count (fuel : nat) (context : Context) (maxWidth : Q)
    (m : Z) (words todo lines lines' : list jsstring)
    (currentLine currentLine' : jsstring) :
  lines = [] \/ Num.of_nat (length lines) < inject_Z m ->
  Text.wrapLoop fuel context maxWidth (inject_Z m) words todo lines
    currentLine = Some (lines', currentLine') ->
  Num.of_nat (length lines') <= Qmax 1 (inject_Z m).
Proof.
  revert lines currentLine.
  induction todo as [|word todo IH]; intros lines currentLine Hpre Hloop.
  - simpl in Hloop. injection Hloop as <- <-.
    destruct Hpre as [->|Hlt].
    + simpl. eapply Qle_trans; [|apply Q.le_max_l]. discriminate.
    + eapply Qle_trans; [|apply Q.le_max_r]. lra.
  - cbn [Text.wrapLoop] in Hloop.
    destruct (Num.gtb (context (currentLine ++ word)) maxWidth
              && nonempty currentLine); [|apply (IH _ _ Hpre Hloop)].
    destruct (Num.leb (inject_Z m)
                (Num.of_nat (length (lines ++ [currentLine])))) eqn:Hfull.
    + assert (Hcount : Num.of_nat (length (lines ++ [currentLine]))
                       <= Qmax 1 (inject_Z m)).
      { rewrite length_app. simpl. rewrite Nat.add_1_r.
        destruct Hpre as [->|Hlt].
        - simpl. apply Q.le_max_l.
        - eapply Qle_trans; [|apply Q.le_max_r].
          apply of_nat_lt_succ. exact Hlt. }
      destruct (_ <? _)%nat.
      * destruct (Text.trim fuel context maxWidth word); [|discriminate].
        injection Hloop as <- <-. exact Hcount.
      * injection Hloop as <- <-. exact Hcount.
    + apply (IH _ _ ltac:(right; apply ltb_true; unfold Num.ltb, Num.leb in *;
                          rewrite Hfull; reflexivity) Hloop).
Qed.

(** The lines of a cell number at most [maxLines], or one when [maxLines]
    is below one. *)
Lemma wrapCell_line_count (fuel : nat) (context : Context)
    (rowHeight width : Q) (text : jsstring) (lines : list jsstring) :
  Text.wrapCell fuel context rowHeight width text = Some lines ->
  Num.of_nat (length lines) <= Qmax 1 (Text.maxLines rowHeight).
Proof.
  unfold Text.wrapCell, Text.maxLines, Num.floor.
  set (m := Qfloor ((rowHeight - Text.padding * 2) / Text.lineHeight)).
  destruct (Text.wrapLoop _ _ _ _ _ _ _ _) as [[ls cur]|] eqn:Hloop;
    [|discriminate].
  pose proof (wrapLoop_line_count _ _ _ _ _ _ _ _ _ _
                (or_introl eq_refl) Hloop) as Hcount.
  destruct (nonempty cur && Num.ltb (Num.of_nat (length ls)) (inject_Z m))
    eqn:Hpush; intros [= <-]; [|exact Hcount].
  apply andb_true_iff in Hpush as [_ Hlt]. apply ltb_true in Hlt.
  rewrite length_app. simpl. rewrite Nat.add_1_r.
  eapply Qle_trans; [|apply Q.le_max_r].
  apply of_nat_lt_succ. exact Hlt.
Qed.

(** C4.  A text of five lines in a cell with room for two
    ([rowHeight] 60): the loop leaves with two lines collected and the
    third cut to ["cc..."], and the final test [lines.length < maxLines]
    then drops that line; the two lines drawn are the first two, and the
    last of them does not end with ["..."].  With the default [rowHeight]
    30, [maxLines] is 0: one line of the same text is drawn, and none of a
    text that fits the width. *)
Theorem wrapCell_drops_the_ellipsis_line :
  let text := js "aaaa bbbb cccc dddd eeee" in
  Text.maxLines 60 == 2
  /\ Text.wrapCell 100 monospace 6000 70 text
     = Some [js "aaaa "; js "bbbb "; js "cccc "; js "dddd "; js "eeee"]
  /\ Text.wrapLoop 100 monospace (70 - Text.padding * 2) (Text.maxLines 60)
       (Text.split text) (Text.split text) [] []
     = Some ([js "aaaa "; js "bbbb "], js "cc...")
  /\ Text.wrapCell 100 monospace 60 70 text = Some [js "aaaa "; js "bbbb "]
  /\ Text.endsWithEllipsis (js "bbbb ") = false
  /\ Text.maxLines 30 == 0
  /\ Text.wrapCell 100 monospace 30 70 text = Some [js "aaaa "]
  /\ Text.wrapCell 100 monospace 30 70 (js "aaaa") = Some [].
Proof.
  cbv zeta. repeat split; vm_compute; reflexivity.
Qed.

(** ** The column width resolver *)

Section Resolver.

Variables (p : Props) (d : Dom) (s : Comp) (context : Context).

Lemma flexFrom_bounds k cols i :
  i ∈ Widths.flexFrom k cols -> (k <= i < k + length cols)%nat.
Proof.
  revert k. induction cols as [|c cols IH]; intros k; simpl.
  - intros H. inversion H.
  - destruct (Widths.isFlexible c).
    + rewrite elem_of_cons. intros [->|H]; [lia|].
      apply IH in H. lia.
    + intros H. apply IH in H. lia.
Qed.

Lemma flexFrom_NoDup k cols : NoDup (Widths.flexFrom k cols).
Proof.
  revert k. induction cols as [|c cols IH]; intros k; simpl.
  - constructor.
  - destruct (Widths.isFlexible c); [|apply IH].
    constructor; [|apply IH].
    intros H. apply flexFrom_bounds in H. lia.
Qed.

Lemma flexFrom_elem k cols i column :
  cols !! i = Some column ->
  (k + i)%nat ∈ Widths.flexFrom k cols <-> Widths.isFlexible column = true.
Proof.
  revert k i. induction cols as [|c cols IH]; intros k i; simpl.
  - intros H. inversion H.
  - destruct i as [|i]; simpl.
    + intros [= ->]. rewrite Nat.add_0_r.
      destruct (Widths.isFlexible column) eqn:E.
      * split; [reflexivity|]. intros _. left.
      * split; [|discriminate]. intros H. apply flexFrom_bounds in H. lia.
    + intros Hi. replace (k + S i)%nat with (S k + i)%nat by lia.
      rewrite <- (IH (S k) i Hi).
      destruct (Widths.isFlexible c); [|reflexivity].
      rewrite elem_of_cons. split; [intros [?|?]; [lia|assumption]|].
      intros H. right. exact H.
Qed.

Lemma flexFrom_length k cols :
  length (Widths.flexFrom k cols)
  = length (filter (fun column => Widths.isFlexible column = true) cols).
Proof.
  revert k. induction cols as [|c cols IH]; intros k; simpl; [reflexivity|].
  rewrite filter_cons.
  destruct (Widths.isFlexible c) eqn:E; simpl.
  - destruct (decide (true = true)); [|congruence]. simpl. f_equal. apply IH.
  - destruct (decide (false = true)); [congruence|]. apply IH.
Qed.

(** The first pass, started from any accumulator and any index. *)
Lemma reserve_fold (cols : list Column) (k : nat) (acc : Widths.Pass) :
  let pass := foldl (Widths.reserve p d s context) acc
                    (imap (fun i c => ((k + i)%nat, c)) cols) in
  (forall i, Widths.widths pass !! i
             = if decide (k <= i < k + length cols)%nat
               then Widths.reserved p d s context <$> cols !! (i - k)%nat
               else Widths.widths acc !! i)
  /\ Widths.totalFixedWidth pass
     = foldl (fun sum column => sum + Widths.reserved p d s context column)
             (Widths.totalFixedWidth acc) cols
  /\ Widths.flexColumns pass
     = Widths.flexColumns acc ++ Widths.flexFrom k cols.
Proof.
  revert k acc. induction cols as [|c cols IH]; intros k acc.
  - simpl. split; [|split; [reflexivity | rewrite app_nil_r; reflexivity]].
    intros i. destruct (decide _); [lia | reflexivity].
  - cbn [imap foldl length Widths.flexFrom]. cbv zeta. rewrite Nat.add_0_r.
    assert (Himap : imap ((fun i c0 => ((k + i)%nat, c0)) ∘ S) cols
                    = imap (fun i c0 => ((S k + i)%nat, c0)) cols).
    { apply imap_ext. intros i x _. simpl. f_equal. lia. }
    rewrite Himap.
    set (acc' := Widths.reserve p d s context acc (k, c)).
    destruct (IH (S k) acc') as (Hw & Ht & Hf).
    set (w := Widths.reserved p d s context c).
    assert (Hacc' :
      Widths.widths acc' = <[k := w]> (Widths.widths acc)
      /\ Widths.totalFixedWidth acc' = Widths.totalFixedWidth acc + w
      /\ Widths.flexColumns acc'
         = Widths.flexColumns acc
           ++ (if Widths.isFlexible c then [k] else [])).
    { unfold acc', w, Widths.reserve, Widths.reserved, Widths.isFlexible.
      destruct (fixedWidth c); simpl; [rewrite app_nil_r|]; auto. }
    destruct Hacc' as (Ew & Et & Ef).
    split; [|split].
    + intros i. rewrite Hw, Ew.
      destruct (decide (S k <= i < S k + length cols)%nat) as [Hin|Hout].
      * destruct (decide (k <= i < k + S (length cols))%nat); [|lia].
        replace (i - k)%nat with (S (i - S k)) by lia. reflexivity.
      * destruct (decide (k <= i < k + S (length cols))%nat) as [Hin'|Hout'].
        -- assert (i = k) as -> by lia. rewrite lookup_insert_eq.
           rewrite Nat.sub_diag. reflexivity.
        -- rewrite lookup_insert_ne by lia. reflexivity.
    + rewrite Ht, Et. reflexivity.
    + rewrite Hf, Ef, <- app_assoc. f_equal.
      destruct (Widths.isFlexible c); reflexivity.
Qed.

Lemma firstPass_spec :
  let pass := Widths.firstPass p d s context in
  (forall i, Widths.widths pass !! i
             = Widths.reserved p d s context <$> columns p !! i)
  /\ Widths.totalFixedWidth pass = Widths.reservedSum p d s context
  /\ Widths.flexColumns pass = Widths.flexFrom 0 (columns p).
Proof.
  destruct (reserve_fold (columns p) 0
              {| Widths.widths := ∅; Widths.totalFixedWidth := 0;
                 Widths.flexColumns := [] |}) as (Hw & Ht & Hf).
  simpl in *. unfold Widths.firstPass.
  assert (Himap : imap pair (columns p)
                  = imap (fun i c => ((0 + i)%nat, c)) (columns p)).
  { apply imap_ext. intros; reflexivity. }
  rewrite Himap. split; [|split; assumption].
  intros i. rewrite Hw.
  destruct (decide _) as [Hin|Hout].
  - rewrite Nat.sub_0_r. reflexivity.
  - rewrite lookup_empty. symmetry.
    rewrite (lookup_ge_None_2 (columns p) i) by lia. reflexivity.
Qed.

(** The second pass: [widths[index] += extra] at distinct indices. *)
Lemma alter_fold (extra : Q) (indices : list nat) (widths : gmap nat Q)
    (i : nat) :
  NoDup indices ->
  foldl (fun widths index => alter (fun w => w + extra) index widths)
        widths indices !! i
  = if decide (i ∈ indices) then (fun w => w + extra) <$> widths !! i
    else widths !! i.
Proof.
  revert widths. induction indices as [|j indices IH]; intros widths Hnd;
    simpl.
  - destruct (decide (i ∈ [])) as [H|H]; [inversion H | reflexivity].
  - inversion Hnd as [|? ? Hj Hnd']; subst.
    rewrite IH by assumption.
    destruct (decide (i = j)) as [->|Hne].
    + destruct (decide (j ∈ indices)); [contradiction|].
      destruct (decide (j ∈ j :: indices)) as [|Hn];
        [|exfalso; apply Hn; left].
      rewrite lookup_alter_eq. reflexivity.
    + rewrite lookup_alter_ne by congruence.
      destruct (decide (i ∈ indices)) as [Hin|Hnin].
      * destruct (decide (i ∈ j :: indices)) as [|Hn];
          [reflexivity | exfalso; apply Hn; right; assumption].
      * destruct (decide (i ∈ j :: indices)) as [Hin'|];
          [|reflexivity].
        apply elem_of_cons in Hin' as [?|?]; [congruence | contradiction].
Qed.

Lemma foldl_max_ge (f : Row -> Q) (rows : list Row) (init : Q) :
  init <= foldl (fun m row => Qmax m (f row)) init rows
  /\ forall row, row ∈ rows ->
       f row <= foldl (fun m row => Qmax m (f row)) init rows.
Proof.
  revert init. induction rows as [|r rows IH]; intros init; simpl.
  - split; [apply Qle_refl|]. intros row H. inversion H.
  - destruct (IH (Qmax init (f r))) as (Hinit & Hrows).
    split.
    + eapply Qle_trans; [apply Q.le_max_l | exact Hinit].
    + intros row Hrow. apply elem_of_cons in Hrow as [->|Hrow].
      * eapply Qle_trans; [apply Q.le_max_r | exact Hinit].
      * apply Hrows. exact Hrow.
Qed.

Lemma measureCellWidth_floor (column : Column) :
  let minWidth := Widths.measureCellWidth p d s column (Some context) in
  150 <= minWidth
  /\ context (title column) + 40 <= minWidth
  /\ forall row, row ∈ Widths.visibleRows p d s ->
       context (Widths.content column row) + 40 <= minWidth.
Proof.
  unfold Widths.measureCellWidth.
  set (f := fun row : Row => context (Widths.content column row) + 40).
  destruct (foldl_max_ge f (Widths.visibleRows p d s) 0) as (_ & Hrows).
  split; [apply Q.le_max_r|]. split.
  - eapply Qle_trans; [|apply Q.le_max_l]. apply Q.le_max_l.
  - intros row Hrow.
    eapply Qle_trans; [|apply Q.le_max_l].
    eapply Qle_trans; [|apply Q.le_max_r].
    apply (Hrows row Hrow).
Qed.

Lemma extraPerColumn_nonneg (extraSpace : Q) (flexible : nat) :
  0 <= extraSpace -> 0 <= Widths.extraPerColumn extraSpace flexible.
Proof.
  intros H. unfold Widths.extraPerColumn, Num.floor.
  change 0 with (inject_Z 0). rewrite <- Zle_Qle.
  change 0%Z with (Qfloor 0). apply Qfloor_resp_le.
  unfold Qdiv. apply Qmult_le_0_compat; [assumption|].
  apply Qinv_le_0_compat. unfold Num.of_nat.
  change 0 with (inject_Z 0). rewrite <- Zle_Qle. lia.
Qed.

(** The resolved width of every column of [props.columns]. *)
Lemma columnWidths_lookup (index : nat) (column : Column) :
  columns p !! index = Some column ->
  let slack := Widths.availableWidth p d s - Widths.reservedSum p d s context in
  Widths.columnWidths (Some context) p d s !! index
  = Some (if (0 <? Widths.flexibleCount p)%nat
             && Num.ltb (Widths.reservedSum p d s context)
                        (Widths.availableWidth p d s)
             && Widths.isFlexible column
          then Widths.reserved p d s context column
               + Widths.extraPerColumn slack (Widths.flexibleCount p)
          else Widths.reserved p d s context column).
Proof.
  intros Hcol slack. unfold Widths.columnWidths.
  destruct firstPass_spec as (Hw & Ht & Hf).
  rewrite Ht, Hf, flexFrom_length. fold (Widths.flexibleCount p).
  destruct ((0 <? Widths.flexibleCount p)%nat
            && Num.ltb (Widths.reservedSum p d s context)
                       (Widths.availableWidth p d s)) eqn:Hslack; simpl.
  - rewrite alter_fold by apply flexFrom_NoDup.
    rewrite Hw, Hcol. simpl.
    pose proof (flexFrom_elem 0 (columns p) index column Hcol) as Hel.
    simpl in Hel.
    destruct (decide (index ∈ Widths.flexFrom 0 (columns p))) as [Hin|Hnin].
    + apply Hel in Hin. rewrite Hin. reflexivity.
    + destruct (Widths.isFlexible column); [|reflexivity].
      exfalso. apply Hnin, Hel. reflexivity.
  - rewrite Hw, Hcol. reflexivity.
Qed.

Lemma columnWidths_lookup_None (index : nat) :
  columns p !! index = None ->
  Widths.columnWidths (Some context) p d s !! index = None.
Proof.
  intros Hcol. unfold Widths.columnWidths.
  destruct firstPass_spec as (Hw & _ & Hf).
  destruct (_ && _).
  - rewrite Hf, alter_fold by apply flexFrom_NoDup.
    rewrite Hw, Hcol. destruct (decide _); reflexivity.
  - rewrite Hw, Hcol. reflexivity.
Qed.

(** A resolved width is the reserved width, plus the share of the slack
    when there is one to share. *)
Lemma resolved_ge_reserved (index : nat) (column : Column) :
  columns p !! index = Some column ->
  exists r, Widths.columnWidths (Some context) p d s !! index = Some r
            /\ Widths.reserved p d s context column <= r.
Proof.
  intros Hcol. rewrite (columnWidths_lookup index column Hcol).
  eexists; split; [reflexivity|].
  destruct ((0 <? Widths.flexibleCount p)%nat
            && Num.ltb (Widths.reservedSum p d s context)
                       (Widths.availableWidth p d s)
            && Widths.isFlexible column) eqn:Hslack; [|apply Qle_refl].
  apply andb_true_iff in Hslack as [Hslack _].
  apply andb_true_iff in Hslack as [_ Hlt].
  apply ltb_true in Hlt.
  assert (0 <= Widths.extraPerColumn
                 (Widths.availableWidth p d s
                  - Widths.reservedSum p d s context)
                 (Widths.flexibleCount p))
    by (apply extraPerColumn_nonneg; lra).
  lra.
Qed.

End Resolver.

(** The rows of the window of [measureCellWidth], by their indices. *)
Lemma visibleRows_spec (p : Props) (d : Dom) (s : Comp) (row : Row) :
  row ∈ Widths.visibleRows p d s
  <-> exists i : Z,
        (Qfloor (scrollTop s / rowHeight p) <= i
         < Z.min (Z.of_nat (length (data p)))
             (Qceiling ((scrollTop s + clientHeight d) / rowHeight p)))%Z
        /\ rowAt (data p) i = Some row.
Proof.
  unfold Widths.visibleRows, Widths.visibleIndices, Widths.visibleStartIndex,
    Widths.visibleEndIndex.
  rewrite list_elem_of_omap. split.
  - intros (i & Hi & Hrow). exists i. split; [|exact Hrow].
    apply elem_of_seqZ in Hi. lia.
  - intros (i & Hi & Hrow). exists i. split; [|exact Hrow].
    apply elem_of_seqZ. lia.
Qed.

(** A running maximum is its initial value or one of the values it has
    met. *)
Lemma foldl_max_attained (f : Row -> Q) (rows : list Row) (init : Q) :
  foldl (fun m row => Qmax m (f row)) init rows == init
  \/ exists row, row ∈ rows
       /\ foldl (fun m row => Qmax m (f row)) init rows == f row.
Proof.
  revert init. induction rows as [|r rows IH]; intros init; simpl.
  - left. reflexivity.
  - destruct (IH (Qmax init (f r))) as [Heq|(row & Hrow & Heq)].
    + destruct (Q.max_spec init (f r)) as [[_ Hmax]|[_ Hmax]].
      * right. exists r. split; [left|]. rewrite Heq. exact Hmax.
      * left. rewrite Heq. exact Hmax.
    + right. exists row. split; [right; exact Hrow | exact Heq].
Qed.

(** C2 (amended).  The resolver gives a column whose declared width is not
    zero exactly its declared width, with or without slack.  A column
    without a declared width, or with the declared width 0, is flexible:
    its minimum is the largest of 150, the width of its title plus 40 and
    the width of [String(row[key])] plus 40 for the rows [i] of the window
    [floor(scrollTop / rowHeight) <= i <
     min(rows, ceil((scrollTop + clientHeight) / rowHeight))]; it gets this
    minimum when the reserved and minimum widths sum to the available width
    (the container width less the scrollbar reserve) or more, and the
    minimum plus the floor of the slack divided by the number of flexible
    columns when they sum to less. *)
Theorem columnWidths_resolves (context : Context) (p : Props) (d : Dom)
    (s : Comp) (index : nat) (column : Column) :
  columns p !! index = Some column ->
  let resolved := Widths.columnWidths (Some context) p d s in
  let minWidth := Widths.measureCellWidth p d s column (Some context) in
  let first := Qfloor (scrollTop s / rowHeight p) in
  let last := Z.min (Z.of_nat (length (data p)))
                (Qceiling ((scrollTop s + clientHeight d) / rowHeight p)) in
  let cellWidth :=
    fun row : Row => context (String_of (row !! key column)) + 40 in
  let sum := Widths.reservedSum p d s context in
  let available := containerWidth s - scrollbarReserve p d in
  let slack := available - sum in
  (forall w, width column = Some w -> ~ w == 0 ->
             resolved !! index = Some w)
  /\ (width column = None \/ (exists w, width column = Some w /\ w == 0) ->
      (150 <= minWidth
       /\ context (title column) + 40 <= minWidth
       /\ (forall i row, (first <= i < last)%Z ->
             rowAt (data p) i = Some row -> cellWidth row <= minWidth)
       /\ (minWidth == 150
           \/ minWidth == context (title column) + 40
           \/ exists i row, (first <= i < last)%Z
                /\ rowAt (data p) i = Some row
                /\ minWidth == cellWidth row))
      /\ (available <= sum -> resolved !! index = Some minWidth)
      /\ (sum < available ->
          resolved !! index
          = Some (minWidth
                  + Num.floor (slack
                               / Num.of_nat (Widths.flexibleCount p))))).
Proof.
  intros Hcol resolved minWidth first last cellWidth sum available slack.
  pose proof (columnWidths_lookup p d s context index column Hcol) as Hres.
  cbv zeta in Hres. unfold Widths.availableWidth in Hres.
  fold resolved sum available slack in Hres.
  split.
  - intros w Hw Hnz. rewrite Hres.
    assert (Hfixed : fixedWidth column = Some w).
    { unfold fixedWidth, Num.truthy. rewrite Hw.
      apply Qeq_bool_false in Hnz. rewrite Hnz. reflexivity. }
    unfold Widths.isFlexible, Widths.reserved.
    rewrite Hfixed, andb_false_r. reflexivity.
  - intros Hdecl.
    assert (Hflex : fixedWidth column = None).
    { unfold fixedWidth, Num.truthy.
      destruct Hdecl as [->|(w & -> & Hz)]; [reflexivity|].
      apply Qeq_bool_iff in Hz. rewrite Hz. reflexivity. }
    assert (Hcount : (0 <? Widths.flexibleCount p)%nat = true).
    { apply Nat.ltb_lt. unfold Widths.flexibleCount.
      apply list_elem_of_lookup_2 in Hcol.
      assert (Hin : column ∈ filter (fun c => Widths.isFlexible c = true)
                                    (columns p)).
      { apply list_elem_of_filter. split; [|assumption].
        unfold Widths.isFlexible. rewrite Hflex. reflexivity. }
      destruct (filter _ (columns p)); [inversion Hin | simpl; lia]. }
    unfold Widths.isFlexible, Widths.reserved in Hres.
    rewrite Hflex, andb_true_r, Hcount in Hres. fold minWidth in Hres.
    cbn [andb] in Hres.
    split; [|split].
    + destruct (measureCellWidth_floor p d s context column)
        as (H150 & Htitle & Hrows). fold minWidth in H150, Htitle, Hrows.
      split; [exact H150|]. split; [exact Htitle|]. split.
      * intros i row Hi Hrow. apply (Hrows row).
        apply visibleRows_spec. exists i. split; assumption.
      * unfold minWidth, Widths.measureCellWidth in *.
        set (f := fun row : Row => context (Widths.content column row) + 40)
          in *.
        set (maxContentWidth := foldl _ 0 (Widths.visibleRows p d s)) in *.
        set (headerWidth := context (title column) + 40) in *.
        destruct (Q.max_spec (Qmax headerWidth maxContentWidth) 150)
          as [[_ Hmax]|[Hbig Hmax]]; [left; exact Hmax|].
        destruct (Q.max_spec headerWidth maxContentWidth)
          as [[_ Hmax']|[_ Hmax']];
          [|right; left; rewrite Hmax; exact Hmax'].
        destruct (foldl_max_attained f (Widths.visibleRows p d s) 0)
          as [Hzero|(row & Hrow & Hatt)].
        -- change (maxContentWidth == 0) in Hzero. exfalso.
           clear -Hbig Hmax' Hzero. clearbody maxContentWidth headerWidth.
           lra.
        -- change (maxContentWidth == f row) in Hatt.
           apply visibleRows_spec in Hrow as (i & Hi & Hrow).
           right. right. exists i, row.
           split; [exact Hi|]. split; [exact Hrow|].
           rewrite Hmax, Hmax'. exact Hatt.
    + intros Hfull.
      assert (Num.ltb sum available = false) as Hb
        by (apply ltb_false; exact Hfull).
      rewrite Hb in Hres. exact Hres.
    + intros Hslack.
      assert (Num.ltb sum available = true) as Hb
        by (apply ltb_true; exact Hslack).
      rewrite Hb in Hres. exact Hres.
Qed.

(** The flexible address column of the demonstration table. *)
Lemma columnWidths_resolves_witness :
  columns demo !! 3%nat = Some addressColumn
  /\ Widths.reservedSum demo demoDom (mounted 800) monospace
     < Widths.availableWidth demo demoDom (mounted 800)
  /\ Widths.columnWidths (Some monospace) demo demoDom (mounted 800)
       !! 3%nat
     = Some (Widths.measureCellWidth demo demoDom (mounted 800)
               addressColumn (Some monospace)
             + Num.floor ((Widths.availableWidth demo demoDom (mounted 800)
                           - Widths.reservedSum demo demoDom (mounted 800)
                               monospace)
                          / Num.of_nat (Widths.flexibleCount demo))).
Proof.
  assert (Hcol : columns demo !! 3%nat = Some addressColumn) by reflexivity.
  assert (Hslack : Widths.reservedSum demo demoDom (mounted 800) monospace
                   < Widths.availableWidth demo demoDom (mounted 800))
    by (vm_compute; reflexivity).
  split; [exact Hcol|]. split; [exact Hslack|].
  destruct (columnWidths_resolves monospace demo demoDom (mounted 800) 3
              addressColumn Hcol) as (_ & Hflex).
  destruct (Hflex ltac:(left; reflexivity)) as (_ & _ & Hshare).
  apply Hshare. exact Hslack.
Defined.

(** C2 as stated fails: a column declared with the width 0 is a
    fixed-width column of the claim, and the resolver gives it its
    measured minimum of 150 and its share of the slack, here 300 in
    all. *)
Lemma columnWidths_widens_a_zero_width :
  columns zeroWidth !! 0%nat = Some (fixedColumn "a" 0)
  /\ width (fixedColumn "a" 0) = Some 0
  /\ exists r,
       Widths.columnWidths (Some monospace) zeroWidth gridDom (mounted 400)
         !! 0%nat = Some r
       /\ r == 300
       /\ ~ r == 0.
Proof.
  split; [reflexivity|]. split; [reflexivity|].
  eexists. split; [vm_compute; reflexivity|].
  split; [reflexivity | discriminate].
Qed.

Lemma foldl_max_lub (f : Row -> Q) (rows : list Row) (init bound : Q) :
  init <= bound ->
  (forall row, row ∈ rows -> f row <= bound) ->
  foldl (fun m row => Qmax m (f row)) init rows <= bound.
Proof.
  revert init. induction rows as [|r rows IH]; intros init Hinit Hrows; simpl;
    [exact Hinit|].
  apply IH.
  - apply Q.max_lub; [exact Hinit|]. apply Hrows. left.
  - intros row Hrow. apply Hrows. right. exact Hrow.
Qed.

(** C8 (amended).  The measured minimum of a flexible column is monotone
    in the visible row window: it does not shrink from one scroll position
    to another whose window holds every row of the first; and the resolved
    width is at least the minimum measured at the current position. *)
Theorem flexible_width_follows_the_window (context : Context) (p : Props)
    (d : Dom) (s s' : Comp) (index : nat) (column : Column) :
  columns p !! index = Some column ->
  fixedWidth column = None ->
  (forall row, row ∈ Widths.visibleRows p d s ->
               row ∈ Widths.visibleRows p d s') ->
  Widths.measureCellWidth p d s column (Some context)
  <= Widths.measureCellWidth p d s' column (Some context)
  /\ exists r',
       Widths.columnWidths (Some context) p d s' !! index = Some r'
       /\ Widths.measureCellWidth p d s' column (Some context) <= r'.
Proof.
  intros Hcol Hflex Hincl. split.
  - unfold Widths.measureCellWidth.
    apply Q.max_le_compat_r. apply Q.max_le_compat_l.
    set (f := fun row : Row => context (Widths.content column row) + 40).
    destruct (foldl_max_ge f (Widths.visibleRows p d s') 0) as (Hinit & Hrows).
    apply foldl_max_lub; [exact Hinit|].
    intros row Hrow. apply Hrows, Hincl, Hrow.
  - destruct (resolved_ge_reserved p d s' context index column Hcol)
      as (r' & Hr' & Hle).
    exists r'. split; [exact Hr'|].
    unfold Widths.reserved in Hle. rewrite Hflex in Hle. exact Hle.
Qed.

(** The window at offset 60 holds the last row only, the window at
    offset 0 all three. *)
Lemma flexible_width_follows_the_window_witness :
  Widths.measureCellWidth narrow narrowDom (set_scrollTop 60 (mounted 200))
    narrowColumn (Some monospace)
  <= Widths.measureCellWidth narrow narrowDom (mounted 200)
       narrowColumn (Some monospace)
  /\ exists r',
       Widths.columnWidths (Some monospace) narrow narrowDom (mounted 200)
         !! 0%nat = Some r'
       /\ Widths.measureCellWidth narrow narrowDom (mounted 200)
            narrowColumn (Some monospace) <= r'.
Proof.
  apply (flexible_width_follows_the_window monospace narrow narrowDom
           (set_scrollTop 60 (mounted 200)) (mounted 200) 0 narrowColumn).
  - reflexivity.
  - reflexivity.
  - assert (E1 : Widths.visibleRows narrow narrowDom
                   (set_scrollTop 60 (mounted 200)) = drop 2 (data narrow))
      by (vm_compute; reflexivity).
    assert (E2 : Widths.visibleRows narrow narrowDom (mounted 200)
                 = data narrow) by (vm_compute; reflexivity).
    rewrite E1, E2. apply subseteq_drop.
Defined.

(** C8 as stated fails: the column is 1040 wide while the wide first row
    is in the window, and 188 wide after the wheel has moved it out. *)
Lemma flexible_width_shrinks :
  exists s,
    Scroll.run monospace narrow narrowDom [Scroll.Wheel 0 60 false]
      (mounted 200) = Some s
    /\ fixedWidth narrowColumn = None
    /\ Widths.widthAt (Widths.columnWidths (Some monospace) narrow narrowDom
                         (mounted 200)) 0 == 1040
    /\ Widths.widthAt (Widths.columnWidths (Some monospace) narrow narrowDom
                         s) 0 == 188.
Proof.
  eexists. split; [vm_compute; reflexivity|].
  repeat split; vm_compute; reflexivity.
Qed.

(** ** Hit-testing *)

Section ColumnLoop.

Variables (widths : gmap nat Q) (x : Q).

(** A point one unit right of the left edge of column [c] is taken by
    that column, when it is wider than one unit and no column before it
    has a negative width. *)
Lemma columnLoop_hit (c count i : nat) (currentX : Q) :
  (i <= c < i + count)%nat ->
  (forall j, (i <= j < c)%nat -> 0 <= Widths.widthAt widths j) ->
  1 < Widths.widthAt widths c ->
  x == currentX + Hit.span widths i (c - i) + 1 ->
  Hit.columnLoop widths x count i currentX = c.
Proof.
  revert i currentX.
  induction count as [|count IH]; intros i currentX Hc Hpos Hwide Hx; [lia|].
  cbn [Hit.columnLoop].
  destruct (decide (i = c)) as [->|Hne].
  - rewrite Nat.sub_diag in Hx. simpl in Hx.
    assert (Qle_bool currentX x = true) as -> by (apply Qle_bool_iff; lra).
    assert (Num.ltb x (currentX + Widths.widthAt widths c) = true) as ->
      by (apply ltb_true; lra).
    reflexivity.
  - replace (c - i)%nat with (S (c - S i)) in Hx by lia.
    cbn [Hit.span] in Hx.
    assert (Hrest : 0 <= Hit.span widths (S i) (c - S i)).
    { clear -Hpos Hc Hne. assert (Hb : (S i <= c)%nat) by lia.
      assert (Hp : forall j, (S i <= j < c)%nat ->
                             0 <= Widths.widthAt widths j)
        by (intros; apply Hpos; lia).
      clear Hpos Hc Hne. remember (c - S i)%nat as n eqn:Hn.
      revert i Hb Hp Hn. induction n as [|n IHn]; intros i Hb Hp Hn;
        [apply Qle_refl|].
      cbn [Hit.span].
      assert (0 <= Widths.widthAt widths (S i)) by (apply Hp; lia).
      assert (0 <= Hit.span widths (S (S i)) n)
        by (apply IHn; [lia | intros; apply Hp; lia | lia]).
      lra. }
    assert (Num.ltb x (currentX + Widths.widthAt widths i) = false) as ->
      by (apply ltb_false; lra).
    rewrite andb_false_r.
    apply IH; [lia | intros; apply Hpos; lia | assumption | lra].
Qed.

(** A point at or right of the right edge of the last column is taken by
    no column, when no width is negative. *)
Lemma columnLoop_miss (count i : nat) (currentX : Q) :
  (forall j, (i <= j < i + count)%nat -> 0 <= Widths.widthAt widths j) ->
  currentX + Hit.span widths i count <= x ->
  Hit.columnLoop widths x count i currentX = 0%nat.
Proof.
  revert i currentX.
  induction count as [|count IH]; intros i currentX Hpos Hx; [reflexivity|].
  cbn [Hit.columnLoop]. cbn [Hit.span] in Hx.
  assert (Hrest : 0 <= Hit.span widths (S i) count).
  { assert (Hp : forall j, (S i <= j < S i + count)%nat ->
                           0 <= Widths.widthAt widths j)
      by (intros; apply Hpos; lia).
    clear -Hp. revert i Hp. induction count as [|n IHn]; intros i Hp;
      [apply Qle_refl|].
    cbn [Hit.span].
    assert (0 <= Widths.widthAt widths (S i)) by (apply Hp; lia).
    assert (0 <= Hit.span widths (S (S i)) n)
      by (apply IHn; intros; apply Hp; lia).
    lra. }
  assert (Num.ltb x (currentX + Widths.widthAt widths i) = false) as ->
    by (apply ltb_false; lra).
  rewrite andb_false_r.
  apply IH; [intros; apply Hpos; lia | lra].
Qed.

(** The loop never leaves the columns. *)
Lemma columnLoop_bound (count i : nat) (currentX : Q) :
  (0 < count)%nat ->
  (Hit.columnLoop widths x count i currentX < i + count)%nat.
Proof.
  revert i currentX. induction count as [|count IH]; intros i currentX Hc;
    [lia|].
  cbn [Hit.columnLoop].
  destruct (_ && _); [lia|].
  destruct count as [|count']; [simpl; lia|].
  specialize (IH (S i) (currentX + Widths.widthAt widths i)). lia.
Qed.

End ColumnLoop.

(** The computed [totalWidth] is the span of all the columns. *)
Lemma totalWidth_span (context : Context) (p : Props) (d : Dom) (s : Comp) :
  Widths.totalWidth context p d s
  == Hit.span (Widths.columnWidths (Some context) p d s) 0
       (length (columns p)).
Proof.
  unfold Widths.totalWidth.
  set (widths := Widths.columnWidths (Some context) p d s).
  assert (Hgen : forall cols k acc,
    foldl (fun sum (entry : nat * Column) =>
             sum + Widths.widthAt widths (fst entry))
          acc (imap (fun i c => ((k + i)%nat, c)) cols)
    == acc + Hit.span widths k (length cols)).
  { induction cols as [|c cols IH]; intros k acc.
    - simpl. lra.
    - cbn [imap foldl length Hit.span fst]. rewrite Nat.add_0_r.
      assert (Himap : imap ((fun i c0 => ((k + i)%nat, c0)) ∘ S) cols
                      = imap (fun i c0 => ((S k + i)%nat, c0)) cols).
      { apply imap_ext. intros i y _. simpl. f_equal. lia. }
      rewrite Himap, IH. lra. }
  assert (Himap : imap pair (columns p)
                  = imap (fun i c => ((0 + i)%nat, c)) (columns p)).
  { apply imap_ext. intros; reflexivity. }
  rewrite Himap, Hgen. lra.
Qed.

(** No resolved width is negative unless a declared one is. *)
Lemma resolved_nonneg (context : Context) (p : Props) (d : Dom) (s : Comp)
    (j : nat) :
  (forall column w, column ∈ columns p -> fixedWidth column = Some w ->
                    0 <= w) ->
  0 <= Widths.widthAt (Widths.columnWidths (Some context) p d s) j.
Proof.
  intros Hdecl. unfold Widths.widthAt.
  destruct (columns p !! j) as [column|] eqn:Hcol.
  - destruct (resolved_ge_reserved p d s context j column Hcol)
      as (r & -> & Hr).
    simpl. eapply Qle_trans; [|exact Hr].
    unfold Widths.reserved.
    destruct (fixedWidth column) as [w|] eqn:Hw.
    + apply (Hdecl column w); [|assumption].
      eapply list_elem_of_lookup_2. exact Hcol.
    + destruct (measureCellWidth_floor p d s context column) as (H150 & _).
      lra.
  - rewrite (columnWidths_lookup_None p d s context j Hcol). apply Qle_refl.
Qed.

(** At or below the header band [getCellFromPoint] answers with a cell as
    soon as there is a column, whatever the row index; above it, with
    [null]. *)
Lemma getCellFromPoint_answers (context : Context) (p : Props) (d : Dom)
    (s : Comp) (x y : Q) :
  (0 < length (columns p))%nat ->
  (exists cell, Hit.getCellFromPoint context p d s x y = Hit.Ok (Some cell))
  <-> headerHeight p <= y.
Proof.
  intros Hcols. unfold Hit.getCellFromPoint.
  destruct (Num.ltb y (headerHeight p)) eqn:Hy.
  - apply ltb_true in Hy. split; [intros [cell H]; discriminate | lra].
  - apply ltb_false in Hy. split; [intros _; exact Hy|]. intros _.
    pose proof (columnLoop_bound
                  (Widths.columnWidths (Some context) p d s) x
                  (length (columns p)) 0 0 Hcols) as Hbound.
    destruct (columns p !! _) as [column|] eqn:Hlook; [eauto|].
    apply lookup_ge_None in Hlook. lia.
Qed.

Lemma demo_declared_nonneg (column : Column) (w : Q) :
  column ∈ columns demo -> fixedWidth column = Some w -> 0 <= w.
Proof.
  intros Hin Hw. unfold demo, demoColumns in Hin. cbn [columns] in Hin.
  repeat (apply elem_of_cons in Hin as [->|Hin]);
    [| | | |inversion Hin]; vm_compute in Hw;
    try discriminate; injection Hw as <-; discriminate.
Qed.

(** The same three facts for the column loop of the older variant, which
    reads the rendered widths [state.value.columnWidths[i] || 150]. *)
Lemma legacy_span_nonneg (s : Comp) (i count : nat) :
  (forall j, (i <= j < i + count)%nat -> 0 <= Legacy.renderedWidth s j) ->
  0 <= Legacy.span s i count.
Proof.
  revert i. induction count as [|count IH]; intros i Hpos;
    [apply Qle_refl|].
  cbn [Legacy.span].
  assert (0 <= Legacy.renderedWidth s i) by (apply Hpos; lia).
  assert (0 <= Legacy.span s (S i) count)
    by (apply IH; intros; apply Hpos; lia).
  lra.
Qed.

Lemma legacy_columnLoop_hit (s : Comp) (x : Q) (c count i : nat)
    (currentX : Q) :
  (i <= c < i + count)%nat ->
  (forall j, (i <= j < c)%nat -> 0 <= Legacy.renderedWidth s j) ->
  1 < Legacy.renderedWidth s c ->
  x == currentX + Legacy.span s i (c - i) + 1 ->
  Legacy.columnLoop s x count i currentX = c.
Proof.
  revert i currentX.
  induction count as [|count IH]; intros i currentX Hc Hpos Hwide Hx; [lia|].
  cbn [Legacy.columnLoop].
  destruct (decide (i = c)) as [->|Hne].
  - rewrite Nat.sub_diag in Hx. cbn [Legacy.span] in Hx.
    assert (Qle_bool currentX x = true) as -> by (apply Qle_bool_iff; lra).
    assert (Num.ltb x (currentX + Legacy.renderedWidth s c) = true) as ->
      by (apply ltb_true; lra).
    reflexivity.
  - replace (c - i)%nat with (S (c - S i)) in Hx by lia.
    cbn [Legacy.span] in Hx.
    assert (Hrest : 0 <= Legacy.span s (S i) (c - S i))
      by (apply legacy_span_nonneg; intros; apply Hpos; lia).
    assert (Num.ltb x (currentX + Legacy.renderedWidth s i) = false) as ->
      by (apply ltb_false; lra).
    rewrite andb_false_r.
    apply IH; [lia | intros; apply Hpos; lia | assumption | lra].
Qed.

Lemma legacy_columnLoop_miss (s : Comp) (x : Q) (count i : nat)
    (currentX : Q) :
  (forall j, (i <= j < i + count)%nat -> 0 <= Legacy.renderedWidth s j) ->
  currentX + Legacy.span s i count <= x ->
  Legacy.columnLoop s x count i currentX = 0%nat.
Proof.
  revert i currentX.
  induction count as [|count IH]; intros i currentX Hpos Hx; [reflexivity|].
  cbn [Legacy.columnLoop]. cbn [Legacy.span] in Hx.
  assert (Hrest : 0 <= Legacy.span s (S i) count)
    by (apply legacy_span_nonneg; intros; apply Hpos; lia).
  assert (Num.ltb x (currentX + Legacy.renderedWidth s i) = false) as ->
    by (apply ltb_false; lra).
  rewrite andb_false_r.
  apply IH; [intros; apply Hpos; lia | lra].
Qed.

Lemma legacy_totalWidth_span (p : Props) (s : Comp) :
  Legacy.totalWidth p s == Legacy.span s 0 (length (columns p)).
Proof.
  unfold Legacy.totalWidth.
  assert (Hgen : forall cols k acc,
    foldl (fun sum (entry : nat * Column) =>
             sum + Legacy.renderedWidth s (fst entry))
          acc (imap (fun i c => ((k + i)%nat, c)) cols)
    == acc + Legacy.span s k (length cols)).
  { induction cols as [|c cols IH]; intros k acc.
    - simpl. lra.
    - cbn [imap foldl length Legacy.span fst]. rewrite Nat.add_0_r.
      assert (Himap : imap ((fun i c0 => ((k + i)%nat, c0)) ∘ S) cols
                      = imap (fun i c0 => ((S k + i)%nat, c0)) cols).
      { apply imap_ext. intros i y _. simpl. f_equal. lia. }
      rewrite Himap, IH. lra. }
  assert (Himap : imap pair (columns p)
                  = imap (fun i c => ((0 + i)%nat, c)) (columns p)).
  { apply imap_ext. intros; reflexivity. }
  rewrite Himap, Hgen. lra.
Qed.

(** C5 (amended).  For a column index within the columns, when no column
    before it has a negative resolved width, the column is wider than one
    unit, rows are higher than one unit and the constructed point is not
    above the lower edge of the header
    ([scrollTop <= rowIndex * rowHeight + 1]), the point
    [x = (sum of the resolved widths before columnIndex) + 1],
    [y = headerHeight + rowIndex * rowHeight - scrollTop + 1] is mapped
    back to [rowIndex] and [columnIndex]: by [getCellFromPoint] over the
    computed [columnWidths], and by the [getCellFromPoint] of the older
    variant over the widths it renders,
    [state.value.columnWidths[i] || 150]. *)
Theorem getCellFromPoint_round_trip (context : Context) (p : Props)
    (d : Dom) (s : Comp) (rowIndex columnIndex : nat) :
  (columnIndex < length (columns p))%nat ->
  1 < rowHeight p ->
  scrollTop s <= Num.of_nat rowIndex * rowHeight p + 1 ->
  let y := headerHeight p + Num.of_nat rowIndex * rowHeight p
           - scrollTop s + 1 in
  let widths := Widths.columnWidths (Some context) p d s in
  ((forall j, (j < columnIndex)%nat -> 0 <= Widths.widthAt widths j) ->
   1 < Widths.widthAt widths columnIndex ->
   exists cell,
     Hit.getCellFromPoint context p d s
       (Hit.leftEdge widths columnIndex + 1) y = Hit.Ok (Some cell)
     /\ Hit.rowIndex cell = Z.of_nat rowIndex
     /\ Hit.columnIndex cell = columnIndex)
  /\ ((forall j, (j < columnIndex)%nat -> 0 <= Legacy.renderedWidth s j) ->
      1 < Legacy.renderedWidth s columnIndex ->
      exists cell,
        Legacy.getCellFromPoint p s (Legacy.leftEdge s columnIndex + 1) y
        = Hit.Ok (Some cell)
        /\ Hit.rowIndex cell = Z.of_nat rowIndex
        /\ Hit.columnIndex cell = columnIndex).
Proof.
  intros Hcol Hrow Htop y widths.
  assert (Hy : Num.ltb y (headerHeight p) = false)
    by (apply ltb_false; unfold y; lra).
  assert (Hfloor : Qfloor ((y - headerHeight p + scrollTop s) / rowHeight p)
                   = Z.of_nat rowIndex).
  { apply Qfloor_between.
    - apply Qle_shift_div_l; [lra|]. unfold y, Num.of_nat. lra.
    - apply Qlt_shift_div_r; [lra|]. rewrite inject_Z_plus.
      unfold y, Num.of_nat. change (inject_Z 1) with 1. lra. }
  destruct (columns p !! columnIndex) as [column|] eqn:Hlook;
    [|apply lookup_ge_None in Hlook; lia].
  split.
  - intros Hpos Hwide. unfold Hit.getCellFromPoint. rewrite Hy.
    fold widths.
    assert (Hc : Hit.columnLoop widths (Hit.leftEdge widths columnIndex + 1)
                   (length (columns p)) 0 0 = columnIndex).
    { apply columnLoop_hit.
      - lia.
      - intros j Hj. apply Hpos. lia.
      - exact Hwide.
      - unfold Hit.leftEdge. rewrite Nat.sub_0_r. lra. }
    rewrite Hc, Hlook, Hfloor.
    eexists. split; [reflexivity|]. split; reflexivity.
  - intros Hpos Hwide. unfold Legacy.getCellFromPoint. rewrite Hy.
    assert (Hc : Legacy.columnLoop s (Legacy.leftEdge s columnIndex + 1)
                   (length (columns p)) 0 0 = columnIndex).
    { apply legacy_columnLoop_hit.
      - lia.
      - intros j Hj. apply Hpos. lia.
      - exact Hwide.
      - unfold Legacy.leftEdge. rewrite Nat.sub_0_r. lra. }
    rewrite Hc, Hlook, Hfloor.
    eexists. split; [reflexivity|]. split; reflexivity.
Qed.

(** The second row, third column of the demonstration table, in both
    variants. *)
Lemma getCellFromPoint_round_trip_witness :
  (exists cell,
     Hit.getCellFromPoint monospace demo demoDom (mounted 800)
       (Hit.leftEdge (Widths.columnWidths (Some monospace) demo demoDom
                        (mounted 800)) 2 + 1)
       (headerHeight demo + Num.of_nat 1 * rowHeight demo
        - scrollTop (mounted 800) + 1)
     = Hit.Ok (Some cell)
     /\ Hit.rowIndex cell = 1%Z
     /\ Hit.columnIndex cell = 2%nat)
  /\ (exists cell,
        Legacy.getCellFromPoint demo (mounted 800)
          (Legacy.leftEdge (mounted 800) 2 + 1)
          (headerHeight demo + Num.of_nat 1 * rowHeight demo
           - scrollTop (mounted 800) + 1)
        = Hit.Ok (Some cell)
        /\ Hit.rowIndex cell = 1%Z
        /\ Hit.columnIndex cell = 2%nat).
Proof.
  destruct (getCellFromPoint_round_trip monospace demo demoDom (mounted 800)
              1 2) as [Hnew Hold].
  - simpl. lia.
  - vm_compute. reflexivity.
  - vm_compute. discriminate.
  - split.
    + apply Hnew.
      * intros j _. apply resolved_nonneg, demo_declared_nonneg.
      * vm_compute. reflexivity.
    + apply Hold.
      * intros j _. vm_compute. discriminate.
      * vm_compute. reflexivity.
Defined.

(** C5 as stated fails.  The first row is painted while half of it lies
    under the header, and its constructed point is in the header band:
    the answer is [null].  The point also leaves its cell when rows are one
    unit high (next row), when the column is one unit wide (next column)
    and when a width is negative (an earlier column): a declared width, or
    in the older variant a width that a resize has left negative. *)
Lemma getCellFromPoint_misses_its_cell :
  (* the first row, half under the header *)
  (let s := set_scrollTop 15 (mounted 200) in
   Scroll.run monospace narrow narrowDom [Scroll.Wheel 0 15 false]
     (mounted 200) = Some s
   /\ Hit.rendered narrow narrowDom s 0 = true
   /\ Hit.getCellFromPoint monospace narrow narrowDom s
        (Hit.leftEdge (Widths.columnWidths (Some monospace) narrow narrowDom s)
                      0 + 1)
        (headerHeight narrow + Num.of_nat 0 * rowHeight narrow
         - scrollTop s + 1)
      = Hit.Ok None)
  (* rows one unit high *)
  /\ (let p := fixedGrid [fixedColumn "a" 100] 1 in
      let s := mounted 400 in
      Hit.rendered p gridDom s 0 = true
      /\ exists cell,
           Hit.getCellFromPoint monospace p gridDom s
             (Hit.leftEdge (Widths.columnWidths (Some monospace) p gridDom s)
                           0 + 1)
             (headerHeight p + Num.of_nat 0 * rowHeight p - scrollTop s + 1)
           = Hit.Ok (Some cell)
           /\ Hit.rowIndex cell = 1%Z)
  (* a column one unit wide *)
  /\ (let p := fixedGrid [fixedColumn "a" 1; fixedColumn "b" 100] 30 in
      let s := mounted 400 in
      Hit.rendered p gridDom s 0 = true
      /\ exists cell,
           Hit.getCellFromPoint monospace p gridDom s
             (Hit.leftEdge (Widths.columnWidths (Some monospace) p gridDom s)
                           0 + 1)
             (headerHeight p + Num.of_nat 0 * rowHeight p - scrollTop s + 1)
           = Hit.Ok (Some cell)
           /\ Hit.columnIndex cell = 1%nat)
  (* a negative declared width *)
  /\ (let p := fixedGrid [fixedColumn "a" 100; fixedColumn "b" (-50);
                          fixedColumn "c" 100] 30 in
      let s := mounted 400 in
      Hit.rendered p gridDom s 0 = true
      /\ exists cell,
           Hit.getCellFromPoint monospace p gridDom s
             (Hit.leftEdge (Widths.columnWidths (Some monospace) p gridDom s)
                           2 + 1)
             (headerHeight p + Num.of_nat 0 * rowHeight p - scrollTop s + 1)
           = Hit.Ok (Some cell)
           /\ Hit.columnIndex cell = 0%nat)
  (* the older variant, the second column resized to a negative width *)
  /\ (let p := fixedGrid [fixedColumn "a" 100; fixedColumn "b" 100;
                          fixedColumn "c" 100] 30 in
      let s := set_resize None {[ 1%nat := -100 ]} 0 false (mounted 400) in
      Legacy.renderedWidth s 1 == -100
      /\ exists cell,
           Legacy.getCellFromPoint p s (Legacy.leftEdge s 2 + 1)
             (headerHeight p + Num.of_nat 0 * rowHeight p - scrollTop s + 1)
           = Hit.Ok (Some cell)
           /\ Hit.columnIndex cell = 0%nat).
Proof.
  cbv zeta. split; [|split; [|split; [|split]]].
  - split; [vm_compute; reflexivity|].
    split; vm_compute; reflexivity.
  - split; [vm_compute; reflexivity|].
    eexists. split; [vm_compute; reflexivity|]. reflexivity.
  - split; [vm_compute; reflexivity|].
    eexists. split; [vm_compute; reflexivity|]. reflexivity.
  - split; [vm_compute; reflexivity|].
    eexists. split; [vm_compute; reflexivity|]. reflexivity.
  - split; [vm_compute; reflexivity|].
    eexists. split; [vm_compute; reflexivity|]. reflexivity.
Qed.

(** C6 (amended).  With at least one column and no negative resolved
    width, a point at or below the header band whose [x] is at or beyond
    the total resolved width is answered with the first column:
    [columnIndex] keeps its initial 0.  This holds of [getCellFromPoint]
    over the computed [columnWidths] and of the [getCellFromPoint] of the
    older variant over the widths it renders,
    [state.value.columnWidths[i] || 150]. *)
Theorem getCellFromPoint_past_the_columns (context : Context) (p : Props)
    (d : Dom) (s : Comp) (x y : Q) :
  (0 < length (columns p))%nat ->
  headerHeight p <= y ->
  let widths := Widths.columnWidths (Some context) p d s in
  ((forall j, (j < length (columns p))%nat -> 0 <= Widths.widthAt widths j) ->
   Widths.totalWidth context p d s <= x ->
   exists cell,
     Hit.getCellFromPoint context p d s x y = Hit.Ok (Some cell)
     /\ Hit.columnIndex cell = 0%nat)
  /\ ((forall j, (j < length (columns p))%nat ->
                 0 <= Legacy.renderedWidth s j) ->
      Legacy.totalWidth p s <= x ->
      exists cell,
        Legacy.getCellFromPoint p s x y = Hit.Ok (Some cell)
        /\ Hit.columnIndex cell = 0%nat).
Proof.
  intros Hcols Hy widths.
  assert (Hband : Num.ltb y (headerHeight p) = false)
    by (apply ltb_false; exact Hy).
  destruct (columns p) as [|column rest] eqn:Hc; [simpl in Hcols; lia|].
  split.
  - intros Hpos Hx. unfold Hit.getCellFromPoint. rewrite Hband.
    rewrite totalWidth_span in Hx. fold widths in Hx |- *.
    rewrite Hc in *. rewrite columnLoop_miss.
    + eexists. split; reflexivity.
    + intros j Hj. apply Hpos. lia.
    + lra.
  - intros Hpos Hx. unfold Legacy.getCellFromPoint. rewrite Hband.
    rewrite legacy_totalWidth_span in Hx.
    rewrite Hc in *. rewrite legacy_columnLoop_miss.
    + eexists. split; reflexivity.
    + intros j Hj. apply Hpos. lia.
    + lra.
Qed.

(** Fifty units right of two columns of width 100; in the older variant,
    which renders them 150 wide, fifty units right of these. *)
Lemma getCellFromPoint_past_the_columns_witness :
  (exists cell,
     Hit.getCellFromPoint monospace twoColumns gridDom (mounted 400) 250 50
     = Hit.Ok (Some cell)
     /\ Hit.columnIndex cell = 0%nat)
  /\ (exists cell,
        Legacy.getCellFromPoint twoColumns (mounted 400) 350 50
        = Hit.Ok (Some cell)
        /\ Hit.columnIndex cell = 0%nat).
Proof.
  split.
  - destruct (getCellFromPoint_past_the_columns monospace twoColumns gridDom
                (mounted 400) 250 50) as [Hnew _].
    + simpl. lia.
    + vm_compute. discriminate.
    + apply Hnew.
      * intros [|[|j]] Hj; [vm_compute; discriminate ..|simpl in Hj; lia].
      * vm_compute. discriminate.
  - destruct (getCellFromPoint_past_the_columns monospace twoColumns gridDom
                (mounted 400) 350 50) as [_ Hold].
    + simpl. lia.
    + vm_compute. discriminate.
    + apply Hold.
      * intros j _. vm_compute. discriminate.
      * vm_compute. discriminate.
Defined.

(** C6 as stated fails: right of two columns the answer is column 0, not
    column 1, in both variants. *)
Lemma getCellFromPoint_past_the_columns_is_not_last :
  (Widths.totalWidth monospace twoColumns gridDom (mounted 400) <= 250
   /\ headerHeight twoColumns <= 50
   /\ exists cell,
        Hit.getCellFromPoint monospace twoColumns gridDom (mounted 400) 250 50
        = Hit.Ok (Some cell)
        /\ Hit.columnIndex cell = 0%nat
        /\ Hit.columnIndex cell <> (length (columns twoColumns) - 1)%nat)
  /\ (Legacy.totalWidth twoColumns (mounted 400) <= 350
      /\ exists cell,
           Legacy.getCellFromPoint twoColumns (mounted 400) 350 50
           = Hit.Ok (Some cell)
           /\ Hit.columnIndex cell = 0%nat
           /\ Hit.columnIndex cell <> (length (columns twoColumns) - 1)%nat).
Proof.
  split.
  - split; [vm_compute; discriminate|].
    split; [vm_compute; discriminate|].
    eexists. split; [vm_compute; reflexivity|].
    split; [reflexivity | discriminate].
  - split; [vm_compute; discriminate|].
    eexists. split; [vm_compute; reflexivity|].
    split; [reflexivity | discriminate].
Qed.

(** ** The scroll handlers *)

Section Machine.

Variables (context : Context) (p : Props) (d : Dom).

Lemma settled_mounted (width : Q) : Scroll.settled p d (mounted width).
Proof.
  split; [|split].
  - split; [apply Qle_refl | apply Q.le_max_l].
  - apply Qle_refl.
  - discriminate.
Qed.

Lemma thumbHeight_not_NaN :
  showScrollbar p d = true -> Scroll.thumbHeight p d <> Num.NaN.
Proof.
  unfold showScrollbar, Scroll.thumbHeight, Num.js_div. intros Hshow.
  apply gtb_true in Hshow.
  destruct (Qeq_bool (contentHeight p) 0) eqn:Hcontent.
  - apply Qeq_bool_iff in Hcontent.
    assert (Hneg : containerHeight p d < 0) by lra.
    assert (Qeq_bool (containerHeight p d) 0 = false) as Hz.
    { destruct (Qeq_bool (containerHeight p d) 0) eqn:E; [|reflexivity].
      apply Qeq_bool_iff in E. lra. }
    rewrite Hz.
    assert (Num.ltb 0 (containerHeight p d) = false) as ->
      by (apply ltb_false; lra).
    simpl. rewrite Hz.
    assert (Num.ltb 0 (containerHeight p d) = false) as ->
      by (apply ltb_false; lra).
    discriminate.
  - discriminate.
Qed.

Lemma handleScrollMove_defined (clientY : Q) (s : Comp) :
  Scroll.settled p d s ->
  exists s', Scroll.handleScrollMove p d clientY s = Some s'.
Proof.
  intros (_ & _ & Hdrag). unfold Scroll.handleScrollMove.
  destruct (isDraggingScroll s) eqn:Hd; simpl; [|eauto].
  pose proof (thumbHeight_not_NaN (Hdrag eq_refl)) as Hnan.
  destruct (Scroll.thumbHeight p d) as [h| | |]; simpl; try congruence; eauto.
  destruct (Qle_bool _ 0); eauto.
Qed.

Lemma dispatch_top (e : Scroll.Event) (s s' : Comp) :
  Scroll.dispatch context p d e s = Some s' ->
  Scroll.settled p d s -> Scroll.settled p d s'.
Proof.
  intros Hstep (Htop & Hleft & Hdrag).
  destruct e as [deltaX deltaY shiftKey|y|y| |x|x|]; simpl in Hstep.
  - injection Hstep as <-. unfold Scroll.handleWheel.
    destruct (_ || _).
    + split; [exact Htop|]. split; [apply Q.le_max_l | exact Hdrag].
    + split; [apply clamp_range|]. split; [exact Hleft | exact Hdrag].
  - destruct (showScrollbar p d) eqn:Hshow in Hstep; injection Hstep as <-.
    + split; [exact Htop|]. split; [exact Hleft|]. intros _. exact Hshow.
    + split; [exact Htop|]. split; [exact Hleft | exact Hdrag].
  - unfold Scroll.handleScrollMove in Hstep.
    destruct (negb (isDraggingScroll s)).
    { injection Hstep as <-. repeat split; assumption || apply Htop. }
    destruct (Num.js_leb _ 0).
    { injection Hstep as <-. repeat split; assumption || apply Htop. }
    destruct (Num.clamp _ _) as [v|] eqn:Hclamp; [|discriminate].
    injection Hstep as <-. apply js_clamp_range in Hclamp.
    split; [exact Hclamp|]. split; [exact Hleft | exact Hdrag].
  - injection Hstep as <-.
    split; [exact Htop|]. split; [exact Hleft | discriminate].
  - destruct (Widths.showHorizontalScrollbar context p d s);
      injection Hstep as <-;
      (split; [exact Htop|]; split; [exact Hleft | exact Hdrag]).
  - unfold Scroll.handleHorizontalScrollMove in Hstep.
    destruct (negb (isDraggingHorizontalScroll s)).
    { injection Hstep as <-. repeat split; assumption || apply Htop. }
    destruct (Qle_bool _ 0).
    { injection Hstep as <-. repeat split; assumption || apply Htop. }
    destruct (Num.clamp _ _) as [v|] eqn:Hclamp; [|discriminate].
    injection Hstep as <-. apply js_clamp_range in Hclamp.
    split; [exact Htop|]. split; [apply Hclamp | exact Hdrag].
  - injection Hstep as <-.
    split; [exact Htop|]. split; [exact Hleft | exact Hdrag].
Qed.

Lemma run_settled (events : list Scroll.Event) (s s' : Comp) :
  Scroll.run context p d events s = Some s' ->
  Scroll.settled p d s -> Scroll.settled p d s'.
Proof.
  revert s.
  induction events as [|e events IH]; intros s Hrun Hs; simpl in Hrun.
  - injection Hrun as <-. exact Hs.
  - destruct (Scroll.dispatch context p d e s) as [s1|] eqn:Hstep;
      [|discriminate].
    apply (IH s1 Hrun). apply (dispatch_top e s s1 Hstep Hs).
Qed.

(** An event either writes [scrollLeft], clamped against the total width
    of that moment, or leaves it as it was. *)
Lemma dispatch_left (e : Scroll.Event) (s s' : Comp) :
  Scroll.dispatch context p d e s = Some s' ->
  if Scroll.writesScrollLeft context p d e s
  then Scroll.leftInRange context p d s'
  else scrollLeft s' = scrollLeft s.
Proof.
  intros Hstep.
  destruct e as [deltaX deltaY shiftKey|y|y| |x|x|]; simpl in Hstep |- *.
  - injection Hstep as <-. unfold Scroll.handleWheel.
    destruct (_ || _).
    + apply clamp_range.
    + reflexivity.
  - destruct (showScrollbar p d); injection Hstep as <-; reflexivity.
  - unfold Scroll.handleScrollMove in Hstep.
    destruct (negb (isDraggingScroll s));
      [injection Hstep as <-; reflexivity|].
    destruct (Num.js_leb _ 0); [injection Hstep as <-; reflexivity|].
    destruct (Num.clamp _ _); [|discriminate].
    injection Hstep as <-. reflexivity.
  - injection Hstep as <-. reflexivity.
  - destruct (Widths.showHorizontalScrollbar context p d s);
      injection Hstep as <-; reflexivity.
  - unfold Scroll.handleHorizontalScrollMove in Hstep.
    destruct (isDraggingHorizontalScroll s); simpl in *;
      [|injection Hstep as <-; reflexivity].
    destruct (Qle_bool (Widths.totalWidth context p d s - containerWidth s) 0)
      eqn:Hmax.
    + injection Hstep as <-.
      assert (Num.gtb (Widths.totalWidth context p d s - containerWidth s) 0
              = false) as -> by (apply gtb_false, Qle_bool_iff; exact Hmax).
      reflexivity.
    + assert (Num.gtb (Widths.totalWidth context p d s - containerWidth s) 0
              = true) as ->.
      { apply gtb_true. apply Qnot_le_lt. intros H.
        apply Qle_bool_iff in H. congruence. }
      destruct (Num.clamp _ _) as [v|] eqn:Hclamp; [|discriminate].
      injection Hstep as <-. apply js_clamp_range in Hclamp. exact Hclamp.
  - injection Hstep as <-. reflexivity.
Qed.

(** Only a horizontal thumb move can store NaN. *)
Lemma dispatch_defined (e : Scroll.Event) (s : Comp) :
  Scroll.settled p d s ->
  (forall x, e <> Scroll.HorizontalThumbMove x) ->
  exists s', Scroll.dispatch context p d e s = Some s'.
Proof.
  intros Hs Hne.
  destruct e as [deltaX deltaY shiftKey|y|y| |x|x|]; simpl.
  - eauto.
  - destruct (showScrollbar p d); eauto.
  - apply handleScrollMove_defined. exact Hs.
  - eauto.
  - destruct (Widths.showHorizontalScrollbar context p d s); eauto.
  - exfalso. apply (Hne x). reflexivity.
  - eauto.
Qed.

End Machine.

(** A horizontal thumb move stores NaN exactly when the drag is active,
    the table overflows, the track has no length left for the thumb to
    travel and the pointer has not moved: [0 * Infinity]. *)
Lemma handleHorizontalScrollMove_NaN (context : Context) (p : Props)
    (d : Dom) (clientX : Q) (s : Comp) :
  Scroll.handleHorizontalScrollMove context p d clientX s = None
  <-> isDraggingHorizontalScroll s = true
      /\ 0 < Widths.totalWidth context p d s - containerWidth s
      /\ containerWidth s - scrollbarReserve p d
         - Scroll.horizontalThumbWidth context p d s == 0
      /\ clientX - startDragX s == 0.
Proof.
  unfold Scroll.handleHorizontalScrollMove.
  set (maxScroll := Widths.totalWidth context p d s - containerWidth s).
  set (track := containerWidth s - scrollbarReserve p d
                - Scroll.horizontalThumbWidth context p d s).
  set (deltaX := clientX - startDragX s).
  destruct (isDraggingHorizontalScroll s); simpl;
    [|split; [discriminate | intros (H & _); discriminate]].
  destruct (Qle_bool maxScroll 0) eqn:Hmax.
  { apply Qle_bool_iff in Hmax.
    split; [discriminate | intros (_ & H & _); lra]. }
  assert (Hpos : 0 < maxScroll).
  { apply Qnot_le_lt. intros H. apply Qle_bool_iff in H. congruence. }
  unfold Num.js_div.
  destruct (Qeq_bool track 0) eqn:Htrack.
  - apply Qeq_bool_iff in Htrack.
    assert (Qeq_bool maxScroll 0 = false) as ->
      by (apply Qeq_bool_false; lra).
    assert (Num.ltb 0 maxScroll = true) as -> by (apply ltb_true; exact Hpos).
    simpl.
    destruct (Qeq_bool deltaX 0) eqn:Hdelta.
    + apply Qeq_bool_iff in Hdelta. simpl. tauto.
    + apply Qeq_bool_false in Hdelta.
      destruct (Num.ltb 0 deltaX); simpl;
        (split; [discriminate | intros (_ & _ & _ & H); contradiction]).
  - apply Qeq_bool_false in Htrack. simpl.
    split; [discriminate | intros (_ & _ & H & _); contradiction].
Qed.

(** What the handlers do keep.  In every state reached from the mounted
    component by wheel and scrollbar events that store no NaN, [scrollTop]
    lies in [[0, max(0, contentHeight - viewportHeight)]] and [scrollLeft]
    is not negative.  An event that writes [scrollLeft] leaves it in
    [[0, max(0, totalWidth - containerWidth)]] for the total width of that
    moment; any other event leaves [scrollLeft] as it was.  Every event but
    a horizontal thumb move ends in a next state. *)
Lemma scroll_mutations_clamp (context : Context) (p : Props) (d : Dom)
    (width : Q) (events : list Scroll.Event) (s : Comp) :
  Scroll.run context p d events (mounted width) = Some s ->
  Scroll.topInRange p d s
  /\ 0 <= scrollLeft s
  /\ (forall e s', Scroll.dispatch context p d e s = Some s' ->
        if Scroll.writesScrollLeft context p d e s
        then Scroll.leftInRange context p d s'
        else scrollLeft s' = scrollLeft s)
  /\ (forall e, (forall x, e <> Scroll.HorizontalThumbMove x) ->
        exists s', Scroll.dispatch context p d e s = Some s').
Proof.
  intros Hrun.
  pose proof (run_settled context p d events (mounted width) s Hrun
                (settled_mounted p d width)) as Hs.
  split; [apply Hs|]. split; [apply Hs|]. split.
  - intros e s'. apply dispatch_left.
  - intros e. apply dispatch_defined. exact Hs.
Qed.

(** Two wheel events on the narrow table, then one that writes
    [scrollLeft]. *)
Lemma scroll_mutations_clamp_witness :
  exists s,
    Scroll.run monospace narrow narrowDom
      [Scroll.Wheel 0 840 true; Scroll.Wheel 0 60 false] (mounted 200)
    = Some s
    /\ Scroll.topInRange narrow narrowDom s
    /\ 0 <= scrollLeft s
    /\ exists s',
         Scroll.dispatch monospace narrow narrowDom (Scroll.Wheel 0 (-5) true)
           s = Some s'
         /\ Scroll.leftInRange monospace narrow narrowDom s'.
Proof.
  eexists. split; [vm_compute; reflexivity|].
  match goal with
  | |- Scroll.topInRange _ _ ?s /\ _ =>
      destruct (scroll_mutations_clamp monospace narrow narrowDom 200
                  [Scroll.Wheel 0 840 true; Scroll.Wheel 0 60 false] s)
        as (Htop & Hleft & Hwrite & _)
  end.
  - vm_compute. reflexivity.
  - split; [exact Htop|]. split; [exact Hleft|].
    eexists. split; [vm_compute; reflexivity|].
    match goal with
    | |- Scroll.leftInRange _ _ _ ?s' =>
        exact (Hwrite (Scroll.Wheel 0 (-5) true) s' eq_refl)
    end.
Defined.

(** C1.  [scrollLeft] does not stay in
    [[0, max(0, totalWidth - containerWidth)]].  A horizontal wheel scrolls
    to 840 while the wide row makes the table 1040 wide; a vertical wheel
    then moves the wide row out of the window, the table is 188 wide in a
    container of 200, no horizontal scrollbar is shown, and [scrollLeft] is
    still 840.  And in a container of 52, where the thumb of 40 fills its
    track, a press on the horizontal thumb followed by a move that leaves
    the pointer at the same [clientX] stores NaN: [Infinity * 0]. *)
Theorem scrollLeft_leaves_its_range :
  (exists s,
     Scroll.run monospace narrow narrowDom
       [Scroll.Wheel 0 840 true; Scroll.Wheel 0 60 false] (mounted 200)
     = Some s
     /\ scrollLeft s == 840
     /\ Qmax 0 (Widths.totalWidth monospace narrow narrowDom s
                - containerWidth s) == 0
     /\ ~ Scroll.leftInRange monospace narrow narrowDom s
     /\ Widths.showHorizontalScrollbar monospace narrow narrowDom s = false)
  /\ (exists s,
        Scroll.run monospace narrow narrowDom [Scroll.HorizontalThumbDown 7]
          (mounted 52) = Some s
        /\ isDraggingHorizontalScroll s = true
        /\ (let maxScroll :=
              Widths.totalWidth monospace narrow narrowDom s
              - containerWidth s in
            let scrollableWidth :=
              containerWidth s - scrollbarReserve narrow narrowDom
              - Scroll.horizontalThumbWidth monospace narrow narrowDom s in
            Num.js_add (startScrollLeft s)
              (Num.js_mul (Num.js_div maxScroll scrollableWidth)
                 (7 - startDragX s)) = Num.NaN)
        /\ Scroll.run monospace narrow narrowDom
             [Scroll.HorizontalThumbDown 7; Scroll.HorizontalThumbMove 7]
             (mounted 52) = None).
Proof.
  split.
  - eexists. split; [vm_compute; reflexivity|].
    split; [vm_compute; reflexivity|].
    split; [vm_compute; reflexivity|].
    split; [|vm_compute; reflexivity].
    unfold Scroll.leftInRange. intros [_ H]. vm_compute in H. apply H.
    reflexivity.
  - eexists. split; [vm_compute; reflexivity|].
    split; [reflexivity|].
    split; vm_compute; reflexivity.
Qed.

(** ** The pointer handlers *)

(** A notification goes out exactly when the pointer is at or below the
    header band, whatever the row index. *)
Lemma handleContextMenu_emits_iff (context : Context) (p : Props) (d : Dom)
    (e : Pointer.MouseEvent) (s : Comp) :
  (0 < length (columns p))%nat ->
  (exists n, Pointer.handleContextMenu context p d e s = Hit.Ok (Some n))
  <-> headerHeight p <= Pointer.offsetY e.
Proof.
  intros Hcols.
  rewrite <- (getCellFromPoint_answers context p d s (Pointer.offsetX e)
                (Pointer.offsetY e) Hcols).
  unfold Pointer.handleContextMenu.
  destruct (Hit.getCellFromPoint _ _ _ _ _ _) as [[cell|]|].
  - split; eauto.
  - split; intros [x H]; discriminate.
  - split; intros [x H]; discriminate.
Qed.

(** C9.  A right click five units below the second and last row
    ([offsetY] 105) emits a notification whose cell has row index 2, no row
    and no value, where the move and press handlers for the same pointer
    position treat the row as no row: the hover and the selection are
    cleared. *)
Theorem handleContextMenu_emits_past_the_last_row :
  let e := {| Pointer.offsetX := 50; Pointer.offsetY := 105;
              Pointer.clientX := 50; Pointer.clientY := 105 |} in
  let s := mounted 400 in
  (exists cell,
     Pointer.handleContextMenu monospace twoColumns gridDom e s
     = Hit.Ok (Some {| Pointer.cell := cell; Pointer.event := e |})
     /\ Hit.rowIndex cell = 2%Z
     /\ Z.of_nat (length (data twoColumns)) = 2%Z
     /\ Hit.row cell = None
     /\ Hit.value cell = None)
  /\ (exists s',
        Pointer.handleMouseMove monospace twoColumns gridDom e s = Hit.Ok s'
        /\ hoveredRow s' = None)
  /\ selectedRow (Pointer.handleMouseDown monospace twoColumns gridDom e s)
     = None.
Proof.
  cbv zeta. split; [|split].
  - eexists. split; [vm_compute; reflexivity|].
    repeat split.
  - eexists. split; [vm_compute; reflexivity|]. reflexivity.
  - vm_compute. reflexivity.
Qed.

(** A move during a resize adds the pointer delta to the entry of the
    [state] ref, which the computed [columnWidths] does not read. *)
Lemma handleMouseMove_while_resizing (context : Context) (p : Props)
    (d : Dom) (e : Pointer.MouseEvent) (s : Comp) (c : nat) :
  isResizing s = true ->
  resizingColumn s = Some c ->
  exists s',
    Pointer.handleMouseMove context p d e s = Hit.Ok s'
    /\ isResizing s' = true
    /\ resizingColumn s' = Some c
    /\ state_columnWidths s'
       = <[c := Pointer.storedWidth (state_columnWidths s) c
                + (Pointer.offsetX e - startX s)]> (state_columnWidths s)
    /\ Widths.columnWidths (Some context) p d s'
       = Widths.columnWidths (Some context) p d s.
Proof.
  intros Hres Hcol. unfold Pointer.handleMouseMove. rewrite Hres, Hcol.
  eexists. split; [reflexivity|]. simpl. repeat split.
Qed.

(** In the older variant a move during a resize changes the rendered
    width of the resized column by the pointer delta, unless the sum is
    zero, which [|| 150] renders as 150; the other columns keep theirs. *)
Lemma legacy_resize_move (context : Context) (p : Props) (d : Dom)
    (e : Pointer.MouseEvent) (s : Comp) (c : nat) :
  isResizing s = true ->
  resizingColumn s = Some c ->
  exists s',
    Pointer.handleMouseMove context p d e s = Hit.Ok s'
    /\ (~ Legacy.renderedWidth s c + (Pointer.offsetX e - startX s) == 0 ->
        Legacy.renderedWidth s' c
        = Legacy.renderedWidth s c + (Pointer.offsetX e - startX s))
    /\ forall j, j <> c ->
         Legacy.renderedWidth s' j = Legacy.renderedWidth s j.
Proof.
  intros Hres Hcol.
  destruct (handleMouseMove_while_resizing context p d e s c Hres Hcol)
    as (s' & Hmove & _ & _ & Hstate & _).
  exists s'. split; [exact Hmove|].
  unfold Legacy.renderedWidth. rewrite Hstate. split.
  - intros Hnz. unfold Pointer.storedWidth at 1. rewrite lookup_insert_eq.
    unfold Num.truthy. apply Qeq_bool_false in Hnz. rewrite Hnz. reflexivity.
  - intros j Hj. unfold Pointer.storedWidth.
    rewrite lookup_insert_ne by congruence. reflexivity.
Qed.

(** C7.  A press on the right border of the first column of the
    demonstration table (declared width 100) and a move of 30 to the right:
    the component is resizing column 0 before and after, the [state] ref
    records 150 + 30, and the resolved width of the column is 100 before
    and after. *)
Theorem resize_move_leaves_the_rendered_width :
  let down := {| Pointer.offsetX := 100; Pointer.offsetY := 10;
                 Pointer.clientX := 100; Pointer.clientY := 10 |} in
  let move := {| Pointer.offsetX := 130; Pointer.offsetY := 10;
                 Pointer.clientX := 130; Pointer.clientY := 10 |} in
  let s1 := Pointer.handleMouseDown monospace demo demoDom down
              (mounted 800) in
  isResizing s1 = true
  /\ resizingColumn s1 = Some 0%nat
  /\ Widths.widthAt (Widths.columnWidths (Some monospace) demo demoDom s1)
       0 == 100
  /\ exists s2,
       Pointer.handleMouseMove monospace demo demoDom move s1 = Hit.Ok s2
       /\ isResizing s2 = true
       /\ resizingColumn s2 = Some 0%nat
       /\ Pointer.offsetX move - startX s1 == 30
       /\ Widths.widthAt (state_columnWidths s2) 0 == 180
       /\ Widths.widthAt (Widths.columnWidths (Some monospace) demo demoDom
                            s2) 0 == 100.
Proof.
  cbv zeta.
  split; [vm_compute; reflexivity|].
  split; [vm_compute; reflexivity|].
  split; [vm_compute; reflexivity|].
  eexists. split; [vm_compute; reflexivity|].
  repeat split; vm_compute; reflexivity.
Qed.

(** * Further properties *)

(** ** The pieces of a cell text *)

Lemma split_from_concat (word text : jsstring) :
  concat (Text.split_from word text) = word ++ text.
Proof.
  revert word. induction text as [|c rest IH]; intros word.
  - simpl. rewrite !app_nil_r. reflexivity.
  - cbn [Text.split_from]. destruct rest as [|d rest'].
    + simpl. rewrite app_nil_r. reflexivity.
    + destruct (Text.boundary c d).
      * cbn [concat]. rewrite IH. rewrite <- app_assoc. reflexivity.
      * rewrite IH, <- app_assoc. reflexivity.
Qed.

Lemma unbroken_snoc (word : jsstring) (b c : jschar) :
  unbroken (word ++ [b]) -> Text.boundary b c = false ->
  unbroken ((word ++ [b]) ++ [c]).
Proof.
  intros Hw Hbc i x y Hx Hy. unfold jsstring, jschar in *.
  destruct (decide (S i < length (word ++ [b]))%nat) as [Hlt|Hge].
  - rewrite lookup_app_l in Hx by lia. rewrite lookup_app_l in Hy by lia.
    apply (Hw i x y Hx Hy).
  - assert (Hi : S i = length (word ++ [b])).
    { apply lookup_lt_Some in Hy. rewrite length_app in Hy. simpl in Hy.
      lia. }
    rewrite lookup_app_l in Hx by lia.
    rewrite lookup_app_r in Hy by lia.
    rewrite Hi, Nat.sub_diag in Hy. injection Hy as <-.
    rewrite length_app in Hi. simpl in Hi.
    rewrite lookup_app_r in Hx by lia.
    replace (i - length word)%nat with 0%nat in Hx by lia.
    injection Hx as <-. exact Hbc.
Qed.

Lemma unbroken_single (c : jschar) : unbroken [c].
Proof. intros [|i] x y Hx Hy; simpl in Hy; discriminate. Qed.

Lemma split_from_pieces (word text : jsstring) (b : jschar) :
  unbroken (word ++ [b]) ->
  Forall (fun piece => piece <> [] /\ unbroken piece)
         (match text with
          | [] => [word ++ [b]]
          | c :: _ =>
              if Text.boundary b c
              then (word ++ [b]) :: Text.split_from [] text
              else Text.split_from (word ++ [b]) text
          end).
Proof.
  revert word b. induction text as [|c rest IH]; intros word b Hw.
  - constructor; [|constructor]. split; [|exact Hw].
    destruct word; discriminate.
  - destruct (Text.boundary b c) eqn:Hbc.
    + constructor; [split; [destruct word; discriminate | exact Hw]|].
      cbn [Text.split_from].
      apply (IH [] c). apply unbroken_single.
    + cbn [Text.split_from].
      apply (IH (word ++ [b]) c). apply unbroken_snoc; assumption.
Qed.

(** X1.  The split of a cell text loses nothing: the pieces, put end to
    end, give the text back; no piece of a non-empty text is empty; and no
    piece has an ideograph or a space next to another code unit, so an
    ideograph or a space is a piece of its own. *)
Theorem split_pieces (text : jsstring) :
  concat (Text.split text) = text
  /\ (text = [] -> Text.split text = [[]])
  /\ (text <> [] ->
      Forall (fun piece => piece <> [] /\ unbroken piece) (Text.split text))
  /\ forall piece c,
       piece ∈ Text.split text -> c ∈ piece ->
       Text.isCJK c || Text.isSpace c = true -> piece = [c].
Proof.
  assert (Hpieces : text <> [] ->
            Forall (fun piece => piece <> [] /\ unbroken piece)
                   (Text.split text)).
  { intros Hne. destruct text as [|b rest]; [congruence|].
    unfold Text.split. cbn [Text.split_from].
    pose proof (split_from_pieces [] rest b (unbroken_single b)) as H.
    destruct rest as [|c rest']; exact H. }
  split; [apply (split_from_concat [] text)|].
  split; [intros ->; reflexivity|].
  split; [exact Hpieces|].
  intros piece c Hpiece Hc Hkind.
  destruct text as [|b rest].
  { unfold Text.split in Hpiece. simpl in Hpiece.
    apply list_elem_of_singleton in Hpiece. subst piece. inversion Hc. }
  specialize (Hpieces ltac:(discriminate)).
  rewrite Forall_forall in Hpieces.
  destruct (Hpieces piece Hpiece) as [_ Hun].
  apply list_elem_of_lookup in Hc as [i Hi].
  assert (Hkind' : forall x,
            Text.boundary c x = true /\ Text.boundary x c = true).
  { intros x. unfold Text.boundary.
    apply orb_true_iff in Hkind as [H|H]; rewrite H;
      rewrite ?orb_true_r; split; reflexivity. }
  destruct i as [|i].
  - destruct piece as [|c' [|d piece']]; [discriminate| |].
    + simpl in Hi. injection Hi as ->. reflexivity.
    + simpl in Hi. injection Hi as ->.
      specialize (Hun 0%nat c d eq_refl eq_refl).
      destruct (Hkind' d) as [H _]. congruence.
  - destruct (piece !! i) as [a|] eqn:Ha.
    + specialize (Hun i a c Ha Hi).
      destruct (Hkind' a) as [_ H]. congruence.
    + apply lookup_ge_None in Ha. apply lookup_lt_Some in Hi. lia.
Qed.

(** ** The wrap loop *)

(** What the loop keeps: the collected lines and the current line put end
    to end are the text seen so far, and every collected line fits the
    width or is a single piece, unless the loop was left at the line
    limit. *)
Lemma wrapLoop_keeps (fuel : nat) (context : Context) (maxWidth maxLines : Q)
    (words todo lines lines' : list jsstring)
    (currentLine currentLine' : jsstring) :
  let ok := fun line => context line <= maxWidth \/ line ∈ words in
  (forall word, word ∈ todo -> word ∈ words) ->
  Forall ok lines ->
  currentLine = [] \/ ok currentLine ->
  Text.wrapLoop fuel context maxWidth maxLines words todo lines currentLine
  = Some (lines', currentLine') ->
  Forall ok lines'
  /\ (Num.leb maxLines (Num.of_nat (length lines')) = true
      \/ ((currentLine' = [] \/ ok currentLine')
          /\ concat lines' ++ currentLine'
             = concat lines ++ currentLine ++ concat todo)).
Proof.
  intros ok. revert lines currentLine.
  induction todo as [|word todo IH]; intros lines currentLine Hin Hlines Hcur
    Hloop.
  - simpl in Hloop. injection Hloop as <- <-.
    split; [exact Hlines|]. right. split; [exact Hcur|].
    simpl. rewrite app_nil_r. reflexivity.
  - cbn [Text.wrapLoop] in Hloop.
    assert (Hword : word ∈ words) by (apply Hin; left).
    assert (Hin' : forall w, w ∈ todo -> w ∈ words)
      by (intros w Hw; apply Hin; right; exact Hw).
    destruct (Num.gtb (context (currentLine ++ word)) maxWidth) eqn:Hwide;
      [destruct (nonempty currentLine) eqn:Hne|]; cbn [andb] in Hloop.
    + assert (Hpush : Forall ok (lines ++ [currentLine])).
      { apply Forall_app. split; [exact Hlines|].
        constructor; [|constructor].
        destruct Hcur as [->|H]; [discriminate | exact H]. }
      destruct (Num.leb maxLines (Num.of_nat (length (lines ++ [currentLine]))))
        eqn:Hfull.
      * destruct (_ <? _)%nat.
        -- destruct (Text.trim fuel context maxWidth word); [|discriminate].
           injection Hloop as <- <-. split; [exact Hpush|]. left. exact Hfull.
        -- injection Hloop as <- <-. split; [exact Hpush|]. left. exact Hfull.
      * destruct (IH _ _ Hin' Hpush ltac:(right; right; exact Hword) Hloop)
          as (Hok & Hrest).
        split; [exact Hok|].
        destruct Hrest as [Hfull'|(Hcur' & Hcat)]; [left; exact Hfull'|].
        right. split; [exact Hcur'|]. rewrite Hcat.
        rewrite concat_app. simpl. rewrite app_nil_r, <- !app_assoc.
        reflexivity.
    + assert (currentLine = []) as ->
        by (destruct currentLine; [reflexivity | discriminate]).
      destruct (IH _ _ Hin' Hlines ltac:(right; right; exact Hword) Hloop)
        as (Hok & Hrest).
      split; [exact Hok|].
      destruct Hrest as [Hfull'|(Hcur' & Hcat)]; [left; exact Hfull'|].
      right. split; [exact Hcur'|]. rewrite Hcat. reflexivity.
    + apply gtb_false in Hwide.
      destruct (IH _ _ Hin' Hlines ltac:(right; left; exact Hwide) Hloop)
        as (Hok & Hrest).
      split; [exact Hok|].
      destruct Hrest as [Hfull'|(Hcur' & Hcat)]; [left; exact Hfull'|].
      right. split; [exact Hcur'|]. rewrite Hcat.
      simpl. rewrite <- !app_assoc. reflexivity.
Qed.

Lemma wrapCell_keeps (fuel : nat) (context : Context) (rowHeight width : Q)
    (text : jsstring) (lines : list jsstring) :
  Text.wrapCell fuel context rowHeight width text = Some lines ->
  Forall (fun line => context line <= width - Text.padding * 2
                      \/ line ∈ Text.split text) lines
  /\ (Num.of_nat (length lines) < Text.maxLines rowHeight ->
      concat lines = text).
Proof.
  unfold Text.wrapCell.
  destruct (Text.wrapLoop _ _ _ _ _ _ _ _) as [[ls cur]|] eqn:Hloop;
    [|discriminate].
  apply wrapLoop_keeps in Hloop as (Hok & Hrest);
    [|auto|constructor|left; reflexivity].
  destruct (nonempty cur) eqn:Hne; cbn [andb].
  - destruct (Num.ltb (Num.of_nat (length ls)) (Text.maxLines rowHeight))
      eqn:Hlt; intros [= <-].
    + apply ltb_true in Hlt.
      destruct Hrest as [Hfull|([->|Hcur] & Hcat)].
      * apply Qle_bool_iff in Hfull. lra.
      * discriminate.
      * split.
        -- apply Forall_app. split; [exact Hok|]. constructor; [exact Hcur|].
           constructor.
        -- intros _. rewrite concat_app. simpl. rewrite app_nil_r, Hcat.
           simpl. apply (split_from_concat [] text).
    + split; [exact Hok|]. intros Hlt'. apply ltb_false in Hlt. lra.
  - intros [= <-]. split; [exact Hok|]. intros Hlt.
    destruct Hrest as [Hfull|(_ & Hcat)].
    + apply Qle_bool_iff in Hfull. lra.
    + destruct cur; [|discriminate]. rewrite app_nil_r in Hcat.
      rewrite Hcat. simpl. apply (split_from_concat [] text).
Qed.

(** The loop collects whole pieces: every collected line is a group of
    consecutive pieces, of one piece or fitting the width, and so is the
    current line unless the loop was left at the line limit. *)
Lemma wrapLoop_groups (fuel : nat) (context : Context) (maxWidth maxLines : Q)
    (words : list jsstring) :
  let ok := fun group : list jsstring =>
              group <> []
              /\ (length group = 1%nat
                  \/ context (concat group) <= maxWidth) in
  forall (todo : list jsstring) (groups : list (list jsstring))
         (group : list jsstring) (lines' : list jsstring)
         (currentLine' : jsstring),
    Forall (fun word => word <> []) todo ->
    Forall (fun word => word <> []) group ->
    Forall ok groups ->
    group = [] \/ ok group ->
    Text.wrapLoop fuel context maxWidth maxLines words todo
      (map (@concat jschar) groups) (concat group)
    = Some (lines', currentLine') ->
    exists groups',
      lines' = map (@concat jschar) groups'
      /\ Forall ok groups'
      /\ concat groups' `prefix_of` concat groups ++ group ++ todo
      /\ (Num.leb maxLines (Num.of_nat (length lines')) = true
          \/ exists group',
               currentLine' = concat group'
               /\ (group' = [] \/ ok group')
               /\ concat groups' ++ group' = concat groups ++ group ++ todo).
Proof.
  intros ok. unfold jsstring, jschar in *.
  induction todo as [|word todo IH];
    intros groups group lines' currentLine' Htodo Hgroup Hgroups Hcur Hloop.
  - cbn [Text.wrapLoop] in Hloop. injection Hloop as <- <-.
    exists groups. split; [reflexivity|]. split; [exact Hgroups|].
    split; [rewrite app_nil_r; apply prefix_app_r; reflexivity|].
    right. exists group. split; [reflexivity|].
    split; [exact Hcur | rewrite app_nil_r; reflexivity].
  - cbn [Text.wrapLoop] in Hloop. unfold jsstring, jschar in *.
    apply Forall_cons in Htodo as [Hword Htodo].
    assert (Hempty : nonempty (concat group) = false -> group = []).
    { destruct group as [|w group']; [reflexivity|].
      apply Forall_cons in Hgroup as [Hw _].
      destruct w; [congruence | discriminate]. }
    assert (Hsnoc : concat (group ++ [word]) = concat group ++ word)
      by (rewrite concat_app; simpl; rewrite app_nil_r; reflexivity).
    assert (Hshift : forall gs : list (list jsstring),
              concat (gs ++ [group]) ++ [word] ++ todo
              = concat gs ++ group ++ word :: todo).
    { intros gs. rewrite concat_app. simpl.
      rewrite app_nil_r, <- !app_assoc. reflexivity. }
    destruct (Num.gtb (context (concat group ++ word)) maxWidth) eqn:Hwide;
      [destruct (nonempty (concat group)) eqn:Hne|]; cbn [andb] in Hloop.
    + assert (Hok : ok group).
      { destruct Hcur as [->|H]; [discriminate | exact H]. }
      assert (Hpush : Forall ok (groups ++ [group])).
      { apply Forall_app. split; [exact Hgroups|].
        constructor; [exact Hok | constructor]. }
      assert (Hmap : map (@concat N) groups ++ [concat group]
                     = map (@concat N) (groups ++ [group]))
        by (rewrite map_app; reflexivity).
      rewrite Hmap in Hloop.
      destruct (Num.leb maxLines
                  (Num.of_nat (length (map (@concat N) (groups ++ [group])))))
        eqn:Hfull.
      * assert (Hdone : forall cur,
                  Some (map (@concat N) (groups ++ [group]), cur)
                  = Some (lines', currentLine') ->
                  exists groups',
                    lines' = map (@concat N) groups'
                    /\ Forall ok groups'
                    /\ concat groups'
                       `prefix_of` concat groups ++ group ++ word :: todo
                    /\ (Num.leb maxLines (Num.of_nat (length lines')) = true
                        \/ exists group',
                             currentLine' = concat group'
                             /\ (group' = [] \/ ok group')
                             /\ concat groups' ++ group'
                                = concat groups ++ group ++ word :: todo)).
        { intros cur H. injection H as <- <-.
          exists (groups ++ [group]). split; [reflexivity|].
          split; [exact Hpush|]. split; [|left; exact Hfull].
          exists (word :: todo). symmetry. apply Hshift. }
        destruct (_ <? _)%nat.
        -- destruct (Text.trim fuel context maxWidth word);
             [|discriminate].
           apply (Hdone _ Hloop).
        -- apply (Hdone _ Hloop).
      * assert (Hw : word = concat [word])
          by (simpl; rewrite app_nil_r; reflexivity).
        rewrite Hw in Hloop.
        destruct (IH (groups ++ [group]) [word] lines' currentLine' Htodo
                    ltac:(constructor; [exact Hword | constructor])
                    Hpush
                    ltac:(right; split; [discriminate | left; reflexivity])
                    Hloop)
          as (groups' & Hlines & Hoks & Hpre & Hrest).
        rewrite Hshift in Hpre.
        exists groups'. split; [exact Hlines|]. split; [exact Hoks|].
        split; [exact Hpre|].
        destruct Hrest as [Hfull'|(group' & Hc & Hg & Hcat)];
          [left; exact Hfull'|].
        right. exists group'. split; [exact Hc|]. split; [exact Hg|].
        rewrite Hcat. apply Hshift.
    + specialize (Hempty eq_refl). subst group. cbn [concat app] in Hloop.
      assert (Hw : word = concat [word])
        by (simpl; rewrite app_nil_r; reflexivity).
      rewrite Hw in Hloop.
      destruct (IH groups [word] lines' currentLine' Htodo
                  ltac:(constructor; [exact Hword | constructor])
                  Hgroups
                  ltac:(right; split; [discriminate | left; reflexivity])
                  Hloop)
        as (groups' & Hlines & Hoks & Hpre & Hrest).
      exists groups'. split; [exact Hlines|]. split; [exact Hoks|].
      split; [exact Hpre|]. exact Hrest.
    + apply gtb_false in Hwide. rewrite <- Hsnoc in Hloop, Hwide.
      destruct (IH groups (group ++ [word]) lines' currentLine' Htodo
                  ltac:(apply Forall_app; split;
                        [exact Hgroup | constructor;
                                        [exact Hword | constructor]])
                  Hgroups
                  ltac:(right; split;
                        [destruct group; discriminate | right; exact Hwide])
                  Hloop)
        as (groups' & Hlines & Hoks & Hpre & Hrest).
      assert (Hassoc : concat groups ++ (group ++ [word]) ++ todo
                       = concat groups ++ group ++ word :: todo)
        by (rewrite <- !app_assoc; reflexivity).
      rewrite Hassoc in Hpre, Hrest.
      exists groups'. split; [exact Hlines|]. split; [exact Hoks|].
      split; [exact Hpre | exact Hrest].
Qed.

(** X2.  Wrapping never cuts a piece of the split text: every line of a
    wrapped cell is made of whole consecutive pieces, the lines taking the
    pieces in their order from the first on; and a line of several pieces
    fits the width the cell leaves, so that a line is wider only if it is
    a single piece. *)
Theorem wrapCell_lines_are_whole_pieces (fuel : nat) (context : Context)
    (rowHeight width : Q) (text : jsstring) (lines : list jsstring) :
  Text.wrapCell fuel context rowHeight width text = Some lines ->
  exists groups : list (list jsstring),
    lines = map (@concat jschar) groups
    /\ concat groups `prefix_of` Text.split text
    /\ Forall (fun group =>
                 group <> []
                 /\ (length group = 1%nat
                     \/ context (concat group)
                        <= width - Text.padding * 2)) groups.
Proof.
  destruct text as [|b rest].
  { unfold Text.wrapCell, Text.split. cbn [Text.split_from Text.wrapLoop].
    cbn [nonempty andb app]. rewrite andb_false_r. cbn [nonempty andb].
    intros [= <-]. exists []. split; [reflexivity|].
    split; [apply prefix_nil | constructor]. }
  unfold Text.wrapCell.
  destruct (Text.wrapLoop _ _ _ _ _ _ _ _) as [[ls cur]|] eqn:Hloop;
    [|discriminate].
  assert (Hpieces : Forall (fun word : jsstring => word <> [])
                      (Text.split (b :: rest))).
  { unfold Text.split. cbn [Text.split_from].
    pose proof (split_from_pieces [] rest b (unbroken_single b)) as H.
    assert (Hall : Forall (fun piece => piece <> [] /\ unbroken piece)
                     (Text.split_from [] (b :: rest)))
      by (cbn [Text.split_from]; destruct rest; exact H).
    cbn [Text.split_from] in Hall.
    eapply Forall_impl; [exact Hall|]. intros piece [Hne _]. exact Hne. }
  destruct (wrapLoop_groups fuel context (width - Text.padding * 2)
              (Text.maxLines rowHeight) (Text.split (b :: rest))
              (Text.split (b :: rest)) [] [] ls cur Hpieces
              ltac:(constructor) ltac:(constructor)
              ltac:(left; reflexivity) Hloop)
    as (groups & -> & Hoks & Hpre & Hrest).
  cbn [concat app] in Hpre, Hrest.
  destruct (nonempty cur && Num.ltb _ (Text.maxLines rowHeight)) eqn:Hpush;
    intros [= <-].
  - apply andb_true_iff in Hpush as [Hne Hlt]. apply ltb_true in Hlt.
    destruct Hrest as [Hfull|(group & -> & Hg & Hcat)].
    { apply Qle_bool_iff in Hfull. lra. }
    destruct Hg as [->|Hok]; [discriminate|].
    exists (groups ++ [group]). split; [rewrite map_app; reflexivity|].
    split.
    + rewrite concat_app. simpl. rewrite app_nil_r, Hcat. reflexivity.
    + apply Forall_app. split; [exact Hoks|].
      constructor; [exact Hok | constructor].
  - exists groups. split; [reflexivity|]. split; [exact Hpre | exact Hoks].
Qed.

Lemma wrapCell_lines_are_whole_pieces_witness :
  exists groups : list (list jsstring),
    [js "abcdefghij"; js " k"] = map (@concat jschar) groups
    /\ concat groups `prefix_of` Text.split (js "abcdefghij k")
    /\ Forall (fun group =>
                 group <> []
                 /\ (length group = 1%nat
                     \/ monospace (concat group) <= 70 - Text.padding * 2))
              groups.
Proof.
  apply (wrapCell_lines_are_whole_pieces 100 monospace 6000 70
           (js "abcdefghij k") [js "abcdefghij"; js " k"]).
  vm_compute. reflexivity.
Defined.

(** X3.  Wrapping loses nothing of a text that takes fewer lines than the
    cell has room for: the lines, put end to end, are the text. *)
Theorem wrapCell_keeps_the_text (fuel : nat) (context : Context)
    (rowHeight width : Q) (text : jsstring) (lines : list jsstring) :
  Text.wrapCell fuel context rowHeight width text = Some lines ->
  Num.of_nat (length lines) < Text.maxLines rowHeight ->
  concat lines = text.
Proof.
  intros Hwrap.
  apply (wrapCell_keeps fuel context rowHeight width text lines Hwrap).
Qed.

Lemma wrapCell_keeps_the_text_witness :
  concat [js "aaaa "; js "bbbb "; js "cccc "; js "dddd "; js "eeee"]
  = js "aaaa bbbb cccc dddd eeee".
Proof.
  apply (wrapCell_keeps_the_text 100 monospace 6000 70
           (js "aaaa bbbb cccc dddd eeee")
           [js "aaaa "; js "bbbb "; js "cccc "; js "dddd "; js "eeee"]).
  - vm_compute. reflexivity.
  - vm_compute. reflexivity.
Defined.

(** ** The two truncations *)

Lemma search_range (measure : Context) (text : jsstring) (maxWidth : Q)
    (lft rgt : nat) :
  (lft <= rgt)%nat ->
  (lft <= Text.search measure text maxWidth lft rgt <= rgt)%nat.
Proof.
  funelim (Text.search measure text maxWidth lft rgt); intros Hle.
  - clear Heqcall Heq.
    set (mid := ((lft + rgt + 1) / 2)%nat) in *.
    assert (Hlo : (lft < mid)%nat)
      by (apply Nat.div_le_lower_bound; lia).
    assert (Hhi : (mid <= rgt)%nat)
      by (apply Nat.Div0.div_le_upper_bound; lia).
    destruct (Qle_bool _ maxWidth).
    + specialize (H Hhi). lia.
    + specialize (H0 ltac:(lia)). lia.
  - lia.
Qed.

(** The search ends on its lower bound when no longer prefix fits. *)
Lemma search_nothing_fits (measure : Context) (text : jsstring)
    (maxWidth : Q) (lft rgt : nat) :
  (forall j, (lft < j <= rgt)%nat -> ~ Text.fits measure text maxWidth j) ->
  Text.search measure text maxWidth lft rgt = lft.
Proof.
  funelim (Text.search measure text maxWidth lft rgt); intros Hnone.
  - clear Heqcall Heq.
    set (mid := ((lft + rgt + 1) / 2)%nat) in *.
    assert (Hlo : (lft < mid)%nat)
      by (apply Nat.div_le_lower_bound; lia).
    assert (Hhi : (mid <= rgt)%nat)
      by (apply Nat.Div0.div_le_upper_bound; lia).
    destruct (Qle_bool (measure (substring0 mid text ++ ellipsis)) maxWidth)
      eqn:Htest.
    + exfalso. apply (Hnone mid); [lia|].
      unfold Text.fits. apply Qle_bool_iff. exact Htest.
    + apply H0. intros j Hj. apply Hnone. lia.
  - reflexivity.
Qed.

(** X4.  When even the bare ellipsis is wider than [maxWidth], the
    truncation of a text that does not fit is the bare ellipsis, which
    does not fit either: the binary search ends on the empty prefix. *)
Theorem getEllipsisText_bare_ellipsis (measure : Context) (text : jsstring)
    (maxWidth : Q) :
  monotonic measure ->
  maxWidth < measure ellipsis ->
  Text.getEllipsisText measure text maxWidth
  = (if Qle_bool (measure text) maxWidth then text else ellipsis).
Proof.
  intros Hmono Hwide. unfold Text.getEllipsisText.
  destruct (Qle_bool (measure text) maxWidth); [reflexivity|].
  rewrite search_nothing_fits; [reflexivity|].
  intros j _ Hfit. unfold Text.fits in Hfit.
  pose proof (Hmono text 0%nat j ltac:(lia)) as H.
  unfold substring0 in H at 1. simpl in H. lra.
Qed.

Lemma getEllipsisText_bare_ellipsis_witness :
  Text.getEllipsisText monospace (js "abc") 20
  = (if Qle_bool (monospace (js "abc")) 20 then js "abc" else ellipsis).
Proof.
  apply (getEllipsisText_bare_ellipsis monospace (js "abc") 20).
  - exact monospace_monotonic.
  - reflexivity.
Defined.

Lemma slice_init_take (k : nat) (text : jsstring) :
  (k <= length text)%nat ->
  slice_init (take k text) = take (k - 1) text.
Proof.
  intros Hk. unfold slice_init. rewrite length_take, Nat.min_l by lia.
  rewrite take_take. f_equal. lia.
Qed.

(** The trim loop walks down from the whole line to the longest prefix
    that fits. *)
Lemma trim_walks_down (context : Context) (maxWidth : Q) (text : jsstring)
    (best : nat) :
  Text.fits context text maxWidth best ->
  (forall j, Text.fits context text maxWidth j -> (j <= length text)%nat ->
             (j <= best)%nat) ->
  forall (n k : nat),
    (best <= k <= length text)%nat -> (k - best < n)%nat ->
    Text.trim n context maxWidth (take k text) = Some (take best text).
Proof.
  intros Hfit Hmax n. induction n as [|n IH]; intros k Hk Hn; [lia|].
  cbn [Text.trim].
  destruct (Num.gtb (context (take k text ++ ellipsis)) maxWidth) eqn:Htest.
  - apply gtb_true in Htest.
    assert (Hne : k <> best).
    { intros ->. unfold Text.fits, substring0 in Hfit. lra. }
    rewrite slice_init_take by lia.
    apply IH; lia.
  - apply gtb_false in Htest.
    assert (k <= best)%nat by (apply Hmax; [exact Htest | lia]).
    assert (k = best) as -> by lia. reflexivity.
Qed.

(** X5.  The trim loop of the wrap branch and the binary search of
    [getEllipsisText] keep the same prefix: for monotonic widths and a
    [maxWidth] the ellipsis fits in, the loop leaves a line after at most
    one test per code unit and one more, with the prefix the search ends
    on, so that a line too wide for [maxWidth] is cut by both to the same
    text. *)
Theorem trim_agrees_with_search (context : Context) (maxWidth : Q)
    (line : jsstring) :
  monotonic context ->
  context ellipsis <= maxWidth ->
  Text.trim (S (length line)) context maxWidth line
  = Some (substring0 (Text.search context line maxWidth 0 (length line)) line)
  /\ (maxWidth < context line ->
      forall kept,
        Text.trim (S (length line)) context maxWidth line = Some kept ->
        Text.getEllipsisText context line maxWidth = kept ++ ellipsis).
Proof.
  intros Hmono Hell.
  destruct (search_spec context line maxWidth 0 (length line) Hmono)
    as (Hk & Hfk & Hmax); [lia | exact Hell | intros j Hj Hlen; lia |].
  assert (Htrim : Text.trim (S (length line)) context maxWidth line
                  = Some (substring0 (Text.search context line maxWidth 0
                                        (length line)) line)).
  { rewrite <- (firstn_all line) at 2.
    apply trim_walks_down; [exact Hfk | exact Hmax | lia | lia]. }
  split; [exact Htrim|].
  intros Hwide kept Hkept. rewrite Htrim in Hkept. injection Hkept as <-.
  unfold Text.getEllipsisText.
  destruct (Qle_bool (context line) maxWidth) eqn:Htest; [|reflexivity].
  apply Qle_bool_iff in Htest. lra.
Qed.

Lemma trim_agrees_with_search_witness :
  Text.trim 11 monospace 70 (js "abcdefghij") = Some (js "abcd")
  /\ (70 < monospace (js "abcdefghij") ->
      forall kept,
        Text.trim 11 monospace 70 (js "abcdefghij") = Some kept ->
        Text.getEllipsisText monospace (js "abcdefghij") 70
        = kept ++ ellipsis).
Proof.
  assert (E : Text.search monospace (js "abcdefghij") 70 0 10 = 4%nat)
    by (vm_compute; reflexivity).
  pose proof (trim_agrees_with_search monospace 70 (js "abcdefghij")
                monospace_monotonic ltac:(vm_compute; discriminate)) as H.
  change (length (js "abcdefghij")) with 10%nat in H.
  rewrite E in H. exact H.
Defined.

(** ** The total width *)

Lemma foldl_sum {A : Type} (g : A -> Q) (l : list A) (acc : Q) :
  foldl (fun sum a => sum + g a) acc l
  == acc + foldr (fun a rest => g a + rest) 0 l.
Proof.
  revert acc. induction l as [|a l IH]; intros acc; simpl.
  - lra.
  - rewrite IH. lra.
Qed.

Lemma span_sum (widths : gmap nat Q) (f : Column -> Q) (cols : list Column)
    (k : nat) :
  (forall i c, cols !! i = Some c ->
               Widths.widthAt widths (k + i) == f c) ->
  Hit.span widths k (length cols)
  == foldr (fun c rest => f c + rest) 0 cols.
Proof.
  revert k. induction cols as [|c cols IH]; intros k Hw;
    cbn [length Hit.span foldr]; [reflexivity|].
  rewrite (IH (S k)).
  - pose proof (Hw 0%nat c eq_refl) as H0. rewrite Nat.add_0_r in H0.
    rewrite H0. reflexivity.
  - intros i c' Hi. replace (S k + i)%nat with (k + S i)%nat by lia.
    apply Hw. exact Hi.
Qed.

Lemma flexible_sum (r : Column -> Q) (extra : Q) (cols : list Column) :
  foldr (fun c rest =>
           (if Widths.isFlexible c then r c + extra else r c) + rest) 0 cols
  == foldr (fun c rest => r c + rest) 0 cols
     + Num.of_nat (length (filter (fun c => Widths.isFlexible c = true) cols))
       * extra.
Proof.
  induction cols as [|c cols IH]; cbn [foldr].
  - rewrite filter_nil. cbn [length]. unfold Num.of_nat.
    change (inject_Z (Z.of_nat 0)) with 0. lra.
  - rewrite IH, filter_cons.
    destruct (Widths.isFlexible c) eqn:E.
    + destruct (decide (true = true)); [|congruence].
      cbn [length]. unfold Num.of_nat. rewrite Nat2Z.inj_succ.
      unfold Z.succ. rewrite inject_Z_plus. change (inject_Z 1) with 1.
      lra.
    + destruct (decide (false = true)); [congruence|]. lra.
Qed.

(** The total width is what the first pass reserves, plus the shares of
    the slack. *)
Lemma totalWidth_sum (context : Context) (p : Props) (d : Dom) (s : Comp) :
  let sum := Widths.reservedSum p d s context in
  let slack := Widths.availableWidth p d s - sum in
  Widths.totalWidth context p d s
  == if (0 <? Widths.flexibleCount p)%nat
        && Num.ltb sum (Widths.availableWidth p d s)
     then sum + Num.of_nat (Widths.flexibleCount p)
                * Widths.extraPerColumn slack (Widths.flexibleCount p)
     else sum.
Proof.
  intros sum slack. rewrite totalWidth_span.
  set (cond := (0 <? Widths.flexibleCount p)%nat
               && Num.ltb sum (Widths.availableWidth p d s)).
  set (extra := Widths.extraPerColumn slack (Widths.flexibleCount p)).
  rewrite (span_sum _
             (fun c => if cond && Widths.isFlexible c
                       then Widths.reserved p d s context c + extra
                       else Widths.reserved p d s context c)).
  - assert (Hsum : sum == foldr (fun c rest =>
                                   Widths.reserved p d s context c + rest)
                                0 (columns p)).
    { unfold sum, Widths.reservedSum. rewrite foldl_sum. lra. }
    destruct cond; cbn [andb].
    + rewrite (flexible_sum (Widths.reserved p d s context) extra).
      rewrite <- Hsum. reflexivity.
    + rewrite <- Hsum. reflexivity.
  - intros i c Hi. unfold Widths.widthAt. cbn [Nat.add].
    rewrite (columnWidths_lookup p d s context i c Hi). reflexivity.
Qed.

Lemma scrollbarReserve_nonneg (p : Props) (d : Dom) :
  0 <= scrollbarReserve p d.
Proof. unfold scrollbarReserve. destruct (showScrollbar p d); lra. Qed.

Lemma floor_share (slack : Q) (n : nat) :
  (0 < n)%nat ->
  slack - Num.of_nat n < Num.of_nat n * Widths.extraPerColumn slack n
  /\ Num.of_nat n * Widths.extraPerColumn slack n <= slack.
Proof.
  intros Hn. unfold Widths.extraPerColumn, Num.floor.
  assert (Hpos : 0 < Num.of_nat n).
  { unfold Num.of_nat. change 0 with (inject_Z 0). rewrite <- Zlt_Qlt. lia. }
  pose proof (Qfloor_le (slack / Num.of_nat n)) as Hle.
  pose proof (Qlt_floor (slack / Num.of_nat n)) as Hlt.
  rewrite inject_Z_plus in Hlt. change (inject_Z 1) with 1 in Hlt.
  set (f := inject_Z (Qfloor (slack / Num.of_nat n))) in *.
  assert (Hdiv : Num.of_nat n * (slack / Num.of_nat n) == slack)
    by (field; lra).
  split.
  - assert (Num.of_nat n * (slack / Num.of_nat n)
            < Num.of_nat n * (f + 1)).
    { apply Qmult_lt_l; assumption. }
    lra.
  - assert (Num.of_nat n * f <= Num.of_nat n * (slack / Num.of_nat n)).
    { apply Qmult_le_l; assumption. }
    lra.
Qed.

(** X6.  For whole widths (the container width, the reserved widths and
    their sum are whole numbers, so that the resolver's floating-point
    arithmetic is exact): when there is a flexible column and the reserved
    widths leave slack, the columns fill the available width up to the
    rounding of the shares: the total width is at most the available width
    and misses it by less than one unit per flexible column.  Otherwise
    the total width is the sum of the reserved widths. *)
Theorem totalWidth_fills_the_container (context : Context) (p : Props)
    (d : Dom) (s : Comp) :
  Widths.exact context p d s = true ->
  let sum := Widths.reservedSum p d s context in
  let available := Widths.availableWidth p d s in
  let total := Widths.totalWidth context p d s in
  ((0 < Widths.flexibleCount p)%nat -> sum < available ->
   available - Num.of_nat (Widths.flexibleCount p) < total
   /\ total <= available)
  /\ ((Widths.flexibleCount p = 0)%nat \/ available <= sum -> total == sum).
Proof.
  intros _ sum available total.
  pose proof (totalWidth_sum context p d s) as Htotal. cbv zeta in Htotal.
  fold sum available total in Htotal.
  split.
  - intros Hn Hslack.
    assert ((0 <? Widths.flexibleCount p)%nat = true) as Hc
      by (apply Nat.ltb_lt; exact Hn).
    assert (Num.ltb sum available = true) as Hl
      by (apply ltb_true; exact Hslack).
    rewrite Hc, Hl in Htotal. cbn [andb] in Htotal.
    destruct (floor_share (available - sum) (Widths.flexibleCount p) Hn).
    lra.
  - intros [Hn|Hfull].
    + rewrite Hn in Htotal. exact Htotal.
    + assert (Num.ltb sum available = false) as Hl
        by (apply ltb_false; exact Hfull).
      rewrite Hl, andb_false_r in Htotal. exact Htotal.
Qed.

(** The demonstration table in a container of 800: one flexible column,
    which takes all the slack. *)
Lemma totalWidth_fills_the_container_witness :
  Widths.availableWidth demo demoDom (mounted 800)
  - Num.of_nat (Widths.flexibleCount demo)
  < Widths.totalWidth monospace demo demoDom (mounted 800)
  /\ Widths.totalWidth monospace demo demoDom (mounted 800)
     <= Widths.availableWidth demo demoDom (mounted 800).
Proof.
  destruct (totalWidth_fills_the_container monospace demo demoDom
              (mounted 800)) as [Hslack _].
  - vm_compute. reflexivity.
  - apply Hslack; [vm_compute; lia | vm_compute; reflexivity].
Defined.

(** X7.  For whole widths (the container width, the reserved widths and
    their sum are whole numbers, so that the resolver's floating-point
    arithmetic is exact), the horizontal scrollbar is shown exactly when
    the widths the first pass reserves (the declared and the measured
    minimum widths) sum to more than the container width: sharing out the
    slack never makes the table overflow, and the room the vertical
    scrollbar takes is not counted. *)
Theorem showHorizontalScrollbar_iff (context : Context) (p : Props) (d : Dom)
    (s : Comp) :
  Widths.exact context p d s = true ->
  (Widths.showHorizontalScrollbar context p d s = true
   <-> containerWidth s < Widths.reservedSum p d s context).
Proof.
  intros _.
  unfold Widths.showHorizontalScrollbar. rewrite gtb_true.
  pose proof (totalWidth_sum context p d s) as Htotal. cbv zeta in Htotal.
  pose proof (scrollbarReserve_nonneg p d) as Hres.
  destruct ((0 <? Widths.flexibleCount p)%nat) eqn:Hn; cbn [andb] in Htotal.
  - destruct (Num.ltb (Widths.reservedSum p d s context)
                (Widths.availableWidth p d s)) eqn:Hl.
    + apply ltb_true in Hl. apply Nat.ltb_lt in Hn.
      destruct (floor_share (Widths.availableWidth p d s
                             - Widths.reservedSum p d s context)
                  (Widths.flexibleCount p) Hn).
      unfold Widths.availableWidth in *. split; intros; lra.
    + rewrite Htotal. reflexivity.
  - rewrite Htotal. reflexivity.
Qed.

(** The narrow table: its wide first row reserves 1040 in a container of
    200. *)
Lemma showHorizontalScrollbar_iff_witness :
  Widths.showHorizontalScrollbar monospace narrow narrowDom (mounted 200)
  = true.
Proof.
  apply (showHorizontalScrollbar_iff monospace narrow narrowDom
           (mounted 200)).
  - vm_compute. reflexivity.
  - vm_compute. reflexivity.
Defined.

(** ** The resize grip *)

Lemma borderLoop_spec (widths : gmap nat Q) (x : Q) (count i : nat)
    (currentX : Q) (c : nat) :
  currentX + Widths.widthAt widths i = Draw.separator widths 0 i ->
  Hit.borderLoop widths x count i currentX = Some c
  <-> (i <= c < i + count)%nat
      /\ Qabs (x - Draw.separator widths 0 c) < 5
      /\ forall j, (i <= j < c)%nat ->
           5 <= Qabs (x - Draw.separator widths 0 j).
Proof.
  revert i currentX.
  induction count as [|count IH]; intros i currentX Hsep.
  - simpl. split; [discriminate | intros (H & _); lia].
  - cbn [Hit.borderLoop]. rewrite Hsep.
    destruct (Num.ltb (Qabs (x - Draw.separator widths 0 i)) 5) eqn:Hnear.
    + apply ltb_true in Hnear. split.
      * intros [= <-]. split; [lia|]. split; [exact Hnear|]. intros j Hj. lia.
      * intros (Hc & Hx & Hfirst).
        destruct (decide (c = i)) as [->|Hne]; [reflexivity|].
        specialize (Hfirst i ltac:(lia)). lra.
    + apply ltb_false in Hnear.
      rewrite (IH (S i) (Draw.separator widths 0 i) eq_refl).
      split.
      * intros (Hc & Hx & Hfirst). split; [lia|]. split; [exact Hx|].
        intros j Hj. destruct (decide (j = i)) as [->|Hne];
          [exact Hnear | apply Hfirst; lia].
      * intros (Hc & Hx & Hfirst).
        assert (c <> i) by (intros ->; lra).
        split; [lia|]. split; [exact Hx|]. intros j Hj. apply Hfirst. lia.
Qed.

(** X8.  A press starts a resize exactly in the header band and within 5
    units of a column separator as [drawHeaders] strokes it, and the
    column resized is the first from the left whose separator is that
    near. *)
Theorem isNearColumnBorder_spec (context : Context) (p : Props) (d : Dom)
    (s : Comp) (x y : Q) (c : nat) :
  let widths := Widths.columnWidths (Some context) p d s in
  Hit.isNearColumnBorder context p d s x y = Some c
  <-> y <= headerHeight p
      /\ (c < length (columns p))%nat
      /\ Qabs (x - Draw.separator widths 0 c) < 5
      /\ forall j, (j < c)%nat -> 5 <= Qabs (x - Draw.separator widths 0 j).
Proof.
  intros widths. unfold Hit.isNearColumnBorder. fold widths.
  destruct (Num.gtb y (headerHeight p)) eqn:Hy.
  - apply gtb_true in Hy. split; [discriminate | intros (H & _); lra].
  - apply gtb_false in Hy.
    rewrite (borderLoop_spec widths x (length (columns p)) 0 0 c eq_refl).
    split.
    + intros (Hc & Hx & Hfirst). split; [exact Hy|]. split; [lia|].
      split; [exact Hx|]. intros j Hj. apply Hfirst. lia.
    + intros (_ & Hc & Hx & Hfirst). split; [lia|]. split; [exact Hx|].
      intros j Hj. apply Hfirst. lia.
Qed.

(** ** Hit-testing and the layout *)

(** X9.  For a row height that is not zero, [getCellFromPoint] throws
    exactly when there is no column and the point is, at or below the
    header band, over a row of the data (the key of a column that does not
    exist is read); so do the context-menu handler and, outside a resize,
    the move handler.  With a column, none of them throws. *)
Theorem getCellFromPoint_throws_iff (context : Context) (p : Props)
    (d : Dom) (s : Comp) (e : Pointer.MouseEvent) :
  ~ rowHeight p == 0 ->
  let x := Pointer.offsetX e in
  let y := Pointer.offsetY e in
  let rowIndex := Qfloor ((y - headerHeight p + scrollTop s) / rowHeight p) in
  let throws := columns p = [] /\ headerHeight p <= y
                /\ is_Some (rowAt (data p) rowIndex) in
  (Hit.getCellFromPoint context p d s x y = Hit.TypeError <-> throws)
  /\ (Pointer.handleContextMenu context p d e s = Hit.TypeError <-> throws)
  /\ (Pointer.handleMouseMove context p d e s = Hit.TypeError
      <-> throws /\ (isResizing s = false \/ resizingColumn s = None)).
Proof.
  intros _ x y rowIndex throws.
  assert (Hget : Hit.getCellFromPoint context p d s x y = Hit.TypeError
                 <-> throws).
  { unfold throws, Hit.getCellFromPoint. fold rowIndex.
    destruct (Num.ltb y (headerHeight p)) eqn:Hy.
    { apply ltb_true in Hy. split; [discriminate | intros (_ & H & _); lra]. }
    apply ltb_false in Hy.
    destruct (columns p) as [|column rest] eqn:Hcols.
    - simpl. destruct (rowAt (data p) rowIndex) as [row|].
      + split; [intros _|reflexivity]. split; [reflexivity|].
        split; [exact Hy | eauto].
      + split; [discriminate | intros (_ & _ & [row H]); discriminate].
    - pose proof (columnLoop_bound
                    (Widths.columnWidths (Some context) p d s) x
                    (length (columns p)) 0 0) as Hbound.
      rewrite Hcols in Hbound. specialize (Hbound ltac:(simpl; lia)).
      destruct ((column :: rest) !! _) as [col|] eqn:Hlook.
      + split; [discriminate | intros (H & _); discriminate].
      + apply lookup_ge_None in Hlook. simpl in Hlook, Hbound. lia. }
  split; [exact Hget|]. split.
  - rewrite <- Hget. unfold Pointer.handleContextMenu. fold x y.
    destruct (Hit.getCellFromPoint context p d s x y) as [[cell|]|];
      split; congruence.
  - rewrite <- Hget. unfold Pointer.handleMouseMove. fold x y.
    destruct (isResizing s); [destruct (resizingColumn s) as [c|]|].
    + split; [discriminate | intros (_ & [H|H]); discriminate].
    + destruct (Hit.getCellFromPoint context p d s x y) as [[cell|]|].
      * destruct (showEllipsis p);
          [destruct (_ !! _) as [w|]; [destruct (Num.gtb _ _)|]|];
          (split; [discriminate | intros (H & _); discriminate]).
      * split; [discriminate | intros (H & _); discriminate].
      * split; [intros _; split; [reflexivity | right; reflexivity]
               | reflexivity].
    + destruct (Hit.getCellFromPoint context p d s x y) as [[cell|]|].
      * destruct (showEllipsis p);
          [destruct (_ !! _) as [w|]; [destruct (Num.gtb _ _)|]|];
          (split; [discriminate | intros (H & _); discriminate]).
      * split; [discriminate | intros (H & _); discriminate].
      * split; [intros _; split; [reflexivity | left; reflexivity]
               | reflexivity].
Qed.

(** A table without columns: a point over its first row. *)
Lemma getCellFromPoint_throws_iff_witness :
  Hit.getCellFromPoint monospace (fixedGrid [] 30) gridDom (mounted 400)
    10 50 = Hit.TypeError
  /\ Pointer.handleContextMenu monospace (fixedGrid [] 30) gridDom
       (pointerAt 10 50) (mounted 400) = Hit.TypeError.
Proof.
  destruct (getCellFromPoint_throws_iff monospace (fixedGrid [] 30) gridDom
              (mounted 400) (pointerAt 10 50))
    as ([_ Hget] & [_ Hmenu] & _).
  - vm_compute. discriminate.
  - assert (Hthrows : columns (fixedGrid [] 30) = []
                      /\ headerHeight (fixedGrid [] 30) <= 50
                      /\ is_Some (rowAt (data (fixedGrid [] 30))
                                    (Qfloor ((50 - headerHeight
                                                     (fixedGrid [] 30)
                                              + scrollTop (mounted 400))
                                             / rowHeight (fixedGrid [] 30))))).
    { split; [reflexivity|]. split; [vm_compute; discriminate|].
      vm_compute. eauto. }
    split; [apply Hget | apply Hmenu]; exact Hthrows.
Defined.

Lemma span_nonneg (widths : gmap nat Q) (i n : nat) :
  (forall j, (i <= j < i + n)%nat -> 0 <= Widths.widthAt widths j) ->
  0 <= Hit.span widths i n.
Proof.
  revert i. induction n as [|n IH]; intros i Hp; cbn [Hit.span];
    [apply Qle_refl|].
  assert (0 <= Widths.widthAt widths i) by (apply Hp; lia).
  assert (0 <= Hit.span widths (S i) n) by (apply IH; intros; apply Hp; lia).
  lra.
Qed.

(** A point between the left and the right edge of column [c] is taken by
    that column, when no column before it has a negative width. *)
Lemma columnLoop_inside (widths : gmap nat Q) (x : Q) (c count i : nat)
    (currentX : Q) :
  (i <= c < i + count)%nat ->
  (forall j, (i <= j < c)%nat -> 0 <= Widths.widthAt widths j) ->
  currentX + Hit.span widths i (c - i) <= x ->
  x < currentX + Hit.span widths i (c - i) + Widths.widthAt widths c ->
  Hit.columnLoop widths x count i currentX = c.
Proof.
  revert i currentX.
  induction count as [|count IH]; intros i currentX Hc Hpos Hlo Hhi; [lia|].
  cbn [Hit.columnLoop].
  destruct (decide (i = c)) as [->|Hne].
  - rewrite Nat.sub_diag in Hlo, Hhi. simpl in Hlo, Hhi.
    assert (Qle_bool currentX x = true) as -> by (apply Qle_bool_iff; lra).
    assert (Num.ltb x (currentX + Widths.widthAt widths c) = true) as ->
      by (apply ltb_true; lra).
    reflexivity.
  - replace (c - i)%nat with (S (c - S i)) in Hlo, Hhi by lia.
    cbn [Hit.span] in Hlo, Hhi.
    assert (Hrest : 0 <= Hit.span widths (S i) (c - S i))
      by (apply span_nonneg; intros; apply Hpos; lia).
    assert (Num.ltb x (currentX + Widths.widthAt widths i) = false) as ->
      by (apply ltb_false; lra).
    rewrite andb_false_r.
    apply IH; [lia | intros; apply Hpos; lia | lra | lra].
Qed.

Lemma Qfloor_row (p : Props) (s : Comp) (i : Z) (y : Q) :
  0 < rowHeight p ->
  Draw.rowTop p s i <= y -> y < Draw.rowTop p s i + rowHeight p ->
  Qfloor ((y - headerHeight p + scrollTop s) / rowHeight p) = i.
Proof.
  intros Hrow Hlo Hhi. unfold Draw.rowTop in *.
  apply Qfloor_between.
  - apply Qle_shift_div_l; [exact Hrow | lra].
  - apply Qlt_shift_div_r; [exact Hrow|].
    rewrite inject_Z_plus. change (inject_Z 1) with 1. lra.
Qed.

(** X10.  Hit-testing inverts the layout of [drawRows]: a point at or
    below the header band, inside the rectangle of column [c] in row [i]
    (left and top edge included, right and bottom edge not), is answered
    with row index [i], column index [c], that row, that column and the
    value of the cell, when no declared width is negative. *)
Theorem getCellFromPoint_inside_the_cell (context : Context) (p : Props)
    (d : Dom) (s : Comp) (i : Z) (c : nat) (x y : Q) :
  0 < rowHeight p ->
  (forall column w, column ∈ columns p -> fixedWidth column = Some w ->
                    0 <= w) ->
  (c < length (columns p))%nat ->
  let widths := Widths.columnWidths (Some context) p d s in
  Hit.leftEdge widths c <= x ->
  x < Hit.leftEdge widths c + Widths.widthAt widths c ->
  Draw.rowTop p s i <= y -> y < Draw.rowTop p s i + rowHeight p ->
  headerHeight p <= y ->
  Hit.getCellFromPoint context p d s x y
  = Hit.Ok (Some {| Hit.rowIndex := i;
                    Hit.columnIndex := c;
                    Hit.value := row ← rowAt (data p) i;
                                 column ← columns p !! c;
                                 row !! key column;
                    Hit.row := rowAt (data p) i;
                    Hit.column := columns p !! c |}).
Proof.
  intros Hrow Hdecl Hc widths Hx0 Hx1 Hy0 Hy1 Hy.
  unfold Hit.getCellFromPoint.
  assert (Num.ltb y (headerHeight p) = false) as ->
    by (apply ltb_false; exact Hy).
  rewrite (Qfloor_row p s i y Hrow Hy0 Hy1). fold widths.
  assert (Hcol : Hit.columnLoop widths x (length (columns p)) 0 0 = c).
  { apply columnLoop_inside.
    - lia.
    - intros j _. apply resolved_nonneg. exact Hdecl.
    - unfold Hit.leftEdge in Hx0. rewrite Nat.sub_0_r. lra.
    - unfold Hit.leftEdge in Hx1. rewrite Nat.sub_0_r. lra. }
  rewrite Hcol.
  destruct (columns p !! c) as [column|] eqn:Hlook; [reflexivity|].
  apply lookup_ge_None in Hlook. lia.
Qed.

Lemma getCellFromPoint_inside_the_cell_witness :
  Hit.getCellFromPoint monospace demo demoDom (mounted 800) 300 150
  = Hit.Ok (Some {| Hit.rowIndex := 1;
                    Hit.columnIndex := 2;
                    Hit.value := row ← rowAt (data demo) 1;
                                 column ← columns demo !! 2%nat;
                                 row !! key column;
                    Hit.row := rowAt (data demo) 1;
                    Hit.column := columns demo !! 2%nat |}).
Proof.
  apply (getCellFromPoint_inside_the_cell monospace demo demoDom
           (mounted 800) 1 2 300 150).
  - reflexivity.
  - apply demo_declared_nonneg.
  - simpl. lia.
  - vm_compute. discriminate.
  - vm_compute. reflexivity.
  - vm_compute. discriminate.
  - vm_compute. reflexivity.
  - vm_compute. discriminate.
Defined.

(** ** The row windows *)

Lemma Qfloor_nonneg (q : Q) : 0 <= q -> (0 <= Qfloor q)%Z.
Proof.
  intros H. change 0%Z with (Qfloor 0). apply Qfloor_resp_le. exact H.
Qed.

Lemma startIndex_nonneg (p : Props) (s : Comp) :
  0 < rowHeight p -> 0 <= scrollTop s -> (0 <= Hit.startIndex p s)%Z.
Proof.
  intros Hrow Htop. apply Qfloor_nonneg.
  apply Qle_shift_div_l; [exact Hrow | lra].
Qed.

Lemma rowAt_is_Some (rows : list Row) (i : Z) :
  (0 <= i < Z.of_nat (length rows))%Z -> is_Some (rowAt rows i).
Proof.
  intros Hi. unfold rowAt.
  destruct (i <? 0)%Z eqn:E; [apply Z.ltb_lt in E; lia|].
  apply lookup_lt_is_Some. lia.
Qed.

(** X11.  Neither row loop reads a row that does not exist: for a
    positive row height and a scroll offset that is not negative, every
    index of the window [measureCellWidth] measures and every index
    [drawRows] paints is an index of the data, so that the window holds one
    row per index; and a painted row reaches below the header band. *)
Theorem row_windows_are_rows (p : Props) (d : Dom) (s : Comp) :
  0 < rowHeight p ->
  0 <= scrollTop s ->
  (forall i, i ∈ Widths.visibleIndices p d s ->
             is_Some (rowAt (data p) i))
  /\ length (Widths.visibleRows p d s)
     = length (Widths.visibleIndices p d s)
  /\ forall i, Hit.rendered p d s i = true ->
       is_Some (rowAt (data p) i)
       /\ headerHeight p < Draw.rowTop p s i + rowHeight p.
Proof.
  intros Hrow Htop.
  pose proof (startIndex_nonneg p s Hrow Htop) as Hstart.
  assert (Hwin : forall i, i ∈ Widths.visibleIndices p d s ->
                           is_Some (rowAt (data p) i)).
  { intros i Hi. unfold Widths.visibleIndices in Hi.
    apply elem_of_seqZ in Hi.
    unfold Widths.visibleStartIndex, Widths.visibleEndIndex in Hi.
    unfold Hit.startIndex in Hstart.
    apply rowAt_is_Some. lia. }
  split; [exact Hwin|]. split.
  - unfold Widths.visibleRows.
    induction (Widths.visibleIndices p d s) as [|i l IH]; [reflexivity|].
    cbn [omap list_omap length].
    destruct (Hwin i ltac:(left)) as [row ->]. cbn [length]. f_equal.
    apply IH. intros j Hj. apply Hwin. right. exact Hj.
  - intros i Hi. unfold Hit.rendered in Hi.
    apply andb_true_iff in Hi as [Hlo Hhi].
    apply Z.leb_le in Hlo. apply Z.ltb_lt in Hhi.
    unfold Hit.endIndex in Hhi.
    split; [apply rowAt_is_Some; lia|].
    unfold Draw.rowTop, Hit.startIndex in *.
    pose proof (Qlt_floor (scrollTop s / rowHeight p)) as Hfl.
    assert (Hi1 : scrollTop s / rowHeight p < inject_Z (i + 1)).
    { eapply Qlt_le_trans; [exact Hfl|]. rewrite <- Zle_Qle. lia. }
    rewrite inject_Z_plus in Hi1. change (inject_Z 1) with 1 in Hi1.
    assert (Ea : scrollTop s / rowHeight p * rowHeight p == scrollTop s)
      by (field; lra).
    assert (scrollTop s / rowHeight p * rowHeight p
            < (inject_Z i + 1) * rowHeight p)
      by (apply Qmult_lt_compat_r; lra).
    lra.
Qed.

Lemma row_windows_are_rows_witness :
  (forall i, i ∈ Widths.visibleIndices narrow narrowDom
                   (set_scrollTop 15 (mounted 200)) ->
             is_Some (rowAt (data narrow) i))
  /\ length (Widths.visibleRows narrow narrowDom
               (set_scrollTop 15 (mounted 200)))
     = length (Widths.visibleIndices narrow narrowDom
                 (set_scrollTop 15 (mounted 200)))
  /\ forall i, Hit.rendered narrow narrowDom
                 (set_scrollTop 15 (mounted 200)) i = true ->
       is_Some (rowAt (data narrow) i)
       /\ headerHeight narrow
          < Draw.rowTop narrow (set_scrollTop 15 (mounted 200)) i
            + rowHeight narrow.
Proof.
  apply (row_windows_are_rows narrow narrowDom
           (set_scrollTop 15 (mounted 200))).
  - reflexivity.
  - vm_compute. discriminate.
Defined.

(** X12.  No row that shows in the body is left unpainted, when the
    canvas is at least one row height less the header height higher than
    the container: a row of the data whose rectangle reaches below the
    header band and starts above the lower edge of the container is one of
    the rows [drawRows] paints. *)
Theorem visible_rows_are_painted (p : Props) (d : Dom) (s : Comp) (i : Z) :
  0 < rowHeight p ->
  clientHeight d - headerHeight p + rowHeight p <= canvasHeight d ->
  (0 <= i < Z.of_nat (length (data p)))%Z ->
  headerHeight p < Draw.rowTop p s i + rowHeight p ->
  Draw.rowTop p s i < clientHeight d ->
  Hit.rendered p d s i = true.
Proof.
  intros Hrow Hcanvas Hi Hbottom Htop.
  unfold Hit.rendered, Hit.endIndex, Hit.startIndex, Draw.rowTop in *.
  set (a := scrollTop s / rowHeight p).
  set (b := canvasHeight d / rowHeight p).
  pose proof (Qfloor_le a) as Ha0. pose proof (Qlt_floor a) as Ha1.
  pose proof (Qle_ceiling b) as Hb.
  rewrite inject_Z_plus in Ha1. change (inject_Z 1) with 1 in Ha1.
  assert (Ea : a * rowHeight p == scrollTop s) by (unfold a; field; lra).
  assert (Eb : b * rowHeight p == canvasHeight d) by (unfold b; field; lra).
  assert (Hfa : inject_Z (Qfloor a) * rowHeight p <= scrollTop s).
  { rewrite <- Ea. apply Qmult_le_compat_r; lra. }
  assert (Hfa1 : scrollTop s < (inject_Z (Qfloor a) + 1) * rowHeight p).
  { rewrite <- Ea. apply Qmult_lt_compat_r; lra. }
  assert (Hcb : canvasHeight d <= inject_Z (Qceiling b) * rowHeight p).
  { rewrite <- Eb. apply Qmult_le_compat_r; lra. }
  apply andb_true_iff. split.
  - apply Z.leb_le.
    assert (H : inject_Z (Qfloor a) < inject_Z (i + 1)).
    { rewrite inject_Z_plus. change (inject_Z 1) with 1.
      apply (Qmult_lt_r _ _ (rowHeight p) Hrow). lra. }
    rewrite <- Zlt_Qlt in H. lia.
  - apply Z.ltb_lt.
    assert (H : inject_Z i < inject_Z (Qfloor a + Qceiling b)).
    { rewrite inject_Z_plus.
      apply (Qmult_lt_r _ _ (rowHeight p) Hrow). lra. }
    rewrite <- Zlt_Qlt in H. lia.
Qed.

Lemma visible_rows_are_painted_witness :
  Hit.rendered narrow narrowDom (set_scrollTop 15 (mounted 200)) 1 = true.
Proof.
  apply (visible_rows_are_painted narrow narrowDom
           (set_scrollTop 15 (mounted 200)) 1).
  - reflexivity.
  - vm_compute. discriminate.
  - simpl. lia.
  - vm_compute. reflexivity.
  - vm_compute. reflexivity.
Defined.

(** ** The component as a whole *)

Section Whole.

Variables (context : Context) (p : Props) (d : Dom).

(** The wheel and scrollbar handlers write the scroll offsets and the drag
    bookkeeping only. *)
Lemma scroll_dispatch_frame (e : Scroll.Event) (s s' : Comp) :
  Scroll.dispatch context p d e s = Some s' ->
  selectedRow s' = selectedRow s
  /\ hoveredRow s' = hoveredRow s
  /\ isResizing s' = isResizing s
  /\ resizingColumn s' = resizingColumn s
  /\ state_columnWidths s' = state_columnWidths s
  /\ tooltip s' = tooltip s
  /\ containerWidth s' = containerWidth s.
Proof.
  intros Hstep.
  destruct e as [deltaX deltaY shiftKey|y|y| |x|x|]; simpl in Hstep.
  - injection Hstep as <-. unfold Scroll.handleWheel.
    destruct (_ || _); repeat split.
  - destruct (showScrollbar p d); injection Hstep as <-; repeat split.
  - unfold Scroll.handleScrollMove in Hstep.
    destruct (negb (isDraggingScroll s));
      [injection Hstep as <-; repeat split|].
    destruct (Num.js_leb _ 0); [injection Hstep as <-; repeat split|].
    destruct (Num.clamp _ _); [|discriminate].
    injection Hstep as <-. repeat split.
  - injection Hstep as <-. repeat split.
  - destruct (Widths.showHorizontalScrollbar context p d s);
      injection Hstep as <-; repeat split.
  - unfold Scroll.handleHorizontalScrollMove in Hstep.
    destruct (negb (isDraggingHorizontalScroll s));
      [injection Hstep as <-; repeat split|].
    destruct (Qle_bool _ 0); [injection Hstep as <-; repeat split|].
    destruct (Num.clamp _ _); [|discriminate].
    injection Hstep as <-. repeat split.
  - injection Hstep as <-. repeat split.
Qed.

Lemma borderLoop_bound (widths : gmap nat Q) (x : Q) (count i : nat)
    (currentX : Q) (c : nat) :
  Hit.borderLoop widths x count i currentX = Some c ->
  (c < i + count)%nat.
Proof.
  revert i currentX. induction count as [|count IH]; intros i currentX;
    cbn [Hit.borderLoop]; [discriminate|].
  destruct (Num.ltb _ 5).
  - intros [= <-]. lia.
  - intros H. apply IH in H. lia.
Qed.

Lemma getCellFromPoint_rowIndex (s : Comp) (x y : Q) (cell : Hit.Cell) :
  Hit.getCellFromPoint context p d s x y = Hit.Ok (Some cell) ->
  headerHeight p <= y
  /\ Hit.rowIndex cell
     = Qfloor ((y - headerHeight p + scrollTop s) / rowHeight p).
Proof.
  unfold Hit.getCellFromPoint.
  destruct (Num.ltb y (headerHeight p)) eqn:Hy; [discriminate|].
  apply ltb_false in Hy.
  destruct (columns p !! _), (rowAt _ _); try discriminate;
    intros [= <-]; (split; [exact Hy | reflexivity]).
Qed.

(** A move outside a resize runs the hover branch: the row under the
    pointer is hovered if it is a row of the data. *)
Lemma handleMouseMove_hover (e : Pointer.MouseEvent) (s s1 : Comp)
    (P : Comp -> Prop) :
  (forall hovered tip,
     hovered
     = (if Num.ltb (Pointer.offsetY e) (headerHeight p) then None
        else
          let rowIndex :=
            Qfloor ((Pointer.offsetY e - headerHeight p + scrollTop s)
                    / rowHeight p) in
          if (rowIndex <? Z.of_nat (length (data p)))%Z
          then Some rowIndex else None) ->
     (tip_show tip = true -> showEllipsis p = true) ->
     P (set_hover hovered tip s)) ->
  (forall c, isResizing s = true -> resizingColumn s = Some c ->
     P (set_resize (Some c)
          (<[c := Pointer.storedWidth (state_columnWidths s) c
                  + (Pointer.offsetX e - startX s)]> (state_columnWidths s))
          (Pointer.offsetX e) true s)) ->
  Pointer.handleMouseMove context p d e s = Hit.Ok s1 -> P s1.
Proof.
  intros Hhover Hresize Hmove. unfold Pointer.handleMouseMove in Hmove.
  assert (Hrest :
    match Hit.getCellFromPoint context p d s (Pointer.offsetX e)
            (Pointer.offsetY e) with
    | Hit.TypeError => Hit.TypeError
    | Hit.Ok None => Hit.Ok (set_hover None (Pointer.hide (tooltip s)) s)
    | Hit.Ok (Some cell) =>
        let hovered :=
          if (Hit.rowIndex cell <? Z.of_nat (length (data p)))%Z
          then Some (Hit.rowIndex cell) else None in
        if showEllipsis p then
          let text := String_or_empty (Hit.value cell) in
          let textWidth := context text in
          match Widths.columnWidths (Some context) p d s
                !! Hit.columnIndex cell with
          | Some width =>
              if Num.gtb textWidth (width - 20)
              then Hit.Ok (set_hover hovered
                             {| tip_show := true; tip_text := text;
                                tip_x := Pointer.clientX e;
                                tip_y := Pointer.clientY e |} s)
              else Hit.Ok (set_hover hovered (Pointer.hide (tooltip s)) s)
          | None => Hit.Ok (set_hover hovered (Pointer.hide (tooltip s)) s)
          end
        else Hit.Ok (set_hover hovered (Pointer.hide (tooltip s)) s)
    end = Hit.Ok s1 -> P s1).
  { destruct (Hit.getCellFromPoint context p d s _ _) as [[cell|]|] eqn:Hget;
      [| |discriminate].
    - destruct (getCellFromPoint_rowIndex s _ _ cell Hget) as [Hy Hrow].
      apply ltb_false in Hy.
      assert (Hhovered :
        (if (Hit.rowIndex cell <? Z.of_nat (length (data p)))%Z
         then Some (Hit.rowIndex cell) else None)
        = (if Num.ltb (Pointer.offsetY e) (headerHeight p) then None
           else
             let rowIndex :=
               Qfloor ((Pointer.offsetY e - headerHeight p + scrollTop s)
                       / rowHeight p) in
             if (rowIndex <? Z.of_nat (length (data p)))%Z
             then Some rowIndex else None)).
      { rewrite Hy. cbv zeta. rewrite <- Hrow. reflexivity. }
      cbv zeta. destruct (showEllipsis p) eqn:Hshow.
      + destruct (_ !! _) as [w|]; [destruct (Num.gtb _ _)|];
          intros [= <-];
          apply Hhover; try exact Hhovered; reflexivity || discriminate.
      + intros [= <-]. apply Hhover; [exact Hhovered | discriminate].
    - intros [= <-]. apply Hhover; [|discriminate].
      unfold Hit.getCellFromPoint in Hget.
      destruct (Num.ltb (Pointer.offsetY e) (headerHeight p));
        [reflexivity|].
      destruct (columns p !! _), (rowAt _ _); discriminate. }
  destruct (isResizing s) eqn:Hr;
    [destruct (resizingColumn s) as [c|] eqn:Hc|];
    [|apply Hrest; exact Hmove | apply Hrest; exact Hmove].
  injection Hmove as <-. apply (Hresize c); reflexivity.
Qed.

Lemma resizing_mounted (width : Q) : Grid.resizing p (mounted width).
Proof.
  split; [split; [discriminate | intros [c H]; discriminate]|].
  split; [discriminate|].
  intros c [w H].
  change (state_columnWidths (mounted width)) with (∅ : gmap nat Q) in H.
  rewrite lookup_empty in H. discriminate.
Qed.

Lemma dispatch_resizing (e : Grid.Event) (s s' : Comp) :
  Grid.dispatch context p d e s = Some s' ->
  Grid.resizing p s -> Grid.resizing p s'.
Proof.
  intros Hstep (Hres & Hcol & Hkeys).
  destruct e as [e|e|e| | |e|width]; cbn [Grid.dispatch] in Hstep.
  - destruct (scroll_dispatch_frame e s s' Hstep)
      as (_ & _ & E3 & E4 & E5 & _).
    unfold Grid.resizing. rewrite E3, E4, E5.
    split; [exact Hres|]. split; [exact Hcol | exact Hkeys].
  - injection Hstep as <-. unfold Pointer.handleMouseDown.
    destruct (Hit.isNearColumnBorder context p d s _ _) as [c|] eqn:Hnear.
    + split; [split; [intros _; eexists; reflexivity | reflexivity]|].
      split; [|exact Hkeys].
      simpl. intros c' [= <-].
      unfold Hit.isNearColumnBorder in Hnear.
      destruct (Num.gtb _ _); [discriminate|].
      apply borderLoop_bound in Hnear. lia.
    + destruct (Num.gtb _ _); [destruct (_ <? _)%Z|];
        (split; [exact Hres|]; split; [exact Hcol | exact Hkeys]).
  - destruct (Pointer.handleMouseMove context p d e s) as [s1|] eqn:Hmove;
      [|discriminate].
    injection Hstep as <-.
    apply (handleMouseMove_hover e s s1 (Grid.resizing p)); [| |exact Hmove].
    + intros hovered tip _ _.
      split; [exact Hres|]. split; [exact Hcol | exact Hkeys].
    + intros c Hr Hc.
      split; [simpl; split; [intros _; eexists; reflexivity | reflexivity]|].
      split; [simpl; intros c0 Hc0; apply Hcol; congruence|].
      simpl. intros c' Hc'.
      destruct (decide (c' = c)) as [->|Hne]; [apply Hcol; congruence|].
      rewrite lookup_insert_ne in Hc' by congruence. apply Hkeys. exact Hc'.
  - injection Hstep as <-.
    split; [split; [discriminate | intros [c H]; discriminate]|].
    split; [discriminate | exact Hkeys].
  - injection Hstep as <-.
    split; [exact Hres|]. split; [exact Hcol | exact Hkeys].
  - destruct (Pointer.handleContextMenu context p d e s); [|discriminate].
    injection Hstep as <-.
    split; [exact Hres|]. split; [exact Hcol | exact Hkeys].
  - injection Hstep as <-. unfold Grid.handleResize.
    destruct (existsb _ (columns p)).
    + split; [exact Hres|]. split; [exact Hcol | exact Hkeys].
    + split; [exact Hres|]. split; [exact Hcol|].
      intros c [w H]. simpl in H. rewrite lookup_empty in H. discriminate.
Qed.

Lemma run_resizing (events : list Grid.Event) (s s' : Comp) :
  Grid.run context p d events s = Some s' ->
  Grid.resizing p s -> Grid.resizing p s'.
Proof.
  revert s.
  induction events as [|e events IH]; intros s Hrun Hs; simpl in Hrun.
  - injection Hrun as <-. exact Hs.
  - destruct (Grid.dispatch context p d e s) as [s1|] eqn:Hstep;
      [|discriminate].
    apply (IH s1 Hrun). apply (dispatch_resizing e s s1 Hstep Hs).
Qed.

Hypothesis rowHeight_positive : 0 < rowHeight p.

Lemma sound_mounted (width : Q) : Grid.sound p d (mounted width).
Proof.
  split; [apply settled_mounted|].
  split; [discriminate|]. split; discriminate.
Qed.

(** The row under a point at or below the header band is not above the
    first row. *)
Lemma rowIndex_nonneg (s : Comp) (y : Q) :
  0 <= scrollTop s -> headerHeight p <= y ->
  (0 <= Qfloor ((y - headerHeight p + scrollTop s) / rowHeight p))%Z.
Proof.
  intros Htop Hy. apply Qfloor_nonneg.
  apply Qle_shift_div_l; [exact rowHeight_positive | lra].
Qed.

Lemma dispatch_sound (e : Grid.Event) (s s' : Comp) :
  Grid.dispatch context p d e s = Some s' ->
  Grid.sound p d s -> Grid.sound p d s'.
Proof.
  intros Hstep (Hset & Hsel & Hhov & Htip).
  pose proof Hset as (Htop & Hleft & Hdrag).
  destruct e as [e|e|e| | |e|width]; cbn [Grid.dispatch] in Hstep.
  - (* wheel and thumbs *)
    pose proof (dispatch_top context p d e s s' Hstep Hset) as Hset'.
    destruct (scroll_dispatch_frame e s s' Hstep)
      as (E1 & E2 & _ & _ & _ & E6 & _).
    split; [exact Hset'|]. rewrite E1, E2, E6.
    split; [exact Hsel|]. split; [exact Hhov | exact Htip].
  - (* mousedown *)
    injection Hstep as <-. unfold Pointer.handleMouseDown.
    destruct (Hit.isNearColumnBorder context p d s _ _) as [c|].
    + split; [exact Hset|]. split; [exact Hsel|].
      split; [exact Hhov | exact Htip].
    + destruct (Num.gtb (Pointer.offsetY e) (headerHeight p)) eqn:Hy.
      * apply gtb_true in Hy.
        pose proof (rowIndex_nonneg s (Pointer.offsetY e) ltac:(apply Htop)
                      ltac:(lra)) as Hrow.
        destruct (_ <? _)%Z eqn:Hlt.
        -- apply Z.ltb_lt in Hlt.
           split; [exact Hset|].
           split; [cbn [selectedRow set_selectedRow]; intros i Hi;
                   apply (inj Some) in Hi; subst i; lia|].
           split; [exact Hhov | exact Htip].
        -- split; [exact Hset|]. split; [discriminate|].
           split; [exact Hhov | exact Htip].
      * split; [exact Hset|]. split; [exact Hsel|].
        split; [exact Hhov | exact Htip].
  - (* mousemove *)
    destruct (Pointer.handleMouseMove context p d e s) as [s1|] eqn:Hmove;
      [|discriminate].
    injection Hstep as <-.
    apply (handleMouseMove_hover e s s1 (Grid.sound p d)); [| |exact Hmove].
    + intros hovered tip Hh Ht.
      split; [exact Hset|]. split; [exact Hsel|]. split; [|exact Ht].
      cbn [hoveredRow set_hover]. intros i Hi. rewrite Hh in Hi.
      destruct (Num.ltb (Pointer.offsetY e) (headerHeight p)) eqn:Hy;
        [discriminate|].
      apply ltb_false in Hy. cbv zeta in Hi.
      destruct (_ <? _)%Z eqn:Hlt; [|discriminate].
      apply Z.ltb_lt in Hlt. apply (inj Some) in Hi. subst i.
      pose proof (rowIndex_nonneg s (Pointer.offsetY e) ltac:(apply Htop) Hy)
        as Hnn.
      lia.
    + intros c _ _.
      split; [exact Hset|]. split; [exact Hsel|].
      split; [exact Hhov | exact Htip].
  - (* mouseup *)
    injection Hstep as <-.
    split; [exact Hset|]. split; [exact Hsel|].
    split; [exact Hhov | exact Htip].
  - (* mouseout *)
    injection Hstep as <-.
    split; [exact Hset|]. split; [exact Hsel|]. split; discriminate.
  - (* contextmenu *)
    destruct (Pointer.handleContextMenu context p d e s); [|discriminate].
    injection Hstep as <-.
    split; [exact Hset|]. split; [exact Hsel|].
    split; [exact Hhov | exact Htip].
  - (* resize of the container *)
    injection Hstep as <-. unfold Grid.handleResize.
    destruct (existsb _ (columns p));
      (split; [exact Hset|]; split; [exact Hsel|];
       split; [exact Hhov | exact Htip]).
Qed.

Lemma run_sound (events : list Grid.Event) (s s' : Comp) :
  Grid.run context p d events s = Some s' ->
  Grid.sound p d s -> Grid.sound p d s'.
Proof.
  revert s.
  induction events as [|e events IH]; intros s Hrun Hs; simpl in Hrun.
  - injection Hrun as <-. exact Hs.
  - destruct (Grid.dispatch context p d e s) as [s1|] eqn:Hstep;
      [|discriminate].
    apply (IH s1 Hrun). apply (dispatch_sound e s s1 Hstep Hs).
Qed.

End Whole.

(** X13.  Whatever the events, the selected row and the hovered row are
    rows of the data, for a positive row height: a press or a move below
    the last row clears them, and no press or move is answered with a row
    above the first.  A tooltip shows in ellipsis mode only. *)
Theorem selection_and_hover_are_rows (context : Context) (p : Props)
    (d : Dom) (width : Q) (events : list Grid.Event) (s : Comp) :
  0 < rowHeight p ->
  Grid.run context p d events (mounted width) = Some s ->
  (forall i, selectedRow s = Some i ->
             (0 <= i < Z.of_nat (length (data p)))%Z)
  /\ (forall i, hoveredRow s = Some i ->
                (0 <= i < Z.of_nat (length (data p)))%Z)
  /\ (tip_show (tooltip s) = true -> showEllipsis p = true).
Proof.
  intros Hrow Hrun.
  pose proof (run_sound context p d Hrow events (mounted width) s Hrun
                (sound_mounted p d width)) as (_ & Hsel & Hhov & Htip).
  split; [exact Hsel|]. split; [exact Hhov | exact Htip].
Qed.

Lemma selection_and_hover_are_rows_witness :
  exists s,
    Grid.run monospace twoColumns gridDom
      [Grid.MouseDown (pointerAt 50 75); Grid.MouseMove (pointerAt 50 45);
       Grid.Bar (Scroll.Wheel 0 10 false); Grid.MouseMove (pointerAt 50 200)]
      (mounted 400) = Some s
    /\ selectedRow s = Some 1%Z
    /\ hoveredRow s = None
    /\ (forall i, selectedRow s = Some i ->
                  (0 <= i < Z.of_nat (length (data twoColumns)))%Z)
    /\ (forall i, hoveredRow s = Some i ->
                  (0 <= i < Z.of_nat (length (data twoColumns)))%Z)
    /\ (tip_show (tooltip s) = true -> showEllipsis twoColumns = true).
Proof.
  eexists. split; [vm_compute; reflexivity|].
  split; [reflexivity|]. split; [reflexivity|].
  match goal with
  | |- (forall i, selectedRow ?s = _ -> _) /\ _ =>
      apply (selection_and_hover_are_rows monospace twoColumns gridDom 400
               [Grid.MouseDown (pointerAt 50 75);
                Grid.MouseMove (pointerAt 50 45);
                Grid.Bar (Scroll.Wheel 0 10 false);
                Grid.MouseMove (pointerAt 50 200)] s)
  end.
  - reflexivity.
  - vm_compute. reflexivity.
Defined.

(** X14.  Whatever the events, a resize is in progress exactly while a
    column is being resized; that column is a column of the table, and so
    is every column the component has stored a width for. *)
Theorem resize_bookkeeping (context : Context) (p : Props) (d : Dom)
    (width : Q) (events : list Grid.Event) (s : Comp) :
  Grid.run context p d events (mounted width) = Some s ->
  (isResizing s = true <-> is_Some (resizingColumn s))
  /\ (forall c, resizingColumn s = Some c -> (c < length (columns p))%nat)
  /\ (forall c, is_Some (state_columnWidths s !! c) ->
                (c < length (columns p))%nat).
Proof.
  intros Hrun.
  apply (run_resizing context p d events (mounted width) s Hrun
           (resizing_mounted p width)).
Qed.

Lemma resize_bookkeeping_witness :
  exists s,
    Grid.run monospace twoColumns gridDom
      [Grid.MouseDown (pointerAt 100 10); Grid.MouseMove (pointerAt 130 10)]
      (mounted 400) = Some s
    /\ resizingColumn s = Some 0%nat
    /\ (isResizing s = true <-> is_Some (resizingColumn s))
    /\ (forall c, resizingColumn s = Some c ->
                  (c < length (columns twoColumns))%nat)
    /\ (forall c, is_Some (state_columnWidths s !! c) ->
                  (c < length (columns twoColumns))%nat).
Proof.
  eexists. split; [vm_compute; reflexivity|]. split; [reflexivity|].
  match goal with
  | |- (isResizing ?s = true <-> _) /\ _ =>
      apply (resize_bookkeeping monospace twoColumns gridDom 400
               [Grid.MouseDown (pointerAt 100 10);
                Grid.MouseMove (pointerAt 130 10)] s)
  end.
  vm_compute. reflexivity.
Defined.

(** ** The scrollbar thumbs *)

(** A share [v / m] of a track of length [w], for an offset [v] in
    [[0, m]]. *)
Lemma share_of_track (v m w : Q) :
  0 < m -> 0 <= v -> v <= m -> 0 <= w ->
  0 <= v / m * w /\ v / m * w <= w.
Proof.
  intros Hm Hv0 Hv1 Hw.
  assert (H0 : 0 <= v / m) by (apply Qle_shift_div_l; lra).
  assert (H1 : v / m <= 1) by (apply Qle_shift_div_r; lra).
  assert (Ha : 0 <= v / m * w) by (apply Qmult_le_0_compat; assumption).
  assert (Hb : 0 <= (1 - v / m) * w) by (apply Qmult_le_0_compat; lra).
  assert (E : (1 - v / m) * w == w - v / m * w) by ring.
  split; lra.
Qed.

(** An offset that the clamp leaves strictly inside the range is the
    offset asked for. *)
Lemma clamp_inside (x m : Q) :
  0 < Qmax 0 (Qmin x m) -> Qmax 0 (Qmin x m) < m -> Qmax 0 (Qmin x m) == x.
Proof.
  intros H0 H1.
  destruct (Q.max_spec 0 (Qmin x m)) as [[Ha Ea]|[Ha Ea]];
    destruct (Q.min_spec x m) as [[Hb Eb]|[Hb Eb]]; lra.
Qed.

(** The offset a drag of [delta] asks for moves the thumb by [delta]. *)
Lemma drag_moves_thumb (start delta m h v : Q) :
  ~ h == 0 -> ~ m == 0 ->
  v == start + m / h * delta ->
  v / m * h == start / m * h + delta.
Proof. intros Hh Hm Hv. rewrite Hv. field. split; assumption. Qed.

(** X15.  While the vertical offset is in its range and the thumb is not
    longer than the body of the container, the thumb lies between the
    header band and the lower edge of the container. *)
Theorem thumb_stays_in_the_track (p : Props) (d : Dom) (s : Comp) (th : Q) :
  Scroll.topInRange p d s ->
  Scroll.thumbHeight p d = Num.Fin th ->
  th <= containerHeight p d ->
  exists t,
    Bars.thumbPosition p d s = Num.Fin t
    /\ headerHeight p <= t
    /\ t + th <= clientHeight d.
Proof.
  intros [Htop0 Htop1] Hth Hfit. unfold Bars.thumbPosition.
  rewrite Hth. cbn [Num.js_sub].
  set (maxScroll := contentHeight p - containerHeight p d) in *.
  destruct (Qeq_bool maxScroll 0) eqn:Hmax.
  - eexists. split; [reflexivity|]. unfold containerHeight in *. lra.
  - apply Qeq_bool_false in Hmax. cbn [Num.js_mul Num.js_add].
    eexists. split; [reflexivity|].
    set (w := containerHeight p d - th).
    assert (Hshare : 0 <= w * (scrollTop s / maxScroll)
                     /\ w * (scrollTop s / maxScroll) <= w).
    { destruct (Qlt_le_dec 0 maxScroll) as [Hpos|Hneg].
      - rewrite Q.max_r in Htop1 by lra.
        destruct (share_of_track (scrollTop s) maxScroll w Hpos Htop0 Htop1)
          as [Ha Hb]; [unfold w; lra|].
        rewrite (Qmult_comm w). split; assumption.
      - rewrite Q.max_l in Htop1 by lra.
        assert (Hz : scrollTop s == 0) by lra.
        assert (E : w * (scrollTop s / maxScroll) == 0)
          by (rewrite Hz; field; exact Hmax).
        rewrite E. split; [lra | unfold w; lra]. }
    unfold w, containerHeight in *. lra.
Qed.

Lemma thumb_stays_in_the_track_witness :
  exists th t,
    Scroll.thumbHeight narrow shortDom = Num.Fin th
    /\ Bars.thumbPosition narrow shortDom (set_scrollTop 15 (mounted 200))
       = Num.Fin t
    /\ headerHeight narrow <= t
    /\ t + th <= clientHeight shortDom.
Proof.
  eexists.
  destruct (thumb_stays_in_the_track narrow shortDom
              (set_scrollTop 15 (mounted 200)) _
              ltac:(split; vm_compute; discriminate) eq_refl
              ltac:(vm_compute; discriminate)) as (t & Ht & Hlo & Hhi).
  exists t. split; [reflexivity|]. split; [exact Ht|].
  split; [exact Hlo | exact Hhi].
Defined.
(** X16.  The thumb follows the pointer: a drag of the vertical thumb that
    starts with the pointer at [y0] and moves it to [y1] moves the thumb by
    [y1 - y0], whenever the thumb is shorter than the body of the container
    and the move ends strictly inside the scroll range. *)
Theorem thumb_follows_the_pointer (p : Props) (d : Dom) (s s1 : Comp)
    (y0 y1 th : Q) :
  Scroll.thumbHeight p d = Num.Fin th ->
  th < containerHeight p d ->
  Scroll.handleScrollMove p d y1 (Scroll.handleScrollStart y0 s) = Some s1 ->
  0 < scrollTop s1 ->
  scrollTop s1 < contentHeight p - containerHeight p d ->
  exists t0 t1,
    Bars.thumbPosition p d s = Num.Fin t0
    /\ Bars.thumbPosition p d s1 = Num.Fin t1
    /\ t1 == t0 + (y1 - y0).
Proof.
  intros Hth Hfit Hmove Hlo Hhi.
  unfold Scroll.handleScrollMove in Hmove.
  cbn [Scroll.handleScrollStart set_drag isDraggingScroll negb startDragY
       startScrollTop] in Hmove.
  rewrite Hth in Hmove. cbn [Num.js_sub Num.js_leb] in Hmove.
  set (maxScroll := contentHeight p - containerHeight p d) in *.
  set (h := containerHeight p d - th) in *.
  assert (Hh : Qle_bool h 0 = false).
  { destruct (Qle_bool h 0) eqn:E; [|reflexivity].
    apply Qle_bool_iff in E. unfold h in E. lra. }
  rewrite Hh in Hmove. cbn [Num.js_mul Num.js_add Num.clamp] in Hmove.
  injection Hmove as <-.
  cbn [scrollTop set_scrollTop] in Hlo, Hhi.
  pose proof (clamp_inside _ _ Hlo Hhi) as Hv.
  unfold Bars.thumbPosition. rewrite Hth. cbn [Num.js_sub].
  fold maxScroll h.
  assert (Hmax : ~ maxScroll == 0).
  { intros E. lra. }
  apply Qeq_bool_false in Hmax. rewrite Hmax.
  cbn [Num.js_mul Num.js_add scrollTop set_scrollTop].
  eexists. eexists. split; [reflexivity|]. split; [reflexivity|].
  apply Qeq_bool_false in Hmax.
  assert (Hne : ~ h == 0) by (unfold h; lra).
  pose proof (drag_moves_thumb (scrollTop s) (y1 - y0) maxScroll h _
                Hne Hmax Hv) as E.
  rewrite (Qmult_comm h), E. ring.
Qed.

Lemma thumb_follows_the_pointer_witness :
  exists th s1 t0 t1,
    Scroll.thumbHeight narrow shortDom = Num.Fin th
    /\ Scroll.handleScrollMove narrow shortDom 58
         (Scroll.handleScrollStart 50 (set_scrollTop 15 (mounted 200)))
       = Some s1
    /\ Bars.thumbPosition narrow shortDom (set_scrollTop 15 (mounted 200))
       = Num.Fin t0
    /\ Bars.thumbPosition narrow shortDom s1 = Num.Fin t1
    /\ t1 == t0 + (58 - 50).
Proof.
  eexists. eexists.
  destruct (thumb_follows_the_pointer narrow shortDom
              (set_scrollTop 15 (mounted 200)) _ 50 58 _ eq_refl
              ltac:(vm_compute; reflexivity) eq_refl
              ltac:(vm_compute; reflexivity)
              ltac:(vm_compute; reflexivity)) as (t0 & t1 & H0 & H1 & E).
  exists t0, t1. split; [reflexivity|]. split; [reflexivity|].
  split; [exact H0|]. split; [exact H1 | exact E].
Defined.

(** The widths are resolved from the props, the container and the two
    fields [scrollTop] and [containerWidth] of the state. *)
Lemma totalWidth_frame (context : Context) (p : Props) (d : Dom)
    (s s' : Comp) :
  scrollTop s' = scrollTop s -> containerWidth s' = containerWidth s ->
  Widths.totalWidth context p d s' = Widths.totalWidth context p d s.
Proof.
  intros Htop Hwidth.
  unfold Widths.totalWidth, Widths.columnWidths, Widths.firstPass,
    Widths.reserve, Widths.measureCellWidth, Widths.visibleRows,
    Widths.visibleIndices, Widths.visibleStartIndex, Widths.visibleEndIndex,
    Widths.availableWidth.
  rewrite Htop, Hwidth. reflexivity.
Qed.

(** X17.  While the horizontal offset is in its range for the total width
    of the moment and the horizontal thumb is not longer than its track,
    the thumb lies within the track. *)
Theorem horizontal_thumb_stays_in_the_track (context : Context) (p : Props)
    (d : Dom) (s : Comp) :
  Scroll.leftInRange context p d s ->
  Scroll.horizontalThumbWidth context p d s
  <= containerWidth s - scrollbarReserve p d ->
  0 <= Bars.horizontalThumbPosition context p d s
  /\ Bars.horizontalThumbPosition context p d s
     + Scroll.horizontalThumbWidth context p d s
     <= containerWidth s - scrollbarReserve p d.
Proof.
  intros [Hleft0 Hleft1] Hfit. unfold Bars.horizontalThumbPosition.
  destruct (_ || _); [split; lra|].
  set (maxScroll := Widths.totalWidth context p d s - containerWidth s) in *.
  destruct (Qle_bool maxScroll 0) eqn:Hmax; [split; lra|].
  assert (Hpos : 0 < maxScroll).
  { apply Qnot_le_lt. intros H. apply Qle_bool_iff in H. congruence. }
  rewrite Q.max_r in Hleft1 by lra.
  destruct (share_of_track (scrollLeft s) maxScroll
              (containerWidth s - scrollbarReserve p d
               - Scroll.horizontalThumbWidth context p d s)
              Hpos Hleft0 Hleft1 ltac:(lra)) as [Ha Hb].
  split; lra.
Qed.

(** X18.  The horizontal thumb follows the pointer: a drag that starts
    with the pointer at [x0] and moves it to [x1] moves the thumb by
    [x1 - x0], whenever the thumb is shorter than its track and the move
    ends strictly inside the scroll range. *)
Theorem horizontal_thumb_follows_the_pointer (context : Context) (p : Props)
    (d : Dom) (s s1 : Comp) (x0 x1 : Q) :
  Scroll.horizontalThumbWidth context p d s
  < containerWidth s - scrollbarReserve p d ->
  Scroll.handleHorizontalScrollMove context p d x1
    (Scroll.handleHorizontalScrollStart x0 s) = Some s1 ->
  0 < scrollLeft s1 ->
  scrollLeft s1 < Widths.totalWidth context p d s - containerWidth s ->
  Bars.horizontalThumbPosition context p d s1
  == Bars.horizontalThumbPosition context p d s + (x1 - x0).
Proof.
  intros Hfit Hmove Hlo Hhi.
  unfold Scroll.handleHorizontalScrollMove in Hmove.
  set (s0 := Scroll.handleHorizontalScrollStart x0 s) in *.
  assert (Hw0 : Widths.totalWidth context p d s0
                = Widths.totalWidth context p d s)
    by (apply totalWidth_frame; reflexivity).
  assert (Ht0 : Scroll.horizontalThumbWidth context p d s0
                = Scroll.horizontalThumbWidth context p d s).
  { unfold Scroll.horizontalThumbWidth. rewrite Hw0. reflexivity. }
  rewrite Hw0, Ht0 in Hmove.
  change (isDraggingHorizontalScroll s0) with true in Hmove.
  change (containerWidth s0) with (containerWidth s) in Hmove.
  change (startDragX s0) with x0 in Hmove.
  change (startScrollLeft s0) with (scrollLeft s) in Hmove.
  cbn [negb] in Hmove.
  set (maxScroll := Widths.totalWidth context p d s - containerWidth s) in *.
  set (track := containerWidth s - scrollbarReserve p d
                - Scroll.horizontalThumbWidth context p d s) in *.
  assert (Htrack : ~ track == 0) by (unfold track; lra).
  destruct (Qle_bool maxScroll 0) eqn:Hmax.
  { injection Hmove as <-. apply Qle_bool_iff in Hmax.
    change (scrollLeft s0) with (scrollLeft s) in Hlo, Hhi. lra. }
  assert (Hpos : 0 < maxScroll).
  { apply Qnot_le_lt. intros H. apply Qle_bool_iff in H. congruence. }
  unfold Num.js_div in Hmove.
  apply Qeq_bool_false in Htrack. rewrite Htrack in Hmove.
  apply Qeq_bool_false in Htrack.
  cbn [Num.js_mul Num.js_add Num.clamp] in Hmove. injection Hmove as <-.
  cbn [scrollLeft set_scrollLeft] in Hlo, Hhi.
  pose proof (clamp_inside _ _ Hlo Hhi) as Hv.
  assert (Hw1 : forall v, Widths.totalWidth context p d (set_scrollLeft v s0)
                          = Widths.totalWidth context p d s)
    by (intros v; apply totalWidth_frame; reflexivity).
  unfold Bars.horizontalThumbPosition, Scroll.horizontalThumbWidth.
  rewrite Hw1.
  change (containerWidth (set_scrollLeft _ s0)) with (containerWidth s).
  cbn [scrollLeft set_scrollLeft].
  fold (Scroll.horizontalThumbWidth context p d s).
  destruct (_ || _) eqn:Hguard.
  - exfalso. pose proof (scrollbarReserve_nonneg p d) as Hres.
    unfold Scroll.horizontalThumbWidth in Hfit. rewrite Hguard in Hfit.
    apply orb_true_iff in Hguard.
    unfold maxScroll in Hpos.
    destruct Hguard as [H|H]; apply negb_true_iff in H;
      unfold Num.truthy in H; apply negb_false_iff in H;
      apply Qeq_bool_iff in H; lra.
  - fold maxScroll track. rewrite Hmax.
    assert (Hne : ~ maxScroll == 0) by lra.
    apply (drag_moves_thumb (scrollLeft s) (x1 - x0) maxScroll track _
             Htrack Hne Hv).
Qed.

Lemma horizontal_thumb_stays_in_the_track_witness :
  0 <= Bars.horizontalThumbPosition monospace narrow narrowDom (mounted 200)
  /\ Bars.horizontalThumbPosition monospace narrow narrowDom (mounted 200)
     + Scroll.horizontalThumbWidth monospace narrow narrowDom (mounted 200)
     <= containerWidth (mounted 200) - scrollbarReserve narrow narrowDom.
Proof.
  apply (horizontal_thumb_stays_in_the_track monospace narrow narrowDom
           (mounted 200)).
  - split; vm_compute; discriminate.
  - vm_compute. discriminate.
Defined.

Lemma horizontal_thumb_follows_the_pointer_witness :
  exists s1,
    Scroll.handleHorizontalScrollMove monospace narrow narrowDom 20
      (Scroll.handleHorizontalScrollStart 10 (mounted 200)) = Some s1
    /\ Bars.horizontalThumbPosition monospace narrow narrowDom s1
       == Bars.horizontalThumbPosition monospace narrow narrowDom
            (mounted 200) + (20 - 10).
Proof.
  eexists. split; [vm_compute; reflexivity|].
  match goal with
  | |- Bars.horizontalThumbPosition _ _ _ ?s1 == _ =>
      apply (horizontal_thumb_follows_the_pointer monospace narrow narrowDom
               (mounted 200) s1 10 20)
  end.
  - vm_compute. reflexivity.
  - vm_compute. reflexivity.
  - vm_compute. reflexivity.
  - vm_compute. reflexivity.
Defined.

(** ** Pointer positions and rows *)

(** X19.  A press strictly below the header band selects the row whose
    rectangle, as [drawRows] and [drawHighlightRow] lay it out, holds the
    pointer, and clears the selection when that row is past the last; a
    move to the same point outside a resize hovers the same row, so the
    two highlights are for the row under the pointer. *)
Theorem press_and_hover_find_the_row (context : Context) (p : Props)
    (d : Dom) (e : Pointer.MouseEvent) (s : Comp) (i : Z) :
  0 < rowHeight p ->
  headerHeight p < Pointer.offsetY e ->
  Draw.rowTop p s i <= Pointer.offsetY e ->
  Pointer.offsetY e < Draw.rowTop p s i + rowHeight p ->
  let found := if (i <? Z.of_nat (length (data p)))%Z then Some i else None in
  selectedRow (Pointer.handleMouseDown context p d e s) = found
  /\ (isResizing s = false \/ resizingColumn s = None ->
      forall s', Pointer.handleMouseMove context p d e s = Hit.Ok s' ->
                 hoveredRow s' = found).
Proof.
  intros Hrow Hy Hlo Hhi found.
  pose proof (Qfloor_row p s i (Pointer.offsetY e) Hrow Hlo Hhi) as Hfloor.
  split.
  - unfold Pointer.handleMouseDown, Hit.isNearColumnBorder.
    assert (Num.gtb (Pointer.offsetY e) (headerHeight p) = true) as ->
      by (apply gtb_true; exact Hy).
    rewrite Hfloor. unfold found.
    destruct (i <? Z.of_nat (length (data p)))%Z; reflexivity.
  - intros Hidle s' Hmove.
    apply (handleMouseMove_hover context p d e s s'
             (fun s' => hoveredRow s' = found)); [| |exact Hmove].
    + intros hovered tip Hh _. cbn [hoveredRow set_hover]. rewrite Hh.
      assert (Num.ltb (Pointer.offsetY e) (headerHeight p) = false) as ->
        by (apply ltb_false; lra).
      cbv zeta. rewrite Hfloor. reflexivity.
    + intros c Hr Hc. destruct Hidle; congruence.
Qed.

Lemma press_and_hover_find_the_row_witness :
  selectedRow (Pointer.handleMouseDown monospace twoColumns gridDom
                 (pointerAt 50 75) (mounted 400)) = Some 1%Z
  /\ (isResizing (mounted 400) = false
      \/ resizingColumn (mounted 400) = None ->
      forall s', Pointer.handleMouseMove monospace twoColumns gridDom
                   (pointerAt 50 75) (mounted 400) = Hit.Ok s' ->
                 hoveredRow s' = Some 1%Z).
Proof.
  apply (press_and_hover_find_the_row monospace twoColumns gridDom
           (pointerAt 50 75) (mounted 400) 1).
  - reflexivity.
  - reflexivity.
  - vm_compute. discriminate.
  - vm_compute. reflexivity.
Defined.
(** ** The tooltip and the drawn text *)

Lemma getCellFromPoint_fields (context : Context) (p : Props) (d : Dom)
    (s : Comp) (x y : Q) (cell : Hit.Cell) :
  Hit.getCellFromPoint context p d s x y = Hit.Ok (Some cell) ->
  Hit.row cell = rowAt (data p) (Hit.rowIndex cell)
  /\ Hit.column cell = columns p !! Hit.columnIndex cell
  /\ Hit.value cell
     = (row ← Hit.row cell; column ← Hit.column cell; row !! key column).
Proof.
  unfold Hit.getCellFromPoint.
  destruct (Num.ltb y (headerHeight p)); [discriminate|].
  set (rowIndex := Qfloor _).
  set (columnIndex := Hit.columnLoop _ _ _ _ _).
  destruct (columns p !! columnIndex) eqn:Hc,
           (rowAt (data p) rowIndex) eqn:Hr; try discriminate;
    intros H;
    match type of H with
    | Hit.Ok (Some ?c) = _ => assert (E : cell = c) by congruence
    end;
    subst cell;
    cbn [Hit.row Hit.column Hit.value Hit.rowIndex Hit.columnIndex];
    rewrite Hc, Hr; (split; [reflexivity | split; reflexivity]).
Qed.

(** A text too wide for [maxWidth] is not its own truncation, when the
    ellipsis fits. *)
Lemma getEllipsisText_cuts (context : Context) (text : jsstring)
    (maxWidth : Q) :
  monotonic context ->
  context ellipsis <= maxWidth ->
  maxWidth < context text ->
  Text.getEllipsisText context text maxWidth <> text.
Proof.
  intros Hmono Hell Hwide Heq.
  unfold Text.getEllipsisText in Heq.
  destruct (Qle_bool (context text) maxWidth) eqn:Htest.
  { apply Qle_bool_iff in Htest. lra. }
  destruct (search_spec context text maxWidth 0 (length text) Hmono)
    as (_ & Hfit & _); [lia | exact Hell | intros j Hj Hlen; lia |].
  unfold Text.fits in Hfit. rewrite Heq in Hfit. lra.
Qed.

(** X20.  In ellipsis mode the tooltip shows exactly over the cells whose
    text [drawRows] draws cut: a move, outside a resize, to a point over a
    cell of a row and a column of the table shows the tooltip if and only
    if the text drawn in that cell is not the text of the cell, and the
    tooltip then carries the whole text at the position of the pointer in
    the page.  Widths are monotonic and the ellipsis fits the cell. *)
Theorem tooltip_shows_for_cut_cells (context : Context) (p : Props)
    (d : Dom) (e : Pointer.MouseEvent) (s : Comp) (cell : Hit.Cell)
    (row : Row) (column : Column) :
  monotonic context ->
  showEllipsis p = true ->
  isResizing s = false \/ resizingColumn s = None ->
  Hit.getCellFromPoint context p d s (Pointer.offsetX e) (Pointer.offsetY e)
  = Hit.Ok (Some cell) ->
  Hit.row cell = Some row ->
  Hit.column cell = Some column ->
  let text := Draw.cellText column row in
  let width := Widths.widthAt (Widths.columnWidths (Some context) p d s)
                 (Hit.columnIndex cell) in
  context ellipsis <= width - 20 ->
  exists s',
    Pointer.handleMouseMove context p d e s = Hit.Ok s'
    /\ (tip_show (tooltip s') = true
        <-> Draw.ellipsisCell context width text <> text)
    /\ (tip_show (tooltip s') = true ->
        tooltip s' = {| tip_show := true; tip_text := text;
                        tip_x := Pointer.clientX e;
                        tip_y := Pointer.clientY e |}).
Proof.
  intros Hmono Hshow Hidle Hget Hrow Hcol text width Hell.
  destruct (getCellFromPoint_fields context p d s _ _ cell Hget)
    as (_ & Hcolumn & Hvalue).
  rewrite Hrow, Hcol in Hvalue. cbn in Hvalue.
  assert (Htext : String_or_empty (Hit.value cell) = text)
    by (rewrite Hvalue; reflexivity).
  assert (Hlook : Widths.columnWidths (Some context) p d s
                    !! Hit.columnIndex cell = Some width).
  { rewrite Hcol in Hcolumn. symmetry in Hcolumn.
    unfold width, Widths.widthAt.
    rewrite (columnWidths_lookup p d s context _ column Hcolumn).
    reflexivity. }
  assert (Hmove :
    Pointer.handleMouseMove context p d e s
    = let hovered :=
        if (Hit.rowIndex cell <? Z.of_nat (length (data p)))%Z
        then Some (Hit.rowIndex cell) else None in
      if Num.gtb (context text) (width - 20)
      then Hit.Ok (set_hover hovered
                     {| tip_show := true; tip_text := text;
                        tip_x := Pointer.clientX e;
                        tip_y := Pointer.clientY e |} s)
      else Hit.Ok (set_hover hovered (Pointer.hide (tooltip s)) s)).
  { unfold Pointer.handleMouseMove. rewrite Hget, Hshow. cbv zeta.
    rewrite Htext, Hlook.
    destruct Hidle as [-> | ->]; [reflexivity|].
    destruct (isResizing s); reflexivity. }
  rewrite Hmove. cbv zeta. unfold Draw.ellipsisCell. cbv zeta.
  destruct (Num.gtb (context text) (width - 20)) eqn:Hwide.
  - apply gtb_true in Hwide. eexists. split; [reflexivity|].
    cbn [tooltip set_hover tip_show]. split; [|reflexivity].
    split; [intros _|reflexivity].
    apply getEllipsisText_cuts; assumption.
  - eexists. split; [reflexivity|].
    cbn [tooltip set_hover tip_show Pointer.hide].
    split; [split; [discriminate | congruence] | discriminate].
Qed.

Lemma ellipsisGrid_cell :
  Hit.getCellFromPoint monospace ellipsisGrid gridDom (mounted 400) 50 45
  = Hit.Ok (Some {| Hit.rowIndex := 0;
                    Hit.columnIndex := 0;
                    Hit.value := Some (Str (js "abcdefghijklmnopqrst"));
                    Hit.row :=
                      Some {[ "a" := Str (js "abcdefghijklmnopqrst") ]};
                    Hit.column := Some (fixedColumn "a" 100) |}).
Proof. vm_compute. reflexivity. Qed.

Lemma tooltip_shows_for_cut_cells_witness :
  exists s',
    Pointer.handleMouseMove monospace ellipsisGrid gridDom (pointerAt 50 45)
      (mounted 400) = Hit.Ok s'
    /\ (tip_show (tooltip s') = true
        <-> Draw.ellipsisCell monospace
              (Widths.widthAt
                 (Widths.columnWidths (Some monospace) ellipsisGrid gridDom
                    (mounted 400)) 0)
              (Draw.cellText (fixedColumn "a" 100)
                 {[ "a" := Str (js "abcdefghijklmnopqrst") ]})
            <> Draw.cellText (fixedColumn "a" 100)
                 {[ "a" := Str (js "abcdefghijklmnopqrst") ]})
    /\ (tip_show (tooltip s') = true ->
        tooltip s'
        = {| tip_show := true;
             tip_text := Draw.cellText (fixedColumn "a" 100)
                           {[ "a" := Str (js "abcdefghijklmnopqrst") ]};
             tip_x := Pointer.clientX (pointerAt 50 45);
             tip_y := Pointer.clientY (pointerAt 50 45) |}).
Proof.
  apply (tooltip_shows_for_cut_cells monospace ellipsisGrid gridDom
           (pointerAt 50 45) (mounted 400) _ _ _ monospace_monotonic
           eq_refl (or_introl eq_refl) ellipsisGrid_cell eq_refl eq_refl).
  vm_compute. discriminate.
Defined.

(** ** The lines of a wrapped cell *)

(** X21.  In a row with room for at least one line, the lines of a wrapped
    cell are drawn inside the row, clear of its padding: the first line
    starts at or below the top padding, and the last line ends at or above
    the bottom padding. *)
Theorem wrapped_lines_stay_in_the_row (fuel : nat) (context : Context)
    (p : Props) (width y : Q) (text : jsstring) (lines : list jsstring)
    (index : nat) :
  Text.wrapCell fuel context (rowHeight p) width text = Some lines ->
  1 <= Text.maxLines (rowHeight p) ->
  (index < length lines)%nat ->
  y + Text.padding
  <= Draw.lineY p y (length lines) index - Text.lineHeight / 2
  /\ Draw.lineY p y (length lines) index + Text.lineHeight / 2
     <= y + rowHeight p - Text.padding.
Proof.
  intros Hwrap Hroom Hindex.
  pose proof (wrapCell_line_count fuel context (rowHeight p) width text lines
                Hwrap) as Hcount.
  rewrite Q.max_r in Hcount by exact Hroom.
  unfold Text.maxLines, Num.floor in Hcount.
  pose proof (Qfloor_le ((rowHeight p - Text.padding * 2) / Text.lineHeight))
    as Hfloor.
  assert (Hn : Num.of_nat (length lines) * Text.lineHeight
               <= rowHeight p - Text.padding * 2).
  { assert (E : (rowHeight p - Text.padding * 2) / Text.lineHeight
                * Text.lineHeight == rowHeight p - Text.padding * 2)
      by (unfold Text.lineHeight; field).
    assert (H1 : Num.of_nat (length lines) * Text.lineHeight
                 <= (rowHeight p - Text.padding * 2) / Text.lineHeight
                    * Text.lineHeight).
    { apply Qmult_le_compat_r;
        [eapply Qle_trans; [exact Hcount | exact Hfloor]|].
      unfold Text.lineHeight. lra. }
    eapply Qle_trans; [exact H1|]. rewrite E. apply Qle_refl. }
  assert (Hi0 : 0 <= Num.of_nat index).
  { unfold Num.of_nat. change 0 with (inject_Z 0). rewrite <- Zle_Qle. lia. }
  assert (Hi1 : Num.of_nat index + 1 <= Num.of_nat (length lines)).
  { unfold Num.of_nat. change 1 with (inject_Z 1).
    rewrite <- inject_Z_plus, <- Zle_Qle. lia. }
  unfold Draw.lineY. cbv zeta.
  unfold Text.lineHeight, Text.padding in *.
  set (n := Num.of_nat (length lines)) in *.
  set (k := Num.of_nat index) in *.
  assert (E1 : (rowHeight p - n * 20) / 2 == rowHeight p * (1 # 2) - n * 10)
    by field.
  assert (E2 : 20 / 2 == 10) by reflexivity.
  rewrite E1, E2. clear Hcount Hfloor Hroom E1. clearbody n k.
  split; lra.
Qed.

Lemma wrapped_lines_stay_in_the_row_witness :
  0 + Text.padding
  <= Draw.lineY demo 0 (length [js "aaaa "; js "bbbb"]) 1
     - Text.lineHeight / 2
  /\ Draw.lineY demo 0 (length [js "aaaa "; js "bbbb"]) 1
     + Text.lineHeight / 2
     <= 0 + rowHeight demo - Text.padding.
Proof.
  apply (wrapped_lines_stay_in_the_row 100 monospace demo 70 0
           (js "aaaa bbbb") [js "aaaa "; js "bbbb"] 1).
  - vm_compute. reflexivity.
  - vm_compute. discriminate.
  - simpl. lia.
Defined.

(** ** [debounce] *)

Section Debounced.

Context {Args : Type}.
Variable delay : Q.

(** At most one timer is set, and it is the one [timer] holds. *)
Lemma debounce_one_timer (events : list (Debounce.Event Args))
    (handle : positive) (entry : Q * Args) :
  Debounce.pending (Debounce.run delay events) !! handle = Some entry ->
  Debounce.timer (Debounce.run delay events) = Some handle.
Proof.
  unfold Debounce.run. revert handle entry.
  induction events as [|e events IH] using rev_ind; intros handle entry.
  - simpl. rewrite lookup_empty. discriminate.
  - rewrite foldl_app. cbn [foldl].
    set (st := foldl (Debounce.step delay) Debounce.initial events) in *.
    destruct e as [now args|now h]; cbn [Debounce.step].
    + unfold Debounce.call. cbn [Debounce.pending Debounce.timer].
      destruct (decide (handle = Debounce.nextHandle st)) as [->|Hne];
        [reflexivity|].
      rewrite lookup_insert_ne by congruence.
      destruct (Debounce.timer st) as [old|] eqn:Hold.
      * intros H. destruct (decide (handle = old)) as [->|Hne'].
        -- rewrite lookup_delete_eq in H. discriminate.
        -- rewrite lookup_delete_ne in H by congruence.
           apply IH in H. congruence.
      * intros H. apply IH in H. congruence.
    + unfold Debounce.fire.
      destruct (Debounce.pending st !! h) as [[due args]|] eqn:Hh;
        [|apply IH].
      destruct (Qle_bool due now); [|apply IH].
      cbn [Debounce.pending Debounce.timer]. intros H.
      destruct (decide (handle = h)) as [->|Hne].
      * rewrite lookup_delete_eq in H. discriminate.
      * rewrite lookup_delete_ne in H by congruence. apply (IH _ _ H).
Qed.

(** X22.  Only the last call of a debounced function counts.  Whatever
    happened before, right after a call exactly one timer is set, it is
    due [delay] after that call and holds the arguments of that call, and
    the call has not run the function; when the environment then fires a
    timer, the function runs if and only if the timer is that one and
    [delay] has passed since the call, it runs with the arguments of that
    call, and no timer is left. *)
Theorem debounce_runs_the_last_call (events : list (Debounce.Event Args))
    (now : Q) (args : Args) (later : Q) (handle : positive) :
  let before := Debounce.run delay events in
  let st := Debounce.run delay (events ++ [Debounce.Call now args]) in
  let after := Debounce.fire later handle st in
  Debounce.invoked st = Debounce.invoked before
  /\ (exists set : positive,
        Debounce.timer st = Some set
        /\ Debounce.pending st = {[ set := (now + delay, args) ]}
        /\ Debounce.invoked after
           = Debounce.invoked st
             ++ (if bool_decide (handle = set) && Qle_bool (now + delay) later
                 then [(later, args)] else [])
        /\ (bool_decide (handle = set) && Qle_bool (now + delay) later = true
            -> Debounce.pending after = ∅)).
Proof.
  intros before st after.
  assert (Est : st = Debounce.call delay now args before).
  { unfold st, before, Debounce.run. rewrite foldl_app. reflexivity. }
  split; [rewrite Est; reflexivity|].
  exists (Debounce.nextHandle before).
  assert (Hpending : Debounce.pending st
                     = {[ Debounce.nextHandle before := (now + delay, args) ]}).
  { rewrite Est. unfold Debounce.call. cbn [Debounce.pending].
    assert (Hcleared :
      match Debounce.timer before with
      | Some old => delete old (Debounce.pending before)
      | None => Debounce.pending before
      end = ∅).
    { apply map_eq. intros h. rewrite lookup_empty.
      destruct (Debounce.timer before) as [old|] eqn:Hold.
      - destruct (decide (h = old)) as [->|Hne];
          [apply lookup_delete_eq|].
        rewrite lookup_delete_ne by congruence.
        destruct (Debounce.pending before !! h) as [entry|] eqn:Hh;
          [|reflexivity].
        apply debounce_one_timer in Hh. fold before in Hh. congruence.
      - destruct (Debounce.pending before !! h) as [entry|] eqn:Hh;
          [|reflexivity].
        apply debounce_one_timer in Hh. fold before in Hh. congruence. }
    rewrite Hcleared. reflexivity. }
  split; [rewrite Est; reflexivity|]. split; [exact Hpending|].
  unfold after, Debounce.fire. rewrite Hpending.
  destruct (decide (handle = Debounce.nextHandle before)) as [->|Hne].
  - rewrite lookup_singleton_eq, bool_decide_eq_true_2 by reflexivity.
    cbn [andb].
    destruct (Qle_bool (now + delay) later); cbn [Debounce.invoked
      Debounce.pending].
    + split; [reflexivity|]. intros _. apply delete_singleton_eq.
    + rewrite app_nil_r. split; [reflexivity | discriminate].
  - rewrite lookup_singleton_ne by congruence.
    rewrite bool_decide_eq_false_2 by exact Hne. cbn [andb].
    rewrite app_nil_r. split; [reflexivity | discriminate].
Qed.

End Debounced.

(** ** The view and the context menu *)

(** X23.  The copy entry of the context menu hands the clipboard the text
    of the value of the cell the right click resolved to, which is the
    text ["undefined"] after a right click below the last row; the menu is
    then shown at the pointer.  Before any right click the entry
    throws. *)
Theorem copy_writes_the_cell_value (context : Context) (p : Props) (d : Dom)
    (e : Pointer.MouseEvent) (s : Comp) (n : Pointer.Notification)
    (v : View.State) :
  Pointer.handleContextMenu context p d e s = Hit.Ok (Some n) ->
  let cell := Pointer.cell n in
  let shown := View.handleContextMenu n v in
  View.contextMenuVisible shown = true
  /\ View.contextMenuPosition shown = (Pointer.clientX e, Pointer.clientY e)
  /\ (exists copied,
        View.handleMenuSelect "copy" shown = Hit.Ok copied
        /\ View.clipboard copied
           = Some (String_of
                     (row ← rowAt (data p) (Hit.rowIndex cell);
                      column ← columns p !! Hit.columnIndex cell;
                      row !! key column))
        /\ (rowAt (data p) (Hit.rowIndex cell) = None ->
            View.clipboard copied = Some (js "undefined")))
  /\ View.handleMenuSelect "copy" View.initial = Hit.TypeError.
Proof.
  intros Hmenu cell shown.
  unfold Pointer.handleContextMenu in Hmenu.
  destruct (Hit.getCellFromPoint context p d s _ _) as [[c|]|] eqn:Hget;
    try discriminate.
  assert (En : n = {| Pointer.cell := c; Pointer.event := e |})
    by congruence.
  destruct (getCellFromPoint_fields context p d s _ _ c Hget)
    as (Hrow & Hcol & Hvalue).
  assert (Ecell : cell = c) by (unfold cell; rewrite En; reflexivity).
  split; [reflexivity|].
  split; [unfold shown; rewrite En; reflexivity|].
  split; [|reflexivity].
  eexists. split; [reflexivity|].
  cbn [View.clipboard View.currentCell View.handleContextMenu].
  fold cell. rewrite Ecell, Hvalue, Hrow, Hcol.
  split; [reflexivity|]. intros ->. reflexivity.
Qed.

Lemma copy_writes_the_cell_value_witness :
  exists n copied,
    Pointer.handleContextMenu monospace twoColumns gridDom (pointerAt 50 105)
      (mounted 400) = Hit.Ok (Some n)
    /\ View.handleMenuSelect "copy" (View.handleContextMenu n View.initial)
       = Hit.Ok copied
    /\ View.clipboard copied = Some (js "undefined").
Proof.
  eexists.
  match goal with
  | |- exists copied, ?H = Hit.Ok (Some ?n) /\ _ =>
      assert (Hmenu : H = Hit.Ok (Some n)) by (vm_compute; reflexivity);
      destruct (copy_writes_the_cell_value monospace twoColumns gridDom
                  (pointerAt 50 105) (mounted 400) n View.initial Hmenu)
        as (_ & _ & (copied & Hcopy & _ & Hundefined) & _)
  end.
  exists copied. split; [exact Hmenu|]. split; [exact Hcopy|].
  apply Hundefined. vm_compute. reflexivity.
Defined.



(** The entries of [menuItemStates] are for items with children. *)
Lemma getMenuItemState_lookup (key other : string) (states : gmap string bool) :
  Menu.getMenuItemState key states !! other
  = if decide (other = key)
    then Some (default false (states !! key))
    else states !! other.
Proof.
  unfold Menu.getMenuItemState.
  destruct (states !! key) as [open|] eqn:Hkey.
  - destruct (decide (other = key)) as [->|]; [exact Hkey | reflexivity].
  - destruct (decide (other = key)) as [->|Hne].
    + rewrite lookup_insert_eq. reflexivity.
    + rewrite lookup_insert_ne by congruence. reflexivity.
Qed.

Lemma isOpen_lookup (key : string) (states : gmap string bool) :
  Menu.isOpen key states = true <-> states !! key = Some true.
Proof.
  unfold Menu.isOpen. rewrite getMenuItemState_lookup.
  destruct (decide (key = key)); [|congruence]. simpl.
  destruct (states !! key) as [[|]|]; simpl; split; congruence.
Qed.

(** The loop of [handleMouseEnter] that closes the other items with
    children, over the items from index [k] on. *)
Lemma closeSiblings_lookup (items : list Menu.Item) (index k : nat)
    (states : gmap string bool) (key : string) (open : bool) :
  foldl (fun states (entry : nat * Menu.Item) =>
           let '(other, menuItem) := entry in
           if negb (other =? index)%nat && Menu.hasChildren menuItem
           then <[Menu.itemKey menuItem := false]>
                  (Menu.getMenuItemState (Menu.itemKey menuItem) states)
           else states)
        states (imap (fun i item => ((k + i)%nat, item)) items) !! key
  = Some open ->
  (open = true -> states !! key = Some true)
  /\ ((exists i item, items !! i = Some item /\ (k + i)%nat <> index
                      /\ Menu.hasChildren item = true
                      /\ Menu.itemKey item = key) -> open = false)
  /\ (is_Some (states !! key)
      \/ exists item, item ∈ items /\ Menu.hasChildren item = true
                      /\ Menu.itemKey item = key).
Proof.
  revert k states open.
  induction items as [|item items IH]; intros k states open; cbn [imap foldl].
  - intros H. split; [intros ->; exact H|]. split; [|left; eauto].
    intros (i & it & Hi & _). destruct i; discriminate.
  - rewrite Nat.add_0_r.
    assert (Himap : imap ((fun i it => ((k + i)%nat, it)) ∘ S) items
                    = imap (fun i it => ((S k + i)%nat, it)) items).
    { apply imap_ext. intros i y _. simpl. f_equal. lia. }
    rewrite Himap.
    set (closes := negb (k =? index)%nat && Menu.hasChildren item).
    set (states' :=
           if closes
           then <[Menu.itemKey item := false]>
                  (Menu.getMenuItemState (Menu.itemKey item) states)
           else states).
    intros H. destruct (IH (S k) states' open H) as (Hopen & Hclosed & Hdom).
    assert (Hstep : forall b, states' !! key = Some b ->
              (b = true -> states !! key = Some true)
              /\ (closes = true -> Menu.itemKey item = key -> b = false)
              /\ (is_Some (states !! key)
                  \/ (Menu.hasChildren item = true
                      /\ Menu.itemKey item = key))).
    { intros b Hb. unfold states' in Hb. destruct closes eqn:Hcloses.
      - destruct (decide (key = Menu.itemKey item)) as [->|Hne].
        + rewrite lookup_insert_eq in Hb. injection Hb as <-.
          split; [discriminate|]. split; [reflexivity|]. right.
          unfold closes in Hcloses. apply andb_true_iff in Hcloses as [_ H'].
          split; [exact H' | reflexivity].
        + rewrite lookup_insert_ne in Hb by congruence.
          rewrite getMenuItemState_lookup in Hb.
          destruct (decide _); [congruence|].
          split; [intros ->; exact Hb|]. split; [congruence | left; eauto].
      - split; [intros ->; exact Hb|]. split; [discriminate | left; eauto]. }
    split; [|split].
    + intros Ho. specialize (Hopen Ho).
      apply (Hstep true Hopen). reflexivity.
    + intros (i & it & Hi & Hne & Hch & Hk).
      destruct i as [|i].
      * simpl in Hi. injection Hi as ->. rewrite Nat.add_0_r in Hne.
        destruct open; [|reflexivity].
        specialize (Hopen eq_refl).
        apply (Hstep true Hopen); [|exact Hk].
        unfold closes. rewrite Hch, andb_true_r.
        apply negb_true_iff, Nat.eqb_neq. exact Hne.
      * apply Hclosed. exists i, it. split; [exact Hi|].
        split; [lia|]. split; assumption.
    + destruct Hdom as [[b Hb]|(it & Hin & Hch & Hk)].
      * destruct (Hstep b Hb) as (_ & _ & [Hs|[Hch Hk]]); [left; exact Hs|].
        right. exists item. split; [left|]. split; assumption.
      * right. exists it. split; [right; exact Hin|]. split; assumption.
Qed.

Lemma handleMouseEnter_opens (items : list Menu.Item) (index : nat)
    (item : Menu.Item) (states : gmap string bool) :
  tidy items states ->
  items !! index = Some item ->
  Menu.hasChildren item = true ->
  let entered := Menu.handleMouseEnter items index states in
  (forall key, is_Some (entered !! key) ->
     exists item, item ∈ items /\ Menu.hasChildren item = true
                  /\ Menu.itemKey item = key)
  /\ forall key, entered !! key = Some true <-> key = Menu.itemKey item.
Proof.
  intros [Hdom _] Hitem Hch entered.
  unfold entered, Menu.handleMouseEnter. rewrite Hitem, Hch. cbn [negb].
  assert (Himap : imap pair items
                  = imap (fun i it => ((0 + i)%nat, it)) items)
    by (apply imap_ext; intros; reflexivity).
  rewrite Himap.
  set (closed := foldl _ states _).
  assert (Hclosed : forall key open, closed !! key = Some open ->
            ((exists i it, items !! i = Some it /\ i <> index
                           /\ Menu.hasChildren it = true
                           /\ Menu.itemKey it = key) -> open = false)
            /\ exists it, it ∈ items /\ Menu.hasChildren it = true
                          /\ Menu.itemKey it = key).
  { intros key open H. unfold closed in H.
    apply closeSiblings_lookup in H as (_ & Hc & Hd). split.
    - intros (i & it & Hi & Hne & Hrest). apply Hc.
      exists i, it. split; [exact Hi|]. split; [simpl; exact Hne|].
      exact Hrest.
    - destruct Hd as [Hs|Hd]; [apply Hdom; exact Hs | exact Hd]. }
  split.
  - intros key [open H].
    destruct (decide (key = Menu.itemKey item)) as [->|Hne].
    + exists item. split; [eapply list_elem_of_lookup_2; exact Hitem|].
      split; [exact Hch | reflexivity].
    + rewrite lookup_insert_ne in H by congruence.
      rewrite getMenuItemState_lookup in H.
      destruct (decide _); [congruence|].
      apply Hclosed in H as (_ & Hd). exact Hd.
  - intros key. split.
    + intros H.
      destruct (decide (key = Menu.itemKey item)) as [->|Hne];
        [reflexivity|].
      exfalso. rewrite lookup_insert_ne in H by congruence.
      rewrite getMenuItemState_lookup in H.
      destruct (decide _); [congruence|].
      destruct (Hclosed key true H) as (Hc & it & Hin & Hich & Hik).
      apply list_elem_of_lookup in Hin as [i Hi].
      assert (Hfalse : true = false); [|discriminate].
      apply Hc. exists i, it. split; [exact Hi|].
      split; [|split; assumption].
      intros ->. rewrite Hitem in Hi. injection Hi as <-. congruence.
    + intros ->. apply lookup_insert_eq.
Qed.

Lemma handleMouseEnter_tidy (items : list Menu.Item) (index : nat)
    (states : gmap string bool) :
  tidy items states -> tidy items (Menu.handleMouseEnter items index states).
Proof.
  intros Htidy.
  destruct (items !! index) as [item|] eqn:Hitem.
  - destruct (Menu.hasChildren item) eqn:Hch.
    + destruct (handleMouseEnter_opens items index item states Htidy Hitem
                  Hch) as (Hdom & Hopen).
      split; [exact Hdom|]. intros key key' H H'.
      apply Hopen in H, H'. congruence.
    + unfold Menu.handleMouseEnter. rewrite Hitem, Hch. cbn [negb].
      unfold Menu.closeAllSubMenus.
      split; [intros key [b H] | intros key key' H];
        rewrite lookup_empty in H; discriminate.
  - unfold Menu.handleMouseEnter. rewrite Hitem. exact Htidy.
Qed.

Lemma getMenuItemState_tidy (items : list Menu.Item) (item : Menu.Item)
    (states : gmap string bool) :
  item ∈ items -> Menu.hasChildren item = true ->
  tidy items states ->
  tidy items (Menu.getMenuItemState (Menu.itemKey item) states)
  /\ tidy items (<[Menu.itemKey item := false]>
                  (Menu.getMenuItemState (Menu.itemKey item) states)).
Proof.
  intros Hin Hch [Hdom Hone].
  assert (Hget : tidy items
                   (Menu.getMenuItemState (Menu.itemKey item) states)).
  { split.
    - intros key [b H]. rewrite getMenuItemState_lookup in H.
      destruct (decide _) as [->|]; [|apply Hdom; eauto].
      exists item. split; [exact Hin|]. split; [exact Hch | reflexivity].
    - assert (Hk : forall k,
                Menu.getMenuItemState (Menu.itemKey item) states !! k
                = Some true -> states !! k = Some true).
      { intros k Hk. rewrite getMenuItemState_lookup in Hk.
        destruct (decide (k = Menu.itemKey item)) as [->|]; [|exact Hk].
        destruct (states !! Menu.itemKey item) as [[|]|];
          simpl in Hk; congruence. }
      intros key key' H H'. apply (Hone key key'); apply Hk; assumption. }
  split; [exact Hget|]. destruct Hget as [Hdom' Hone']. split.
  - intros key [b H].
    destruct (decide (key = Menu.itemKey item)) as [->|Hne].
    + exists item. split; [exact Hin|]. split; [exact Hch | reflexivity].
    + rewrite lookup_insert_ne in H by congruence. apply Hdom'. eauto.
  - intros key key' H H'.
    destruct (decide (key = Menu.itemKey item)) as [->|Hne];
      [rewrite lookup_insert_eq in H; discriminate|].
    destruct (decide (key' = Menu.itemKey item)) as [->|Hne'];
      [rewrite lookup_insert_eq in H'; discriminate|].
    rewrite lookup_insert_ne in H, H' by congruence.
    apply (Hone' key key' H H').
Qed.

Lemma step_tidy (items : list Menu.Item) (states : gmap string bool)
    (e : Menu.Event) :
  tidy items states -> tidy items (Menu.step items states e).
Proof.
  intros Htidy. destruct e as [index| | |index]; cbn [Menu.step].
  - apply handleMouseEnter_tidy. exact Htidy.
  - unfold Menu.render.
    assert (Hgen : forall rest,
              (forall item, item ∈ rest -> item ∈ items) ->
              forall states, tidy items states ->
              tidy items
                (foldl (fun states item =>
                          if Menu.hasChildren item
                          then Menu.getMenuItemState (Menu.itemKey item)
                                 states
                          else states) states rest)).
    { induction rest as [|item rest IH]; intros Hsub st Hst; [exact Hst|].
      cbn [foldl]. apply IH; [intros it Hit; apply Hsub; right; exact Hit|].
      destruct (Menu.hasChildren item) eqn:Hch; [|exact Hst].
      apply (getMenuItemState_tidy items item st);
        [apply Hsub; left | exact Hch | exact Hst]. }
    apply Hgen; [auto | exact Htidy].
  - unfold Menu.closeAllSubMenus.
    split; [intros key [b H] | intros key key' H];
      rewrite lookup_empty in H; discriminate.
  - unfold Menu.childClosed.
    destruct (items !! index) as [item|] eqn:Hitem; [|exact Htidy].
    destruct (Menu.hasChildren item) eqn:Hch; [|exact Htidy].
    apply (getMenuItemState_tidy items item states);
      [eapply list_elem_of_lookup_2; exact Hitem | exact Hch | exact Htidy].
Qed.

Lemma run_tidy (items : list Menu.Item) (events : list Menu.Event) :
  tidy items (Menu.run items events).
Proof.
  unfold Menu.run.
  induction events as [|e events IH] using rev_ind.
  - split; [intros key [b H] | intros key key' H];
      simpl in H; rewrite lookup_empty in H; discriminate.
  - rewrite foldl_app. cbn [foldl]. apply step_tidy. exact IH.
Qed.

(** X25.  At most one submenu is open: whatever has happened to the menu
    (the pointer entering items, renders, closes of the menu and of
    submenus), every entry of [menuItemStates] is for an item with
    children and at most one entry is open; when the pointer then enters
    an item, the submenu of a key is open if and only if the item has
    children and that key. *)
Theorem one_submenu_open (items : list Menu.Item)
    (events : list Menu.Event) :
  let states := Menu.run items events in
  (forall key, is_Some (states !! key) ->
     exists item, item ∈ items /\ Menu.hasChildren item = true
                  /\ Menu.itemKey item = key)
  /\ (forall key key', Menu.isOpen key states = true ->
        Menu.isOpen key' states = true -> key = key')
  /\ forall index item key,
       items !! index = Some item ->
       Menu.isOpen key (Menu.handleMouseEnter items index states) = true
       <-> Menu.hasChildren item = true /\ key = Menu.itemKey item.
Proof.
  intros states.
  pose proof (run_tidy items events) as Htidy. fold states in Htidy.
  split; [apply Htidy|]. split.
  - intros key key' H H'. apply isOpen_lookup in H, H'.
    destruct Htidy as [_ Hone]. apply (Hone key key' H H').
  - intros index item key Hitem. rewrite isOpen_lookup.
    destruct (Menu.hasChildren item) eqn:Hch.
    + destruct (handleMouseEnter_opens items index item states Htidy Hitem
                  Hch) as (_ & Hopen).
      rewrite Hopen. split; [intros ->; split; reflexivity | intros [_ H]];
        assumption.
    + unfold Menu.handleMouseEnter. rewrite Hitem, Hch. cbn [negb].
      unfold Menu.closeAllSubMenus. rewrite lookup_empty.
      split; [discriminate | intros [H _]; discriminate].
Qed.

(** ** The wrap loop of the older variant *)

Lemma trim_result (context : Context) (maxWidth : Q) (fuel : nat) :
  forall line kept,
    Text.trim fuel context maxWidth line = Some kept ->
    context (kept ++ ellipsis) <= maxWidth
    /\ (length kept <= length line)%nat.
Proof.
  induction fuel as [|fuel IH]; intros line kept H; [discriminate|].
  cbn [Text.trim] in H.
  destruct (Num.gtb (context (line ++ ellipsis)) maxWidth) eqn:Htest.
  - destruct (IH _ _ H) as [Hfit Hlen]. split; [exact Hfit|].
    unfold slice_init in Hlen. rewrite length_take in Hlen. lia.
  - apply (inj Some) in H. subst kept.
    split; [apply gtb_false; exact Htest | lia].
Qed.

Lemma trim_more_fuel (context : Context) (maxWidth : Q) (n : nat) :
  forall m line kept,
    Text.trim n context maxWidth line = Some kept -> (n <= m)%nat ->
    Text.trim m context maxWidth line = Some kept.
Proof.
  induction n as [|n IH]; intros m line kept H Hle; [discriminate|].
  destruct m as [|m]; [lia|]. cbn [Text.trim] in *.
  destruct (Num.gtb (context (line ++ ellipsis)) maxWidth);
    [apply IH; [exact H | lia] | exact H].
Qed.

Lemma scan_line (context : Context) (maxWidth : Q) (text : jsstring) :
  forall todo i lastSpaceIndex line rest,
    (i + todo = length text)%nat ->
    (forall k, (1 <= k <= i)%nat -> context (take k text) <= maxWidth) ->
    (forall sp, lastSpaceIndex = Some sp -> (sp < i)%nat) ->
    LegacyText.scan context maxWidth text todo i lastSpaceIndex
    = (line, rest) ->
    (line = [] \/ context line <= maxWidth)
    /\ (length line <= length text)%nat
    /\ (length rest <= length text)%nat.
Proof.
  assert (Hprefix : forall k, (k <= length text)%nat ->
            (forall j, (1 <= j <= k)%nat ->
                       context (take j text) <= maxWidth) ->
            (take k text = [] \/ context (take k text) <= maxWidth)
            /\ (length (take k text) <= length text)%nat
            /\ (length (drop k text) <= length text)%nat).
  { intros k Hk Hfit. rewrite length_take, length_drop.
    split; [|lia].
    destruct k as [|k]; [left; reflexivity | right; apply Hfit; lia]. }
  induction todo as [|todo IH];
    intros i lastSpaceIndex line rest Hlen Hfit Hsp Hscan.
  - cbn [LegacyText.scan] in Hscan.
    injection Hscan as <- <-. split; [left; reflexivity|]. simpl. lia.
  - cbn [LegacyText.scan] in Hscan. unfold substring0 in Hscan.
    set (lastSpaceIndex' :=
           if LegacyText.isBlank text i then Some i else lastSpaceIndex)
      in Hscan.
    assert (Hsp' : forall sp, lastSpaceIndex' = Some sp -> (sp <= i)%nat).
    { intros sp. unfold lastSpaceIndex'.
      destruct (LegacyText.isBlank text i); intros H;
        [injection H as <-; lia | apply Hsp in H; lia]. }
    destruct (Num.gtb (context (take (i + 1) text)) maxWidth) eqn:Htest.
    + assert (Hcut : forall k, (k <= i)%nat ->
                (take k text, drop k text) = (line, rest) ->
                (line = [] \/ context line <= maxWidth)
                /\ (length line <= length text)%nat
                /\ (length rest <= length text)%nat).
      { intros k Hk H. injection H as <- <-.
        destruct (Hprefix k ltac:(lia) ltac:(intros j Hj; apply Hfit; lia))
          as (H1 & H2 & H3).
        repeat split; assumption. }
      destruct lastSpaceIndex' as [sp|] eqn:Hlast.
      * destruct (1 <? length (take (i + 1) text))%nat.
        -- injection Hscan as <- <-.
           destruct (Hprefix sp ltac:(specialize (Hsp' sp eq_refl); lia)
                       ltac:(intros j Hj; apply Hfit;
                             specialize (Hsp' sp eq_refl); lia))
             as (H1 & H2 & _).
           split; [exact H1|]. split; [exact H2|].
           rewrite length_drop. lia.
        -- apply (Hcut i); [lia | exact Hscan].
      * apply (Hcut i); [lia | exact Hscan].
    + apply gtb_false in Htest.
      destruct (i =? length text - 1)%nat eqn:Hend.
      * apply Nat.eqb_eq in Hend. injection Hscan as <- <-.
        replace (i + 1)%nat with (length text) in Htest by lia.
        rewrite firstn_all in Htest.
        split; [right; exact Htest|]. simpl. lia.
      * apply Nat.eqb_neq in Hend.
        apply (IH (S i) lastSpaceIndex'); [lia | | | exact Hscan].
        -- intros k Hk. destruct (decide (k = S i)) as [->|];
             [replace (S i) with (i + 1)%nat by lia; exact Htest
             | apply Hfit; lia].
        -- intros sp H. specialize (Hsp' sp H). lia.
Qed.

Lemma nextLine_line (context : Context) (maxWidth : Q)
    (text line rest : jsstring) :
  LegacyText.nextLine context maxWidth text = (line, rest) ->
  (line = [] \/ context line <= maxWidth)
  /\ (length line <= length text)%nat
  /\ (length rest <= length text)%nat.
Proof.
  apply scan_line; [lia | intros k Hk; lia | discriminate].
Qed.

Lemma numbered_snoc (y : Q) (lines : list jsstring) (line : jsstring) :
  LegacyText.numbered y (lines ++ [line])
  = LegacyText.numbered y lines
    ++ [(line, LegacyText.lineY y (length lines))].
Proof.
  unfold LegacyText.numbered. rewrite imap_app. cbn [imap].
  rewrite Nat.add_0_r. reflexivity.
Qed.

Lemma lineY_closed (y : Q) (k : nat) :
  LegacyText.lineY y k == y + 10 + 20 * Num.of_nat k.
Proof.
  induction k as [|k IH];
    [cbn [LegacyText.lineY]; change (Num.of_nat 0) with 0; lra|].
  cbn [LegacyText.lineY]. rewrite IH. unfold Num.of_nat.
  rewrite Nat2Z.inj_succ, <- Z.add_1_r, inject_Z_plus.
  change (inject_Z 1) with 1. lra.
Qed.

(** The loop, from the start of iteration [k] on: the lines it adds, and
    the cut line it draws last when text is left at the bottom. *)
Lemma wrapLoop_draws (trimFuel : nat) (context : Context)
    (maxWidth bottom y : Q) (fuel : nat) :
  forall remainingText lines drawn,
    LegacyText.wrapLoop fuel trimFuel context maxWidth bottom remainingText
      (LegacyText.lineY y (length lines)) (LegacyText.numbered y lines)
    = Some drawn ->
    exists more,
      (drawn = LegacyText.numbered y (lines ++ more)
       \/ exists lineText lastLine,
            last more = Some lineText
            /\ Text.trim trimFuel context maxWidth lineText = Some lastLine
            /\ drawn
               = LegacyText.numbered y (lines ++ more)
                 ++ [(lastLine ++ ellipsis,
                      LegacyText.lineY y (length (lines ++ more)) - 20)])
      /\ Forall (fun line => line = [] \/ context line <= maxWidth) more
      /\ forall j, (length lines <= j < length (lines ++ more))%nat ->
                   LegacyText.lineY y j < bottom.
Proof.
  induction fuel as [|fuel IH]; intros remainingText lines drawn H;
    [discriminate|].
  cbn [LegacyText.wrapLoop] in H.
  destruct (nonempty remainingText
            && Num.ltb (LegacyText.lineY y (length lines)) bottom)
    eqn:Hloop.
  - apply andb_true_iff in Hloop as [_ Hroom]. apply ltb_true in Hroom.
    destruct (LegacyText.nextLine context maxWidth remainingText)
      as [lineText rest] eqn:Hnext.
    destruct (nextLine_line _ _ _ _ _ Hnext) as (Hfit & _ & _).
    rewrite <- numbered_snoc in H.
    destruct (nonempty rest
              && Num.leb bottom (LegacyText.lineY y (length lines) + 20)).
    + destruct (Text.trim trimFuel context maxWidth lineText)
        as [lastLine|] eqn:Htrim; [|discriminate].
      apply (inj Some) in H. subst drawn.
      exists [lineText]. split; [|split].
      * right. exists lineText, lastLine.
        split; [reflexivity|]. split; [exact Htrim|].
        rewrite length_app. cbn [length].
        replace (length lines + 1)%nat with (S (length lines)) by lia.
        reflexivity.
      * constructor; [exact Hfit | constructor].
      * intros j Hj. rewrite length_app in Hj. cbn [length] in Hj.
        replace j with (length lines) by lia. exact Hroom.
    + specialize (IH rest (lines ++ [lineText]) drawn).
      rewrite length_app in IH. cbn [length] in IH.
      replace (length lines + 1)%nat with (S (length lines)) in IH by lia.
      destruct (IH H) as (more & Hdrawn & Hfits & Hrooms).
      rewrite <- app_assoc in Hdrawn, Hrooms. cbn [app] in Hdrawn, Hrooms.
      exists (lineText :: more). split; [|split].
      * destruct Hdrawn as [->|(l & kept & Hlast & Htrim & ->)];
          [left; reflexivity|].
        right. exists l, kept. split; [|split; [exact Htrim | reflexivity]].
        destruct more; [discriminate | exact Hlast].
      * constructor; assumption.
      * intros j Hj.
        destruct (decide (j = length lines)) as [->|];
          [exact Hroom | apply Hrooms; lia].
  - apply (inj Some) in H. subst drawn.
    exists []. rewrite app_nil_r. split; [left; reflexivity|].
    split; [constructor | intros j Hj; lia].
Qed.

(** X26.  The older wrap loop never draws a line it has not measured to
    fit: every text it draws in a cell is empty or at most as wide as the
    cell leaves room for, the cut last line with its ellipsis included, and
    is drawn between the top and the bottom padding of the row. *)
Theorem legacy_wrap_lines_fit (fuel : nat) (context : Context)
    (rowHeight y width : Q) (text : jsstring)
    (drawn : list (jsstring * Q)) (line : jsstring) (lineY : Q) :
  LegacyText.wrapCell fuel context rowHeight y width text = Some drawn ->
  (line, lineY) ∈ drawn ->
  (line = [] \/ context line <= width - 20)
  /\ y + 10 <= lineY /\ lineY < y + rowHeight - 10.
Proof.
  unfold LegacyText.wrapCell. intros H Hin.
  destruct (wrapLoop_draws fuel context (width - 10 * 2) (y + rowHeight - 10)
              y fuel text [] drawn H) as (lines & Hdrawn & Hfits & Hrooms).
  cbn [app length] in Hdrawn, Hrooms.
  assert (Hline : forall k l, lines !! k = Some l ->
            (l = [] \/ context l <= width - 20)
            /\ y + 10 <= LegacyText.lineY y k
            /\ LegacyText.lineY y k < y + rowHeight - 10).
  { intros k l Hk.
    rewrite Forall_lookup in Hfits. specialize (Hfits k l Hk).
    apply lookup_lt_Some in Hk.
    specialize (Hrooms k (conj (Nat.le_0_l k) Hk)).
    pose proof (lineY_closed y k) as Hy.
    assert (0 <= Num.of_nat k)
      by (unfold Num.of_nat; change 0 with (inject_Z 0);
          rewrite <- Zle_Qle; lia).
    split; [destruct Hfits as [->|Hfit]; [left; reflexivity | right; lra]|].
    split; [lra | exact Hrooms]. }
  assert (Hnum : (line, lineY) ∈ LegacyText.numbered y lines ->
            (line = [] \/ context line <= width - 20)
            /\ y + 10 <= lineY /\ lineY < y + rowHeight - 10).
  { intros Hel. apply list_elem_of_lookup in Hel as [k Hk].
    unfold LegacyText.numbered in Hk. rewrite list_lookup_imap in Hk.
    destruct (lines !! k) as [l|] eqn:Hl; [|discriminate].
    cbn in Hk. injection Hk as <- <-. apply (Hline k l Hl). }
  destruct Hdrawn as [->|(lineText & lastLine & Hlast & Htrim & ->)];
    [apply Hnum; exact Hin|].
  apply elem_of_app in Hin as [Hin|Hin]; [apply Hnum; exact Hin|].
  apply list_elem_of_singleton in Hin. injection Hin as -> ->.
  destruct (trim_result _ _ _ _ _ Htrim) as [Hfit _].
  rewrite last_lookup in Hlast.
  destruct lines as [|l lines']; [discriminate|].
  cbn [length Nat.pred] in Hlast |- *.
  destruct (Hline _ _ Hlast) as (_ & Hlo & Hhi).
  cbn [LegacyText.lineY].
  split; [right; lra | lra].
Qed.

Lemma legacy_wrap_lines_fit_witness :
  (js "aaaa" = [] \/ monospace (js "aaaa") <= 70 - 20)
  /\ 0 + 10 <= 10 /\ 10 < 0 + 50 - 10.
Proof.
  apply (legacy_wrap_lines_fit 100 monospace 50 0 70
           (js "aaaa bbbb cccc")
           [(js "aaaa", 10); (js "bbbb", 10 + 20);
            (js "bb...", 10 + 20 + 20 - 20)]).
  - vm_compute. reflexivity.
  - left.
Defined.

Lemma numbered_seq (context : Context) (maxWidth y : Q) (text : jsstring)
    (n : nat) :
  LegacyText.numbered y
    (map (LegacyText.lineAt context maxWidth text) (seq 0 (S n)))
  = LegacyText.numbered y
      (map (LegacyText.lineAt context maxWidth text) (seq 0 n))
    ++ [(LegacyText.lineAt context maxWidth text n, LegacyText.lineY y n)].
Proof.
  rewrite seq_S, map_app. cbn [map Nat.add].
  rewrite numbered_snoc, length_map, length_seq. reflexivity.
Qed.

(** The loop from the start of iteration [k] on: it runs up to an
    iteration [n], at which the text is used up or the bottom is reached,
    and draws the cut line exactly when it has left iteration [n - 1]
    with text remaining. *)
Lemma wrapLoop_runs (trimFuel : nat) (context : Context)
    (maxWidth bottom y : Q) (text : jsstring) (fuel : nat) :
  let remaining := LegacyText.remaining context maxWidth text in
  let lineText := LegacyText.lineAt context maxWidth text in
  let lines := fun n => LegacyText.numbered y (map lineText (seq 0 n)) in
  forall (k : nat) (drawn : list (jsstring * Q)),
    LegacyText.wrapLoop fuel trimFuel context maxWidth bottom (remaining k)
      (LegacyText.lineY y k) (lines k) = Some drawn ->
    exists n,
      (k <= n)%nat
      /\ (forall j, (k <= j < n)%nat ->
            remaining j <> [] /\ LegacyText.lineY y j < bottom)
      /\ (remaining n = [] \/ bottom <= LegacyText.lineY y n)
      /\ ((drawn = lines n /\ (remaining n = [] \/ n = k))
          \/ ((k < n)%nat /\ remaining n <> []
              /\ exists lastLine,
                   Text.trim trimFuel context maxWidth (lineText (n - 1)%nat)
                   = Some lastLine
                   /\ drawn
                      = lines n ++ [(lastLine ++ ellipsis,
                                     LegacyText.lineY y n - 20)])).
Proof.
  intros remaining lineText lines.
  induction fuel as [|fuel IH]; intros k drawn H; [discriminate|].
  cbn [LegacyText.wrapLoop] in H.
  destruct (nonempty (remaining k)) eqn:Hne; cbn [andb] in H;
    [destruct (Num.ltb (LegacyText.lineY y k) bottom) eqn:Hroom|].
  - apply ltb_true in Hroom.
    assert (Hleft : remaining k <> [])
      by (intros E; rewrite E in Hne; discriminate).
    assert (Hnext : LegacyText.nextLine context maxWidth (remaining k)
                    = (lineText k, remaining (S k))).
    { unfold lineText, LegacyText.lineAt, remaining.
      cbn [LegacyText.remaining].
      destruct (LegacyText.nextLine _ _ _); reflexivity. }
    rewrite Hnext in H. cbv beta iota in H.
    unfold lines, lineText in H. rewrite <- numbered_seq in H.
    fold lineText in H. fold (lines (S k)) in H.
    change (LegacyText.lineY y k + 20) with (LegacyText.lineY y (S k)) in H.
    destruct (nonempty (remaining (S k))) eqn:Hne'; cbn [andb] in H;
      [destruct (Num.leb bottom (LegacyText.lineY y (S k))) eqn:Hend|].
    + destruct (Text.trim trimFuel context maxWidth (lineText k))
        as [lastLine|] eqn:Htrim; [|discriminate].
      apply (inj Some) in H. subst drawn.
      exists (S k). split; [lia|]. split; [|split].
      * intros j Hj. replace j with k by lia. split; assumption.
      * right. apply Qle_bool_iff. exact Hend.
      * right. split; [lia|].
        split; [intros E; rewrite E in Hne'; discriminate|].
        exists lastLine. rewrite Nat.sub_1_r. cbn [Nat.pred].
        split; [exact Htrim | reflexivity].
    + destruct (IH (S k) drawn H) as (n & Hn & Hrun & Hstop & Hdrawn).
      exists n. split; [lia|]. split; [|split; [exact Hstop|]].
      * intros j Hj. destruct (decide (j = k)) as [->|];
          [split; assumption | apply Hrun; lia].
      * destruct Hdrawn as [(Hd & Hcase)|(Hlt & Hrest)];
          [|right; split; [lia | exact Hrest]].
        left. split; [exact Hd|]. left.
        destruct Hcase as [Hempty| ->]; [exact Hempty|].
        destruct Hstop as [Hempty|Hlow]; [exact Hempty|].
        apply Qle_bool_iff in Hlow. unfold Num.leb in Hend. congruence.
    + destruct (IH (S k) drawn H) as (n & Hn & Hrun & Hstop & Hdrawn).
      exists n. split; [lia|]. split; [|split; [exact Hstop|]].
      * intros j Hj. destruct (decide (j = k)) as [->|];
          [split; assumption | apply Hrun; lia].
      * destruct Hdrawn as [(Hd & Hcase)|(Hlt & Hrest)];
          [|right; split; [lia | exact Hrest]].
        left. split; [exact Hd|]. left.
        destruct Hcase as [Hempty| ->]; [exact Hempty|].
        destruct (remaining (S k)); [reflexivity | discriminate].
  - apply ltb_false in Hroom. apply (inj Some) in H. subst drawn.
    exists k. split; [lia|]. split; [intros j Hj; lia|].
    split; [right; exact Hroom|]. left.
    split; [reflexivity | right; reflexivity].
  - apply (inj Some) in H. subst drawn.
    exists k. split; [lia|]. split; [intros j Hj; lia|].
    assert (Hempty : remaining k = [])
      by (destruct (remaining k); [reflexivity | discriminate]).
    split; [left; exact Hempty|]. left.
    split; [reflexivity | left; exact Hempty].
Qed.

(** X27.  The older wrap loop draws one line per iteration, 20 apart from
    the top padding on, until the text is used up or the next line would
    start at or below the bottom padding.  If text is then left and a line
    has been drawn, it draws the cut last line with its ellipsis as well,
    at the position of the uncut last line, over it; otherwise it draws
    nothing more. *)
Theorem legacy_wrap_overprints (fuel : nat) (context : Context)
    (rowHeight y width : Q) (text : jsstring)
    (drawn : list (jsstring * Q)) :
  LegacyText.wrapCell fuel context rowHeight y width text = Some drawn ->
  let maxWidth := width - 10 * 2 in
  let bottom := y + rowHeight - 10 in
  let remaining := LegacyText.remaining context maxWidth text in
  let lineText := LegacyText.lineAt context maxWidth text in
  exists n : nat,
    (forall k, (k < n)%nat ->
       remaining k <> [] /\ LegacyText.lineY y k < bottom)
    /\ (remaining n = [] \/ bottom <= LegacyText.lineY y n)
    /\ (let lines := LegacyText.numbered y (map lineText (seq 0 n)) in
        match n with
        | S m =>
            if nonempty (remaining n)
            then exists lastLine,
                   Text.trim fuel context maxWidth (lineText m)
                   = Some lastLine
                   /\ drawn = lines ++ [(lastLine ++ ellipsis,
                                         LegacyText.lineY y n - 20)]
                   /\ LegacyText.lineY y n - 20 == LegacyText.lineY y m
            else drawn = lines
        | O => drawn = lines
        end)
    /\ forall k, LegacyText.lineY y k == y + 10 + 20 * Num.of_nat k.
Proof.
  intros H maxWidth bottom remaining lineText.
  unfold LegacyText.wrapCell in H.
  destruct (wrapLoop_runs fuel context maxWidth bottom y text fuel 0 drawn H)
    as (n & _ & Hrun & Hstop & Hdrawn).
  exists n. split; [intros k Hk; apply Hrun; lia|].
  split; [exact Hstop|]. split; [|apply lineY_closed].
  cbv zeta. unfold remaining, lineText in *. clear remaining lineText.
  destruct Hdrawn as [(-> & Hcase)|(Hlt & Hleft & lastLine & Htrim & ->)].
  - destruct n as [|m]; [reflexivity|].
    destruct Hcase as [->|Hn]; [reflexivity | discriminate Hn].
  - destruct n as [|m]; [lia|].
    destruct (LegacyText.remaining context maxWidth text (S m)) eqn:E;
      [congruence|].
    cbn [nonempty].
    exists lastLine. rewrite Nat.sub_1_r in Htrim. cbn [Nat.pred] in Htrim.
    split; [exact Htrim|]. split; [reflexivity|].
    cbn [LegacyText.lineY]. lra.
Qed.

(** Three words in a cell with room for two lines of four letters: the
    second line is drawn whole and then cut, at the same place. *)
Lemma legacy_wrap_overprints_witness :
  let maxWidth := 70 - 10 * 2 in
  let bottom := 0 + 50 - 10 in
  let text := js "aaaa bbbb cccc" in
  let remaining := LegacyText.remaining monospace maxWidth text in
  let lineText := LegacyText.lineAt monospace maxWidth text in
  exists n : nat,
    (forall k, (k < n)%nat ->
       remaining k <> [] /\ LegacyText.lineY 0 k < bottom)
    /\ (remaining n = [] \/ bottom <= LegacyText.lineY 0 n)
    /\ (let lines := LegacyText.numbered 0 (map lineText (seq 0 n)) in
        match n with
        | S m =>
            if nonempty (remaining n)
            then exists lastLine,
                   Text.trim 100 monospace maxWidth (lineText m)
                   = Some lastLine
                   /\ [(js "aaaa", 10); (js "bbbb", 10 + 20);
                       (js "bb...", 10 + 20 + 20 - 20)]
                      = lines ++ [(lastLine ++ ellipsis,
                                   LegacyText.lineY 0 n - 20)]
                   /\ LegacyText.lineY 0 n - 20 == LegacyText.lineY 0 m
            else [(js "aaaa", 10); (js "bbbb", 10 + 20);
                  (js "bb...", 10 + 20 + 20 - 20)] = lines
        | O => [(js "aaaa", 10); (js "bbbb", 10 + 20);
                (js "bb...", 10 + 20 + 20 - 20)] = lines
        end)
    /\ forall k, LegacyText.lineY 0 k == 0 + 10 + 20 * Num.of_nat k.
Proof.
  apply (legacy_wrap_overprints 100 monospace 50 0 70
           (js "aaaa bbbb cccc")).
  vm_compute. reflexivity.
Defined.

Lemma wrapLoop_returns (trimFuel : nat) (context : Context)
    (maxWidth bottom y : Q) :
  context ellipsis <= maxWidth ->
  forall fuel k remainingText drawn,
    bottom <= LegacyText.lineY y (k + fuel) ->
    (length remainingText < trimFuel)%nat ->
    is_Some (LegacyText.wrapLoop (S fuel) trimFuel context maxWidth bottom
               remainingText (LegacyText.lineY y k) drawn).
Proof.
  intros Hell. induction fuel as [|fuel IH];
    intros k remainingText drawn Hbottom Hlen;
    cbn [LegacyText.wrapLoop].
  - rewrite Nat.add_0_r in Hbottom. apply ltb_false in Hbottom.
    rewrite Hbottom, andb_false_r. eauto.
  - destruct (nonempty remainingText
              && Num.ltb (LegacyText.lineY y k) bottom); [|eauto].
    destruct (LegacyText.nextLine context maxWidth remainingText)
      as [lineText rest] eqn:Hnext.
    destruct (nextLine_line _ _ _ _ _ Hnext) as (_ & Hline & Hrest).
    destruct (nonempty rest
              && Num.leb bottom (LegacyText.lineY y k + 20)).
    + destruct (trim_exits context maxWidth lineText Hell)
        as (kept & Htrim & _).
      rewrite (trim_more_fuel _ _ _ trimFuel _ _ Htrim) by lia. eauto.
    + change (LegacyText.lineY y k + 20) with (LegacyText.lineY y (S k)).
      apply IH; [|lia].
      replace (S k + fuel)%nat with (k + S fuel)%nat by lia. exact Hbottom.
Qed.

(** X28.  The older wrap loop ends whenever the bare ellipsis fits the
    cell: with fuel for [rowHeight / 20] iterations and for one test per
    code unit of the text and one more, it returns the texts it draws. *)
Theorem legacy_wrap_returns (fuel : nat) (context : Context)
    (rowHeight y width : Q) (text : jsstring) :
  context ellipsis <= width - 20 ->
  rowHeight / 20 <= Num.of_nat fuel ->
  (length text < fuel)%nat ->
  is_Some (LegacyText.wrapCell fuel context rowHeight y width text).
Proof.
  intros Hell Hfuel Hlen. unfold LegacyText.wrapCell.
  destruct fuel as [|fuel]; [lia|].
  change (y + 10) with (LegacyText.lineY y 0).
  apply wrapLoop_returns; [lra | | exact Hlen].
  cbn [Nat.add]. rewrite lineY_closed.
  assert (Hn : Num.of_nat (S fuel) == Num.of_nat fuel + 1).
  { unfold Num.of_nat. rewrite <- (inject_Z_plus _ 1).
    apply inject_Z_injective. lia. }
  rewrite Hn in Hfuel.
  assert (Hr : rowHeight == rowHeight / 20 * 20) by field.
  set (q := rowHeight / 20) in *. clearbody q. lra.
Qed.

Lemma legacy_wrap_returns_witness :
  is_Some (LegacyText.wrapCell 100 monospace 50 0 70
             (js "aaaa bbbb cccc")).
Proof.
  apply legacy_wrap_returns.
  - vm_compute. discriminate.
  - vm_compute. discriminate.
  - vm_compute. lia.
Defined.
